(** * blugnu/time: the mock clock, its timers and tickers, and the deadline context

    A shallow embedding of the mock clock of package [time]
    (mockClock, timer, ticker, tickables, mockContext) and the properties
    of its advance algorithm, its tickable state machine and its registry.

    Conventions of the embedding.

    - [Time] is an instant counted in nanoseconds from the Unix epoch and
      [Duration] a number of nanoseconds, both in [Z].  Go's Duration is an
      int64 and its Time has a wider range than that; the theorems are
      stated over all integers and so cover the values Go can hold.
      [Time.In] and [Time.UTC] do not change the instant; what is kept of
      [Time.In] is its panic on a nil location.
    - The stop counter [nStopped] is an [atomic.Int32]: [Add] wraps around
      at the ends of the int32 range, and [wrap32] says so.
    - A Timer or Ticker handed out by a clock is identified by its
      [tickerId]: [newTimer] and [newTicker] take it from [nextTickerId] and
      increment that counter, so within one clock the id names the object.
      The clock's [heap] maps the id to the fields of the object; the
      [active] and [inactive] lists hold ids, the way the Go slices hold
      pointers.  Mutating [t.next] or [t.state] is an update of the heap and
      is seen through every list that holds the id.
    - The calls are modelled in the order one goroutine performs them.  A
      delivery ([go func() { ... }()] in [timer.tick] and [ticker.tick]) is
      recorded in the clock's [dispatched] log when it is issued, and its
      assignment to [clock.now] is applied at that point, which is the
      schedule the [time.Sleep(yield)] after each dispatch is there to
      produce.  The mutex itself is not modelled.
    - Loops that Go leaves unbounded take fuel; [OutOfFuel] is the only
      result of a call that never returns. *)

From Stdlib Require Import ZArith List Lia Permutation Sorted Bool.
From stdpp Require Import base option list sorting gmap.

Local Open Scope Z_scope.

(** ** Time and Duration *)

Definition Time := Z.
Definition Duration := Z.

Definition minDuration : Duration := - 2 ^ 63.
Definition maxDuration : Duration := 2 ^ 63 - 1.

Definition Time_Add (t : Time) (d : Duration) : Time := t + d.
Definition Time_After (t u : Time) : bool := u <? t.
Definition Time_Before (t u : Time) : bool := t <? u.
(** [Time.Sub] saturates at the ends of the Duration range. *)
Definition Time_Sub (t u : Time) : Duration :=
  Z.max minDuration (Z.min maxDuration (t - u)).

(** [time.Location].  A location decides how an instant is shown, not which
    instant it is; a [*time.Location] that may be nil is an
    [option Location]. *)
Inductive Location := UTC | Local | FixedZone (offset : Z).

(** ** int32 arithmetic ([atomic.Int32.Add]) *)

Definition minInt32 : Z := - 2 ^ 31.
Definition maxInt32 : Z := 2 ^ 31 - 1.
Definition wrap32 (z : Z) : Z := (z + 2 ^ 31) mod 2 ^ 32 - 2 ^ 31.

(** ** Errors (errors.go, and the ones of package context and of the runtime;
    [missingLocation] is the panic of [Time.In] on a nil location) *)

Inductive error :=
| ErrClockAlreadyExists
| ErrClockIsRunning
| ErrClockNotRunning
| ErrNotADelorean
| errClockLocked
| errInvalidState
| errInvalidTransition
| errNonPositiveInterval
| errResetCalledOnUninitialized
| DeadlineExceeded
| Canceled
| OtherError (n : nat)
| nilPointerDereference
| closeOfClosedChannel
| missingLocation.

Global Instance error_eq_dec : EqDecision error.
Proof. solve_decision. Defined.

(** ** tickables.go: states *)

Inductive tickerState := tsActive | tsExpired | tsStopped.

Global Instance tickerState_eq_dec : EqDecision tickerState.
Proof. solve_decision. Defined.

(** ** The timer and ticker structs *)

(** [tm_c] says whether the timer has a channel, [tm_fn] whether it has a
    callback; the body of the callback belongs to the caller. *)
Record timer := mkTimer {
  tm_c : bool;
  tm_fn : bool;
  tm_next : Time;
  tm_state : tickerState
}.

Record ticker := mkTicker {
  tk_d : Duration;
  tk_next : Time;
  tk_state : tickerState
}.

Inductive tickable :=
| IsTimer (t : timer)
| IsTicker (t : ticker).

Definition tickable_next (o : tickable) : Time :=
  match o with IsTimer t => tm_next t | IsTicker t => tk_next t end.

Definition tickable_state (o : tickable) : tickerState :=
  match o with IsTimer t => tm_state t | IsTicker t => tk_state t end.

(** What a tick hands to its goroutine: a send of [at_] on the channel of
    tickable [id], or a call of the callback of timer [id]. *)
Inductive dispatch :=
| Send (id : nat) (at_ : Time)
| Call (id : nat).

Global Instance dispatch_eq_dec : EqDecision dispatch.
Proof. solve_decision. Defined.

(** ** mockClock *)

Record mockClock := mkClock {
  createdAt : Time;
  dropsTicks : bool;
  yield : Duration;
  loc : Location;
  now : Time;
  nStopped : Z;
  heap : gmap nat tickable;
  active : list nat;
  inactive : list nat;
  nextTickerId : nat;
  dispatched : list dispatch
}.

Definition with_now (t : Time) (m : mockClock) : mockClock :=
  mkClock (createdAt m) (dropsTicks m) (yield m) (loc m) t (nStopped m) (heap m)
          (active m) (inactive m) (nextTickerId m) (dispatched m).
Definition with_nStopped (n : Z) (m : mockClock) : mockClock :=
  mkClock (createdAt m) (dropsTicks m) (yield m) (loc m) (now m) n (heap m)
          (active m) (inactive m) (nextTickerId m) (dispatched m).
Definition with_heap (h : gmap nat tickable) (m : mockClock) : mockClock :=
  mkClock (createdAt m) (dropsTicks m) (yield m) (loc m) (now m) (nStopped m) h
          (active m) (inactive m) (nextTickerId m) (dispatched m).
Definition with_active (a : list nat) (m : mockClock) : mockClock :=
  mkClock (createdAt m) (dropsTicks m) (yield m) (loc m) (now m) (nStopped m) (heap m)
          a (inactive m) (nextTickerId m) (dispatched m).
Definition with_inactive (a : list nat) (m : mockClock) : mockClock :=
  mkClock (createdAt m) (dropsTicks m) (yield m) (loc m) (now m) (nStopped m) (heap m)
          (active m) a (nextTickerId m) (dispatched m).
Definition with_nextTickerId (n : nat) (m : mockClock) : mockClock :=
  mkClock (createdAt m) (dropsTicks m) (yield m) (loc m) (now m) (nStopped m) (heap m)
          (active m) (inactive m) n (dispatched m).
Definition with_dispatched (l : list dispatch) (m : mockClock) : mockClock :=
  mkClock (createdAt m) (dropsTicks m) (yield m) (loc m) (now m) (nStopped m) (heap m)
          (active m) (inactive m) (nextTickerId m) l.
Definition with_dropsTicks (b : bool) (m : mockClock) : mockClock :=
  mkClock (createdAt m) b (yield m) (loc m) (now m) (nStopped m) (heap m)
          (active m) (inactive m) (nextTickerId m) (dispatched m).
Definition with_yield (d : Duration) (m : mockClock) : mockClock :=
  mkClock (createdAt m) (dropsTicks m) d (loc m) (now m) (nStopped m) (heap m)
          (active m) (inactive m) (nextTickerId m) (dispatched m).

(** [go func() { ... }()]: the dispatch is logged. *)
Definition go (d : dispatch) (m : mockClock) : mockClock :=
  with_dispatched (dispatched m ++ [d]) m.

(** ** Results of a call: a value and the state, a panic and the state at
    the panic, or no return at all within the fuel. *)

Inductive outcome (St A : Type) :=
| Ok (a : A) (s : St)
| Panic (e : error) (s : St)
| OutOfFuel.
Arguments Ok {St A} a s.
Arguments Panic {St A} e s.
Arguments OutOfFuel {St A}.

Definition M (St A : Type) := St -> outcome St A.

Definition ret {St A} (a : A) : M St A := fun s => Ok a s.
Definition panic {St A} (e : error) : M St A := fun s => Panic e s.
Definition bind {St A B} (x : M St A) (f : A -> M St B) : M St B :=
  fun s => match x s with
           | Ok a s' => f a s'
           | Panic e s' => Panic e s'
           | OutOfFuel => OutOfFuel
           end.
Definition modify {St} (f : St -> St) : M St unit := fun s => Ok tt (f s).

(** [Time.In]: the same instant; a nil location panics. *)
Definition Time_In {St} (t : Time) (loc : option Location) : M St Time :=
  match loc with
  | Some _ => ret t
  | None => panic missingLocation
  end.

Declare Scope go_scope.
Delimit Scope go_scope with go.
Notation "x <- c1 ;; c2" := (bind c1 (fun x => c2))
  (at level 100, c1 at next level, right associativity) : go_scope.
Notation "c1 ;;; c2" := (bind c1 (fun _ => c2))
  (at level 100, right associativity) : go_scope.

(** ** tickables.go: the registry lists *)

(** [nextTick] through the pointer held in a list. *)
Definition nextTick (h : gmap nat tickable) (id : nat) : Time :=
  match h !! id with
  | Some o => tickable_next o
  | None => 0
  end.

(** [tickables.Less], on the elements rather than on their indices. *)
Definition Less (h : gmap nat tickable) (x y : nat) : bool :=
  Time_Before (nextTick h x) (nextTick h y).

(** [tickables.get]: the first entry with the id, or nil. *)
Definition get (a : list nat) (id : nat) : option nat :=
  List.find (fun t => Nat.eqb t id) a.

(** [tickables.remove]: [slices.Delete] of the first entry with the id. *)
Fixpoint remove (a : list nat) (id : nat) : list nat :=
  match a with
  | [] => []
  | t :: r => if Nat.eqb t id then r else t :: remove r id
  end.

(** [tickables.take]. *)
Definition take (a : list nat) (id : nat) : list nat * option nat :=
  match get a id with
  | Some t => (remove a id, Some t)
  | None => (a, None)
  end.

(** ** sort.Sort

    [sort.Sort] belongs to the Go standard library.  On a slice of at most
    12 elements its pdqsort runs [insertionSort] over the [Less] and [Swap]
    of tickables.go, which is modelled here as it is written; on a longer
    slice it partitions, and the model takes that part as a function known
    only through the contract of [sort.Sort]: the result is a permutation
    of the input in which no element is [Less] than one before it. *)

(** The inner loop [for j := i; j > a && Less(j, j-1); j-- { Swap(j, j-1) }]:
    [x] sinks into the part already sorted, which is given last element
    first. *)
Fixpoint sink (less : nat -> nat -> bool) (x : nat) (rpre : list nat) : list nat :=
  match rpre with
  | [] => [x]
  | y :: r => if less x y then y :: sink less x r else x :: y :: r
  end.

Definition insertionSort (less : nat -> nat -> bool) (l : list nat) : list nat :=
  rev (fold_left (fun rpre x => sink less x rpre) l []).

Definition less_by (key : nat -> Z) (x y : nat) : bool := key x <? key y.

Definition ascending (key : nat -> Z) (l : list nat) : Prop :=
  StronglySorted (fun x y => key x <= key y) l.

Class LargeSort := {
  pdqsort : (nat -> nat -> bool) -> list nat -> list nat;
  pdqsort_Permutation : forall less l, Permutation (pdqsort less l) l;
  pdqsort_ascending : forall key l, ascending key (pdqsort (less_by key) l)
}.

Definition maxInsertion : nat := 12.

Definition sort_Sort `{LargeSort} (less : nat -> nat -> bool) (l : list nat) : list nat :=
  if (length l <=? maxInsertion)%nat then insertionSort less l else pdqsort less l.

(** *** Insertion sort: permutation, order, stability *)

Lemma sink_Permutation less x rpre : Permutation (sink less x rpre) (x :: rpre).
Proof.
  induction rpre as [|y r IH]; simpl; [reflexivity|].
  destruct (less x y); [|reflexivity].
  rewrite IH. apply perm_swap.
Qed.

Lemma fold_sink_Permutation less l acc :
  Permutation (fold_left (fun rpre x => sink less x rpre) l acc) (l ++ acc).
Proof.
  revert acc. induction l as [|x l IH]; intros acc; simpl; [reflexivity|].
  rewrite IH, sink_Permutation. symmetry. apply Permutation_middle.
Qed.

Lemma insertionSort_Permutation less l : Permutation (insertionSort less l) l.
Proof.
  unfold insertionSort. rewrite <- Permutation_rev.
  rewrite fold_sink_Permutation. now rewrite app_nil_r.
Qed.

Definition descending (key : nat -> Z) (l : list nat) : Prop :=
  StronglySorted (fun x y => key y <= key x) l.

Lemma sink_descending key x rpre :
  descending key rpre -> descending key (sink (less_by key) x rpre).
Proof.
  unfold descending, less_by.
  induction rpre as [|y r IH]; intros Hs; simpl.
  - repeat constructor.
  - apply StronglySorted_inv in Hs as [Hr Hy].
    destruct (Z.ltb_spec (key x) (key y)) as [Hlt|Hge].
    + constructor; [auto|].
      rewrite Forall_forall. intros z Hz.
      rewrite sink_Permutation in Hz.
      apply elem_of_cons in Hz as [->|Hz]; [lia|].
      rewrite Forall_forall in Hy. auto.
    + constructor; [constructor; auto|].
      constructor; [lia|].
      rewrite Forall_forall in Hy |- *. intros z Hz.
      specialize (Hy z Hz). lia.
Qed.

Lemma fold_sink_descending key l acc :
  descending key acc ->
  descending key (fold_left (fun rpre x => sink (less_by key) x rpre) l acc).
Proof.
  revert acc. induction l as [|x l IH]; intros acc Hacc; simpl; [assumption|].
  apply IH, sink_descending, Hacc.
Qed.

Lemma descending_rev key l : descending key l -> ascending key (rev l).
Proof.
  unfold descending, ascending.
  induction l as [|x l IH]; intros Hs; simpl; [constructor|].
  apply StronglySorted_inv in Hs as [Hl Hx].
  apply StronglySorted_app; repeat split; [|auto|repeat constructor].
  intros a b Ha Hb.
  apply list_elem_of_In, in_rev, list_elem_of_In in Ha.
  apply list_elem_of_singleton in Hb as ->.
  rewrite Forall_forall in Hx. auto.
Qed.

Lemma insertionSort_ascending key l : ascending key (insertionSort (less_by key) l).
Proof.
  unfold insertionSort. apply descending_rev, fold_sink_descending. constructor.
Qed.

(** Stability: the entries of one key keep the order they came in. *)
Definition with_key (key : nat -> Z) (k : Z) (l : list nat) : list nat :=
  List.filter (fun x => key x =? k) l.

Lemma sink_with_key key k x rpre :
  with_key key k (sink (less_by key) x rpre) = with_key key k (x :: rpre).
Proof.
  unfold with_key, less_by.
  induction rpre as [|y r IH]; simpl; [reflexivity|].
  destruct (Z.ltb_spec (key x) (key y)) as [Hlt|Hge]; [|reflexivity].
  simpl. rewrite IH. simpl.
  destruct (Z.eqb_spec (key x) k), (Z.eqb_spec (key y) k); try reflexivity; lia.
Qed.

Lemma fold_sink_with_key key k l acc :
  with_key key k (fold_left (fun rpre x => sink (less_by key) x rpre) l acc)
  = rev (with_key key k l) ++ with_key key k acc.
Proof.
  revert acc. induction l as [|x l IH]; intros acc; simpl; [reflexivity|].
  rewrite IH, sink_with_key. unfold with_key. simpl.
  destruct (key x =? k); simpl; [|reflexivity].
  now rewrite <- app_assoc.
Qed.

Lemma with_key_rev key k l : with_key key k (rev l) = rev (with_key key k l).
Proof.
  unfold with_key. induction l as [|x l IH]; simpl; [reflexivity|].
  rewrite List.filter_app, IH. simpl.
  destruct (key x =? k); simpl; [reflexivity|now rewrite app_nil_r].
Qed.

Lemma insertionSort_stable key k l :
  with_key key k (insertionSort (less_by key) l) = with_key key k l.
Proof.
  unfold insertionSort.
  rewrite with_key_rev, fold_sink_with_key. simpl.
  now rewrite app_nil_r, rev_involutive.
Qed.

(** The contract of [sort.Sort] is met by insertion sort at every length, and
    by a sort that does not keep ties in order. *)
Definition insertionLargeSort : LargeSort :=
  {| pdqsort := insertionSort;
     pdqsort_Permutation := insertionSort_Permutation;
     pdqsort_ascending := insertionSort_ascending |}.

Lemma reversing_Permutation less l : Permutation (insertionSort less (rev l)) l.
Proof. rewrite insertionSort_Permutation. symmetry. apply Permutation_rev. Qed.

Definition reversingLargeSort : LargeSort :=
  {| pdqsort := fun less l => insertionSort less (rev l);
     pdqsort_Permutation := reversing_Permutation;
     pdqsort_ascending := fun key l => insertionSort_ascending key (rev l) |}.

Section SortSort.
Context `{LargeSort}.

Lemma sort_Sort_Permutation less l : Permutation (sort_Sort less l) l.
Proof.
  unfold sort_Sort. destruct (length l <=? maxInsertion)%nat.
  - apply insertionSort_Permutation.
  - apply pdqsort_Permutation.
Qed.

Lemma sort_Sort_ascending key l : ascending key (sort_Sort (less_by key) l).
Proof.
  unfold sort_Sort. destruct (length l <=? maxInsertion)%nat.
  - apply insertionSort_ascending.
  - apply pdqsort_ascending.
Qed.

Lemma sort_Sort_stable_small key k l :
  (length l <= maxInsertion)%nat ->
  with_key key k (sort_Sort (less_by key) l) = with_key key k l.
Proof.
  intros Hlen. unfold sort_Sort.
  destruct (Nat.leb_spec (length l) maxInsertion); [|lia].
  apply insertionSort_stable.
Qed.
End SortSort.

(** ** The Timer and Ticker values handed to callers

    [Timer_std] and [Ticker_std] say whether the embedded [*time.Timer] or
    [*time.Ticker] of the standard library is non-nil; [Timer_timer] and
    [Ticker_ticker] are the embedded [*timer] and [*ticker], nil unless the
    value comes from a mock clock. *)

Record Timer := mkTimerValue {
  Timer_std : bool;
  Timer_timer : option nat;
  Timer_initialised : bool
}.

Record Ticker := mkTickerValue {
  Ticker_std : bool;
  Ticker_ticker : option nat;
  Ticker_initialised : bool
}.

(** A method of the embedded standard-library value, with whether its
    receiver is non-nil.  What the standard library does with the call is
    outside this development. *)
Inductive stdcall :=
| std_Timer_Reset (nonnil : bool) (d : Duration)
| std_Timer_Stop (nonnil : bool)
| std_Ticker_Reset (nonnil : bool) (d : Duration)
| std_Ticker_Stop (nonnil : bool).

(** A call on a Timer or Ticker value either runs on the mock clock or is
    handed to the standard library. *)
Inductive call (A : Type) :=
| Mock (r : outcome mockClock A)
| Std (c : stdcall).
Arguments Mock {A} r.
Arguments Std {A} c.

(** ** The mock clock's registry and the tickable state machine *)

Section Clock.
Context `{LargeSort}.
Local Open Scope go_scope.

(** [heap m !! id] seen as a [*timer] or a [*ticker]; [None] is nil. *)
Definition the_timer (m : mockClock) (id : nat) : option timer :=
  match heap m !! id with Some (IsTimer t) => Some t | _ => None end.
Definition the_ticker (m : mockClock) (id : nat) : option ticker :=
  match heap m !! id with Some (IsTicker t) => Some t | _ => None end.

Definition store (id : nat) (o : tickable) (m : mockClock) : mockClock :=
  with_heap (<[id := o]> (heap m)) m.

(** [sort.Sort(m.tickers.active)] *)
Definition resort (m : mockClock) : mockClock :=
  with_active (sort_Sort (Less (heap m)) (active m)) m.

(** [mockClock.activateTicker]: append, then [sort.Sort]. *)
Definition activateTicker (t : nat) (m : mockClock) : mockClock :=
  resort (with_active (active m ++ [t]) m).

(** [mockClock.disableTicker] *)
Definition disableTicker (id : nat) (m : mockClock) : mockClock :=
  let '(a, ticker) := take (active m) id in
  let m := with_active a m in
  match ticker with
  | Some t => with_inactive (inactive m ++ [t]) m
  | None => m
  end.

(** [mockClock.enableTicker] *)
Definition enableTicker (id : nat) (m : mockClock) : mockClock :=
  let '(a, ticker) := take (inactive m) id in
  let m := with_inactive a m in
  match ticker with
  | Some t => activateTicker t m
  | None => m
  end.

(** [timer.enterState] *)
Definition timer_enterState (id : nat) (state : tickerState) : M mockClock unit :=
  fun m =>
    match the_timer m id with
    | None => Panic nilPointerDereference m
    | Some t =>
        if decide (tm_state t = state) then Ok tt m
        else
          let m := store id (IsTimer (mkTimer (tm_c t) (tm_fn t) (tm_next t) state)) m in
          match state with
          | tsActive => Ok tt (enableTicker id m)
          | tsExpired => Ok tt (disableTicker id m)
          | tsStopped => Ok tt (disableTicker id m)
          end
    end.

(** [ticker.enterState] *)
Definition ticker_enterState (id : nat) (state : tickerState) : M mockClock unit :=
  fun m =>
    match the_ticker m id with
    | None => Panic nilPointerDereference m
    | Some t =>
        if decide (tk_state t = state) then Ok tt m
        else
          let m := store id (IsTicker (mkTicker (tk_d t) (tk_next t) state)) m in
          match state with
          | tsActive => Ok tt (enableTicker id m)
          | tsStopped => Ok tt (disableTicker id m)
          | tsExpired => Panic errInvalidTransition m
          end
    end.

(** [timer.tick]; the receiver may be nil. *)
Definition timer_tick (t : option nat) (now_ : Time) : M mockClock bool :=
  fun m =>
    match t with
    | None => Ok false m
    | Some id =>
        match the_timer m id with
        | None => Ok false m
        | Some tm =>
            if negb (bool_decide (tm_state tm = tsActive)) || Time_After (tm_next tm) now_
            then Ok false m
            else
              (timer_enterState id tsExpired ;;;
               (if tm_fn tm then
                  modify (fun m => go (Call id) (with_now (tm_next tm) m))
                else if tm_c tm then
                  modify (fun m => go (Send id (tm_next tm)) (with_now (tm_next tm) m))
                else ret tt) ;;;
               ret true) m
        end
    end.

(** The loop of [ticker.tick] under dropsTicks:
    [for !t.next.After(now) { at = t.next; t.next = t.next.Add(t.d) }]. *)
Fixpoint dropLoop (fuel : nat) (d : Duration) (now_ : Time) (at_ next : Time)
  : option (Time * Time) :=
  if Time_After next now_ then Some (at_, next)
  else match fuel with
       | O => None
       | S fuel => dropLoop fuel d now_ next (Time_Add next d)
       end.

(** [ticker.tick]; the receiver may be nil. *)
Definition ticker_tick (fuel : nat) (t : option nat) (now_ : Time) : M mockClock bool :=
  fun m =>
    match t with
    | None => Ok false m
    | Some id =>
        match the_ticker m id with
        | None => Ok false m
        | Some tk =>
            if negb (bool_decide (tk_state tk = tsActive)) || Time_After (tk_next tk) now_
            then Ok false m
            else
              let at_ := tk_next tk in
              let next := Time_Add (tk_next tk) (tk_d tk) in
              match (if dropsTicks m then dropLoop fuel (tk_d tk) now_ at_ next
                     else Some (at_, next)) with
              | None => OutOfFuel
              | Some (at_, next) =>
                  let m := store id (IsTicker (mkTicker (tk_d tk) next (tk_state tk))) m in
                  Ok true (go (Send id at_) (with_now at_ m))
              end
        end
    end.

(** [tickable.tick] through the interface value held in a list. *)
Definition tickable_tick (fuel : nat) (id : nat) (now_ : Time) : M mockClock bool :=
  fun m =>
    match heap m !! id with
    | Some (IsTimer _) => timer_tick (Some id) now_ m
    | Some (IsTicker _) => ticker_tick fuel (Some id) now_ m
    | None => Panic nilPointerDereference m
    end.

(** [mockClock.tick] *)
Definition tick (fuel : nat) (t : Time) : M mockClock bool :=
  fun m =>
    match active m with
    | [] => Ok false m
    | ticker :: _ =>
        match heap m !! ticker with
        | None => Panic nilPointerDereference m
        | Some o =>
            if Time_After (tickable_next o) t then Ok false m
            else
              (tickable_tick fuel ticker t ;;; modify resort ;;; ret true) m
        end
    end.

(** [for m.tick(t) { }] *)
Fixpoint tickLoop (fuel : nat) (t : Time) : M mockClock unit :=
  match fuel with
  | O => fun _ => OutOfFuel
  | S fuel => ticked <- tick fuel t ;; if ticked then tickLoop fuel t else ret tt
  end.

(** [mockClock.AdvanceTo] *)
Definition AdvanceTo (fuel : nat) (t : Time) : M mockClock unit :=
  fun m =>
    if Time_After (now m) t then Panic ErrNotADelorean m
    else (tickLoop fuel t ;;; modify (with_now t)) m.

(** [mockClock.AdvanceBy] *)
Definition AdvanceBy (fuel : nat) (d : Duration) : M mockClock unit :=
  fun m => AdvanceTo fuel (Time_Add (now m) d) m.

(** [mockClock.IsRunning] *)
Definition IsRunning (m : mockClock) : bool := nStopped m =? 0.

(** [mockClock.advance]; [elapsed] is [time.Since(m.updated)], read from
    the system clock. *)
Definition advance (elapsed : Duration) : M mockClock Time :=
  fun m =>
    if negb (IsRunning m) then Ok (now m) m
    else let m := with_now (Time_Add (now m) elapsed) m in Ok (now m) m.

(** [mockClock.Now], [mockClock.Since], [mockClock.Until] *)
Definition Now (elapsed : Duration) : M mockClock Time := advance elapsed.
Definition Since (elapsed : Duration) (t : Time) : M mockClock Duration :=
  n <- Now elapsed ;; ret (Time_Sub n t).
Definition Until (elapsed : Duration) (t : Time) : M mockClock Duration :=
  n <- Now elapsed ;; ret (Time_Sub t n).

(** [mockClock.Update] *)
Definition Update (elapsed : Duration) : M mockClock unit :=
  fun m =>
    if negb (IsRunning m) then Panic ErrClockNotRunning m
    else (advance elapsed ;;; ret tt) m.

(** [mockClock.Start] and [mockClock.Stop] *)
Definition Start (elapsed : Duration) : M mockClock unit :=
  fun m =>
    let n := wrap32 (nStopped m - 1) in
    let m := with_nStopped n m in
    if n =? 0 then (advance elapsed ;;; ret tt) m
    else if n <? 0 then Panic ErrClockIsRunning m
    else Ok tt m.
Definition Stop : M mockClock unit :=
  modify (fun m => with_nStopped (wrap32 (nStopped m + 1)) m).

(** [mockClock.newTimer]; [fn] says whether a callback is given. *)
Definition newTimer (d : Duration) (fn : bool) : M mockClock Timer :=
  fun m =>
    let id := nextTickerId m in
    let result := mkTimerValue true (Some id) true in
    let m := store id (IsTimer (mkTimer (negb fn) fn (Time_Add (now m) (Z.max d 0)) tsActive)) m in
    let m := activateTicker id m in
    let m := with_nextTickerId (S (nextTickerId m)) m in
    if d <=? 0 then (timer_tick (Timer_timer result) (now m) ;;; ret result) m
    else Ok result m.

(** [mockClock.newTicker] *)
Definition newTicker (fuel : nat) (d : Duration) : M mockClock Ticker :=
  fun m =>
    let id := nextTickerId m in
    let ticker := mkTickerValue true (Some id) true in
    let m := store id (IsTicker (mkTicker d (Time_Add (now m) (Z.max d 0)) tsActive)) m in
    let m := activateTicker id m in
    let m := with_nextTickerId (S (nextTickerId m)) m in
    if d <=? 0 then (ticker_tick fuel (Ticker_ticker ticker) (now m) ;;; ret ticker) m
    else Ok ticker m.

(** [mockClock.NewTimer], [mockClock.AfterFunc], [mockClock.NewTicker] *)
Definition NewTimer (d : Duration) : M mockClock Timer := newTimer d false.
Definition AfterFunc (d : Duration) : M mockClock Timer := newTimer d true.
Definition NewTicker (fuel : nat) (d : Duration) : M mockClock Ticker := newTicker fuel d.

(** [mockClock.After] and [mockClock.Tick]: the channel of a timer or a
    ticker is named by the id of its owner; [None] is the nil channel. *)
Definition After (d : Duration) : M mockClock (option nat) :=
  t <- NewTimer d ;; ret (Timer_timer t).
Definition Tick (fuel : nat) (d : Duration) : M mockClock (option nat) :=
  if d <=? 0 then ret None
  else t <- NewTicker fuel d ;; ret (Ticker_ticker t).

(** [mockClock.resetTicker] *)
Definition resetTicker (t : nat) (d : Duration) : M mockClock unit :=
  fun m =>
    match the_ticker m t with
    | None => Panic nilPointerDereference m
    | Some tk =>
        let m := store t (IsTicker (mkTicker d (Time_Add (now m) (Z.max d 0)) (tk_state tk))) m in
        ticker_enterState t tsActive m
    end.

(** [mockClock.resetTimer] *)
Definition resetTimer (t : nat) (d : Duration) : M mockClock unit :=
  fun m =>
    match the_timer m t with
    | None => Panic nilPointerDereference m
    | Some tm =>
        let m := store t (IsTimer (mkTimer (tm_c tm) (tm_fn tm) (Time_Add (now m) d) (tm_state tm))) m in
        ((if d =? 0 then (timer_tick (Some t) (now m) ;;; ret tt) else ret tt) ;;;
         (fun m =>
            match the_timer m t with
            | None => Panic nilPointerDereference m
            | Some tm =>
                if negb (bool_decide (tm_state tm = tsActive))
                then timer_enterState t tsActive m
                else Ok tt m
            end)) m
    end.

(** [timer.reset] and [timer.stop] *)
Definition timer_reset (t : nat) (d : Duration) : M mockClock bool :=
  fun m =>
    match the_timer m t with
    | None => Panic nilPointerDereference m
    | Some tm =>
        let wasWaiting := bool_decide (tm_state tm = tsActive) in
        (resetTimer t d ;;; ret wasWaiting) m
    end.

Definition timer_stop (t : nat) : M mockClock bool :=
  fun m =>
    match the_timer m t with
    | None => Panic nilPointerDereference m
    | Some tm =>
        let wasActive := bool_decide (tm_state tm = tsActive) in
        ((if wasActive then timer_enterState t tsStopped else ret tt) ;;;
         ret wasActive) m
    end.

(** [ticker.reset] and [ticker.stop] *)
Definition ticker_reset (t : nat) (d : Duration) : M mockClock unit :=
  fun m =>
    if d <=? 0 then Panic errNonPositiveInterval m
    else resetTicker t d m.

Definition ticker_stop (t : nat) : M mockClock unit :=
  fun m =>
    match the_ticker m t with
    | None => Panic nilPointerDereference m
    | Some tk =>
        if bool_decide (tk_state tk = tsActive) then ticker_enterState t tsStopped m
        else Ok tt m
    end.

(** [Timer.Reset] and [Timer.Stop] *)
Definition Timer_Reset (t : Timer) (d : Duration) (m : mockClock) : call bool :=
  if negb (Timer_initialised t) then Mock (Panic errResetCalledOnUninitialized m)
  else match Timer_timer t with
       | Some id => Mock (timer_reset id d m)
       | None => Std (std_Timer_Reset (Timer_std t) d)
       end.

Definition Timer_Stop (t : Timer) (m : mockClock) : call bool :=
  match Timer_timer t with
  | Some id => Mock (timer_stop id m)
  | None => Std (std_Timer_Stop (Timer_std t))
  end.

(** [Ticker.Reset] and [Ticker.Stop] *)
Definition Ticker_Reset (t : Ticker) (d : Duration) (m : mockClock) : call unit :=
  if negb (Ticker_initialised t) then Mock (Panic errResetCalledOnUninitialized m)
  else match Ticker_ticker t with
       | Some id => Mock (ticker_reset id d m)
       | None => Std (std_Ticker_Reset (Ticker_std t) d)
       end.

Definition Ticker_Stop (t : Ticker) (m : mockClock) : call unit :=
  match Ticker_ticker t with
  | Some id => Mock (ticker_stop id m)
  | None => Std (std_Ticker_Stop (Ticker_std t))
  end.

(** The promoted [tick] of a Timer or Ticker value. *)
Definition Timer_tick (t : Timer) (now_ : Time) : M mockClock bool :=
  timer_tick (Timer_timer t) now_.
Definition Ticker_tick (fuel : nat) (t : Ticker) (now_ : Time) : M mockClock bool :=
  ticker_tick fuel (Ticker_ticker t) now_.

(** ** NewMockClock and its options *)

Inductive ClockOption :=
| AtNow (realNow : Time)
| AtTime (t : Time)
| DropsTicks
| InLocation (loc : option Location)
| StartRunning (elapsed : Duration)
| Yielding (d : Duration).

Definition applyOption (o : ClockOption) : M mockClock unit :=
  match o with
  | AtNow realNow => fun m => (t <- Time_In realNow (Some (loc m)) ;; modify (with_now t)) m
  | AtTime t => fun m => (t <- Time_In t (Some (loc m)) ;; modify (with_now t)) m
  | DropsTicks => modify (with_dropsTicks true)
  | InLocation l => fun m => (t <- Time_In (now m) l ;; modify (with_now t)) m
  | StartRunning elapsed => Start elapsed
  | Yielding d => modify (with_yield (Z.max d 0))
  end.

Fixpoint applyOptions (options : list ClockOption) : M mockClock unit :=
  match options with
  | [] => ret tt
  | o :: options => applyOption o ;;; applyOptions options
  end.

Definition Millisecond : Duration := 1000000.
Definition Second : Duration := 1000000000.

(** The clock [NewMockClock] builds before it applies the options: at the
    epoch, stopped, yielding 1ms, no tickables. *)
Definition epochClock : mockClock :=
  {| createdAt := 0; dropsTicks := false; yield := 1 * Millisecond; loc := UTC;
     now := 0;
     nStopped := 1; heap := ∅; active := []; inactive := [];
     nextTickerId := O; dispatched := [] |}.

Definition NewMockClock (options : list ClockOption) : outcome mockClock unit :=
  applyOptions options epochClock.
End Clock.

(** ** mockContext (context.go)

    A deadline context and the mock clock its timer lives on.  [done] says
    whether the done channel has been closed; closing a closed channel is a
    panic of the Go runtime.  The goroutine that watches the parent and the
    callback of the timer reach the context through [cancel] only, so they
    appear as calls of [cancel]. *)

Record mockContext := mkContext {
  deadline : Time;
  done : bool;
  err : option error;
  ctx_timer : option Timer
}.

Record world := mkWorld {
  clock : mockClock;
  ctx : mockContext
}.

Definition with_clock (m : mockClock) (w : world) : world := mkWorld m (ctx w).
Definition with_ctx (c : mockContext) (w : world) : world := mkWorld (clock w) c.

(** The function returned next to the context. *)
Inductive CancelFunc := noopCancel | cancelCanceled.

Section DeadlineContext.
Context `{LargeSort}.
Local Open Scope go_scope.

(** [close(c.done)] *)
Definition close_done : M world unit :=
  fun w =>
    if done (ctx w) then Panic closeOfClosedChannel w
    else Ok tt (with_ctx (mkContext (deadline (ctx w)) true (err (ctx w)) (ctx_timer (ctx w))) w).

(** [c.timer.Stop()] on the clock of the context; the result is dropped. *)
Definition stop_timer (t : Timer) : M world unit :=
  fun w =>
    match Timer_Stop t (clock w) with
    | Mock (Ok _ m) => Ok tt (with_clock m w)
    | Mock (Panic e m) => Panic e (with_clock m w)
    | Mock OutOfFuel => OutOfFuel
    | Std _ => Ok tt w
    end.

(** [mockContext.cancel]; [e] is a Go error, nil when [None]. *)
Definition cancel (e : option error) : M world unit :=
  fun w =>
    match err (ctx w) with
    | Some _ => Ok tt w
    | None =>
        (modify (fun w => with_ctx (mkContext (deadline (ctx w)) (done (ctx w)) e (ctx_timer (ctx w))) w) ;;;
         close_done ;;;
         (fun w =>
            match ctx_timer (ctx w) with
            | Some t =>
                (stop_timer t ;;;
                 modify (fun w => with_ctx (mkContext (deadline (ctx w)) (done (ctx w)) (err (ctx w)) None) w)) w
            | None => Ok tt w
            end)) w
    end.

(** [newMockContext] on mock clock [m].  [elapsed] is the real time read by
    [clock.Until]; [parentDone] is the error of a parent that is already
    done when the watcher starts, if there is one. *)
Definition newMockContext (elapsed : Duration) (parentDone : option error) (deadline_ : Time)
  : M mockClock (mockContext * CancelFunc) :=
  fun m =>
    let w := mkWorld m (mkContext deadline_ false None None) in
    let lift {A} (r : outcome world A) (k : A -> world -> outcome mockClock (mockContext * CancelFunc)) :=
      match r with
      | Ok a w => k a w
      | Panic e w => Panic e (clock w)
      | OutOfFuel => OutOfFuel
      end in
    lift (match parentDone with Some e => cancel (Some e) w | None => Ok tt w end) (fun _ w =>
    match Until elapsed deadline_ (clock w) with
    | Ok dur m =>
        let w := with_clock m w in
        if dur <=? 0 then
          lift (cancel (Some DeadlineExceeded) w) (fun _ w => Ok (ctx w, noopCancel) (clock w))
        else
          match err (ctx w) with
          | None =>
              match AfterFunc dur (clock w) with
              | Ok t m =>
                  Ok (mkContext (deadline (ctx w)) (done (ctx w)) (err (ctx w)) (Some t), cancelCanceled) m
              | Panic e m => Panic e m
              | OutOfFuel => OutOfFuel
              end
          | Some _ => Ok (ctx w, cancelCanceled) (clock w)
          end
    | Panic e m => Panic e m
    | OutOfFuel => OutOfFuel
    end).

(** What reaches a context after it is built: the returned cancel function,
    the callback of its timer, the parent's done channel with the parent's
    error. *)
Inductive ctxEvent :=
| callCancelFunc (f : CancelFunc)
| timerCallback
| parentIsDone (e : error).

Definition ctxStep (ev : ctxEvent) : M world unit :=
  match ev with
  | callCancelFunc noopCancel => ret tt
  | callCancelFunc cancelCanceled => cancel (Some Canceled)
  | timerCallback => cancel (Some DeadlineExceeded)
  | parentIsDone e => cancel (Some e)
  end.

Fixpoint ctxRun (evs : list ctxEvent) : M world unit :=
  match evs with
  | [] => ret tt
  | ev :: evs => ctxStep ev ;;; ctxRun evs
  end.
End DeadlineContext.

(** * Basic facts about the registry operations *)

Section RegistryFacts.
Context `{LargeSort}.

Lemma the_timer_store id id' o m :
  the_timer (store id o m) id' =
  if decide (id = id') then match o with IsTimer t => Some t | _ => None end
  else the_timer m id'.
Proof.
  unfold the_timer, store. simpl. rewrite lookup_insert.
  destruct (decide (id = id')); reflexivity.
Qed.

Lemma the_ticker_store id id' o m :
  the_ticker (store id o m) id' =
  if decide (id = id') then match o with IsTicker t => Some t | _ => None end
  else the_ticker m id'.
Proof.
  unfold the_ticker, store. simpl. rewrite lookup_insert.
  destruct (decide (id = id')); reflexivity.
Qed.

Lemma heap_disableTicker id m : heap (disableTicker id m) = heap m.
Proof. unfold disableTicker. destruct (take (active m) id) as [a [t|]]; reflexivity. Qed.

Lemma heap_enableTicker id m : heap (enableTicker id m) = heap m.
Proof. unfold enableTicker. destruct (take (inactive m) id) as [a [t|]]; reflexivity. Qed.

Lemma now_disableTicker id m : now (disableTicker id m) = now m.
Proof. unfold disableTicker. destruct (take (active m) id) as [a [t|]]; reflexivity. Qed.

Lemma now_enableTicker id m : now (enableTicker id m) = now m.
Proof. unfold enableTicker. destruct (take (inactive m) id) as [a [t|]]; reflexivity. Qed.

Lemma dispatched_disableTicker id m : dispatched (disableTicker id m) = dispatched m.
Proof. unfold disableTicker. destruct (take (active m) id) as [a [t|]]; reflexivity. Qed.

Lemma dispatched_enableTicker id m : dispatched (enableTicker id m) = dispatched m.
Proof. unfold enableTicker. destruct (take (inactive m) id) as [a [t|]]; reflexivity. Qed.

Lemma the_timer_disableTicker id id' m : the_timer (disableTicker id m) id' = the_timer m id'.
Proof. unfold the_timer. now rewrite heap_disableTicker. Qed.

Lemma the_ticker_disableTicker id id' m : the_ticker (disableTicker id m) id' = the_ticker m id'.
Proof. unfold the_ticker. now rewrite heap_disableTicker. Qed.

Lemma get_Some a id t : get a id = Some t <-> t = id /\ id ∈ a.
Proof.
  unfold get. induction a as [|x a IH]; simpl.
  - split; [discriminate|]. intros [_ Hin]. inversion Hin.
  - destruct (Nat.eqb_spec x id) as [->|Hne].
    + split; [intros [= <-]; split; [reflexivity|left]|intros [-> _]; reflexivity].
    + rewrite IH. split; intros [-> Hin]; split; try reflexivity.
      * now right.
      * apply elem_of_cons in Hin as [->|Hin]; [congruence|assumption].
Qed.

Lemma get_None a id : get a id = None <-> id ∉ a.
Proof.
  split.
  - intros Hg Hin. assert (get a id = Some id) as Hs by (apply get_Some; auto). congruence.
  - intros Hnin. destruct (get a id) as [t|] eqn:Hg; [|reflexivity].
    apply get_Some in Hg as [_ Hin]. contradiction.
Qed.

Lemma remove_not_in a id : id ∉ a -> remove a id = a.
Proof.
  induction a as [|x a IH]; simpl; [reflexivity|].
  intros Hnin. apply not_elem_of_cons in Hnin as [Hne Hnin].
  destruct (Nat.eqb_spec x id); [congruence|]. now rewrite IH.
Qed.

Lemma remove_Permutation a id : id ∈ a -> Permutation a (id :: remove a id).
Proof.
  induction a as [|x a IH]; simpl; intros Hin; [inversion Hin|].
  destruct (Nat.eqb_spec x id) as [->|Hne]; [reflexivity|].
  apply elem_of_cons in Hin as [->|Hin]; [congruence|].
  rewrite (IH Hin) at 1. apply perm_swap.
Qed.

Lemma remove_NoDup a id : NoDup a -> NoDup (remove a id) /\ id ∉ remove a id.
Proof.
  intros Hnd. destruct (decide (id ∈ a)) as [Hin|Hnin].
  - rewrite (remove_Permutation a id Hin) in Hnd.
    apply NoDup_cons in Hnd as [? ?]. auto.
  - rewrite remove_not_in by assumption. auto.
Qed.

Lemma elem_of_remove a id x : x ∈ remove a id -> x ∈ a.
Proof.
  induction a as [|y a IH]; simpl; [auto|].
  destruct (Nat.eqb_spec y id); intros Hin.
  - now right.
  - apply elem_of_cons in Hin as [->|Hin]; [left|right; auto].
Qed.

Lemma elem_of_remove_ne a id x : x ≠ id -> x ∈ a -> x ∈ remove a id.
Proof.
  intros Hne. induction a as [|y a IH]; simpl; [auto|].
  intros Hin. destruct (Nat.eqb_spec y id) as [->|Hy].
  - apply elem_of_cons in Hin as [->|Hin]; [congruence|assumption].
  - apply elem_of_cons in Hin as [->|Hin]; [left|right; auto].
Qed.

(** [disableTicker] and [enableTicker] on the lists. *)
Lemma active_disableTicker id m : active (disableTicker id m) = remove (active m) id.
Proof.
  unfold disableTicker, take. destruct (get (active m) id) eqn:Hg; simpl; [reflexivity|].
  apply get_None in Hg. now rewrite remove_not_in.
Qed.

Lemma inactive_disableTicker id m :
  inactive (disableTicker id m) =
  if decide (id ∈ active m) then inactive m ++ [id] else inactive m.
Proof.
  unfold disableTicker, take. destruct (get (active m) id) as [t|] eqn:Hg; simpl.
  - apply get_Some in Hg as [-> Hin]. now rewrite decide_True.
  - apply get_None in Hg. now rewrite decide_False.
Qed.

Lemma nextTick_store_ne id id' o m :
  id ≠ id' -> nextTick (heap (store id o m)) id' = nextTick (heap m) id'.
Proof. intros Hne. unfold nextTick, store. simpl. now rewrite lookup_insert_ne. Qed.
End RegistryFacts.

(** * Properties *)

(** ** Rewinding the clock *)

Section Rewind.
Context `{LargeSort}.

(** C2: [AdvanceTo(t)] with [t] before the current time, and [AdvanceBy(d)]
    whose target [now + d] is before the current time, panic with
    [ErrNotADelorean]; the clock at the panic is the clock before the call,
    current time and both registry lists included. *)
Theorem AdvanceTo_before_now_panics (fuel : nat) (m : mockClock) :
  (forall t : Time, t < now m -> AdvanceTo fuel t m = Panic ErrNotADelorean m) /\
  (forall d : Duration, Time_Add (now m) d < now m ->
                        AdvanceBy fuel d m = Panic ErrNotADelorean m).
Proof.
  assert (Hto : forall t : Time, t < now m -> AdvanceTo fuel t m = Panic ErrNotADelorean m).
  { intros t Ht. unfold AdvanceTo, Time_After.
    destruct (Z.ltb_spec t (now m)); [reflexivity|lia]. }
  split; [exact Hto|].
  intros d Hd. unfold AdvanceBy. now apply Hto.
Qed.

End Rewind.

(** ** Advancing a running clock *)

Section Running.
Context `{LargeSort}.

(** On a clock with no tickable to fire, [AdvanceBy] does not look at
    [nStopped] at all. *)
Lemma AdvanceBy_ignores_nStopped (fuel : nat) (d : Duration) (m : mockClock) :
  0 <= d -> active m = [] ->
  AdvanceBy (S fuel) d m = Ok tt (with_now (Time_Add (now m) d) m).
Proof.
  intros Hd Ha. unfold AdvanceBy, AdvanceTo, Time_After, Time_Add.
  destruct (Z.ltb_spec (now m + d) (now m)); [lia|].
  unfold bind. simpl. unfold bind, tick. rewrite Ha. reflexivity.
Qed.

(** C6: the documentation of [AdvanceBy] and [AdvanceTo] says that they
    panic on a running clock.  On the clock of [NewMockClock(StartRunning())]
    both return normally and move the current time. *)
Theorem AdvanceBy_on_running_clock_returns :
  exists m : mockClock,
    NewMockClock [StartRunning 0] = Ok tt m /\
    IsRunning m = true /\
    AdvanceBy 1 (1 * Second) m = Ok tt (with_now (1 * Second) m) /\
    AdvanceTo 1 (1 * Second) m = Ok tt (with_now (1 * Second) m).
Proof.
  exists (with_nStopped 0 epochClock). repeat split; reflexivity.
Qed.
End Running.

(** ** Tick and NewTicker with a non-positive duration *)

Section NonPositiveTick.
Context `{LargeSort}.

(** [Tick(d)] with [d <= 0] returns the nil channel and the clock as it
    was. *)
Lemma Tick_nonpositive_is_nil (fuel : nat) (d : Duration) (m : mockClock) :
  d <= 0 -> Tick fuel d m = Ok None m.
Proof.
  intros Hd. unfold Tick. destruct (Z.leb_spec d 0); [reflexivity|lia].
Qed.

Lemma dropLoop_zero_period (fuel : nat) (now_ at_ next : Time) :
  next <= now_ -> dropLoop fuel 0 now_ at_ next = None.
Proof.
  revert at_. induction fuel as [|fuel IH]; intros at_ Hle; simpl;
    unfold Time_After; destruct (Z.ltb_spec now_ next); try lia; [reflexivity|].
  unfold Time_Add. rewrite Z.add_0_r. now apply IH.
Qed.

(** C10: on a clock built with [DropsTicks()], [NewTicker(0)] registers the
    ticker and then never leaves the loop of [ticker.tick] that skips to
    the last elapsed tick, whatever the fuel: it does not fire. *)
Theorem NewTicker_zero_on_dropping_clock_never_returns :
  exists m : mockClock,
    NewMockClock [DropsTicks] = Ok tt m /\
    Tick 0 0 m = Ok None m /\
    forall fuel : nat, NewTicker fuel 0 m = OutOfFuel.
Proof.
  exists (with_dropsTicks true epochClock). repeat split.
  intros fuel. unfold NewTicker, newTicker. simpl.
  unfold bind, ticker_tick. simpl.
  unfold the_ticker, store, activateTicker. simpl.
  rewrite lookup_insert_eq. simpl.
  unfold Time_Add. simpl.
  now rewrite dropLoop_zero_period.
Qed.

(** X19: With ticks not dropped, [NewTicker(d)] with [d <= 0] fires at once, at
    the current time. *)
Lemma NewTicker_nonpositive_fires (fuel : nat) (d : Duration) (m : mockClock) :
  d <= 0 -> dropsTicks m = false ->
  exists m', NewTicker fuel d m = Ok (mkTickerValue true (Some (nextTickerId m)) true) m' /\
             dispatched m' = dispatched m ++ [Send (nextTickerId m) (now m)].
Proof.
  intros Hd Hdrop. unfold NewTicker, newTicker.
  destruct (Z.leb_spec d 0); [|lia].
  unfold bind, ticker_tick. simpl.
  unfold the_ticker.
  cbn [heap with_nextTickerId activateTicker resort with_active store with_heap].
  rewrite lookup_insert_eq. simpl.
  rewrite Hdrop. unfold Time_After, Time_Add.
  replace (Z.max d 0) with 0 by lia. rewrite Z.add_0_r, Z.ltb_irrefl.
  eexists. split; reflexivity.
Qed.
End NonPositiveTick.

(** ** Stop and Reset of timers and tickers *)

Section StopReset.
Context `{LargeSort}.

Lemma the_timer_enableTicker id id' m : the_timer (enableTicker id m) id' = the_timer m id'.
Proof. unfold the_timer. now rewrite heap_enableTicker. Qed.

Lemma the_ticker_enableTicker id id' m : the_ticker (enableTicker id m) id' = the_ticker m id'.
Proof. unfold the_ticker. now rewrite heap_enableTicker. Qed.

(** [timer.stop] on an Active timer: true, and the timer is Stopped with
    its [next] as it was. *)
Lemma timer_stop_active (m : mockClock) (id : nat) (tm : timer) :
  the_timer m id = Some tm -> tm_state tm = tsActive ->
  exists m1, timer_stop id m = Ok true m1 /\
             the_timer m1 id = Some (mkTimer (tm_c tm) (tm_fn tm) (tm_next tm) tsStopped) /\
             now m1 = now m /\ dispatched m1 = dispatched m.
Proof.
  intros Htm Hst. unfold timer_stop. rewrite Htm, Hst. simpl.
  unfold bind, timer_enterState. rewrite Htm, Hst. simpl.
  eexists. split; [reflexivity|].
  rewrite the_timer_disableTicker, the_timer_store, decide_True by reflexivity.
  rewrite now_disableTicker, dispatched_disableTicker. auto.
Qed.

(** [timer.stop] on a timer that is not Active: false, and nothing moves. *)
Lemma timer_stop_inactive (m : mockClock) (id : nat) (tm : timer) :
  the_timer m id = Some tm -> tm_state tm <> tsActive ->
  timer_stop id m = Ok false m.
Proof.
  intros Htm Hst. unfold timer_stop. rewrite Htm.
  rewrite bool_decide_eq_false_2 by assumption. reflexivity.
Qed.

Lemma ticker_stop_active (m : mockClock) (id : nat) (tk : ticker) :
  the_ticker m id = Some tk -> tk_state tk = tsActive ->
  exists m1, ticker_stop id m = Ok tt m1 /\
             the_ticker m1 id = Some (mkTicker (tk_d tk) (tk_next tk) tsStopped) /\
             now m1 = now m /\ dispatched m1 = dispatched m.
Proof.
  intros Htk Hst. unfold ticker_stop. rewrite Htk, Hst. simpl.
  unfold ticker_enterState. rewrite Htk, Hst. simpl.
  eexists. split; [reflexivity|].
  rewrite the_ticker_disableTicker, the_ticker_store, decide_True by reflexivity.
  rewrite now_disableTicker, dispatched_disableTicker. auto.
Qed.

Lemma ticker_stop_inactive (m : mockClock) (id : nat) (tk : ticker) :
  the_ticker m id = Some tk -> tk_state tk <> tsActive ->
  ticker_stop id m = Ok tt m.
Proof.
  intros Htk Hst. unfold ticker_stop. rewrite Htk.
  rewrite bool_decide_eq_false_2 by assumption. reflexivity.
Qed.

(** C9, as amended: stopping is idempotent.  The first [stop] of an Active
    timer makes it Stopped and returns true; a second [stop] returns false
    and leaves the whole clock, the timer's state and [next] included, as it
    was.  The first [stop] of an Active ticker makes it Stopped and a second
    one leaves the whole clock as it was; [ticker.stop] has no result. *)
Theorem stop_twice (m : mockClock) (id : nat) :
  (forall tm : timer,
     the_timer m id = Some tm -> tm_state tm = tsActive ->
     exists m1,
       timer_stop id m = Ok true m1 /\
       the_timer m1 id = Some (mkTimer (tm_c tm) (tm_fn tm) (tm_next tm) tsStopped) /\
       timer_stop id m1 = Ok false m1) /\
  (forall tk : ticker,
     the_ticker m id = Some tk -> tk_state tk = tsActive ->
     exists m1,
       ticker_stop id m = Ok tt m1 /\
       the_ticker m1 id = Some (mkTicker (tk_d tk) (tk_next tk) tsStopped) /\
       ticker_stop id m1 = Ok tt m1).
Proof.
  split.
  - intros tm Htm Hst.
    destruct (timer_stop_active m id tm Htm Hst) as (m1 & Hstop & Htm1 & _).
    exists m1. repeat split; [assumption..|].
    now apply (timer_stop_inactive m1 id _ Htm1).
  - intros tk Htk Hst.
    destruct (ticker_stop_active m id tk Htk Hst) as (m1 & Hstop & Htk1 & _).
    exists m1. repeat split; [assumption..|].
    now apply (ticker_stop_inactive m1 id _ Htk1).
Qed.

(** C8, as amended: [Reset] on a Timer or Ticker value that is not
    initialised panics with [errResetCalledOnUninitialized] and the clock is
    untouched; [tick] on a value without a mock timer or ticker behind it
    returns false; [Stop] has no such check and, without a mock behind the
    value, is handed to the embedded standard-library timer or ticker. *)
Theorem uninitialised_Timer_and_Ticker
  (t : Timer) (k : Ticker) (d : Duration) (fuel : nat) (now_ : Time) (m : mockClock) :
  (Timer_initialised t = false ->
   Timer_Reset t d m = Mock (Panic errResetCalledOnUninitialized m)) /\
  (Ticker_initialised k = false ->
   Ticker_Reset k d m = Mock (Panic errResetCalledOnUninitialized m)) /\
  (Timer_timer t = None -> Timer_tick t now_ m = Ok false m) /\
  (Ticker_ticker k = None -> Ticker_tick fuel k now_ m = Ok false m) /\
  (Timer_timer t = None -> Timer_Stop t m = Std (std_Timer_Stop (Timer_std t))) /\
  (Ticker_ticker k = None -> Ticker_Stop k m = Std (std_Ticker_Stop (Ticker_std k))).
Proof.
  unfold Timer_Reset, Ticker_Reset, Timer_tick, Ticker_tick, Timer_Stop, Ticker_Stop.
  repeat split; intros ->; reflexivity.
Qed.
End StopReset.

(** ** Reset of a timer *)

Section TimerReset.
Context `{LargeSort}.

Lemma timer_enterState_Active (m : mockClock) (id : nat) (tm : timer) :
  the_timer m id = Some tm -> tm_state tm <> tsActive ->
  exists m', timer_enterState id tsActive m = Ok tt m' /\
             the_timer m' id = Some (mkTimer (tm_c tm) (tm_fn tm) (tm_next tm) tsActive) /\
             dispatched m' = dispatched m /\ now m' = now m.
Proof.
  intros Htm Hst. unfold timer_enterState. rewrite Htm.
  rewrite decide_False by assumption.
  eexists. split; [reflexivity|].
  rewrite the_timer_enableTicker, the_timer_store, decide_True by reflexivity.
  rewrite dispatched_enableTicker, now_enableTicker. auto.
Qed.

(** [timer.tick] on an Active timer that is due: Expired, and one dispatch
    if the timer has a callback or a channel. *)
Lemma timer_tick_due (m : mockClock) (id : nat) (tm : timer) (now_ : Time) :
  the_timer m id = Some tm -> tm_state tm = tsActive -> tm_next tm <= now_ ->
  exists m', timer_tick (Some id) now_ m = Ok true m' /\
             the_timer m' id = Some (mkTimer (tm_c tm) (tm_fn tm) (tm_next tm) tsExpired) /\
             dispatched m' = dispatched m ++
               (if tm_fn tm then [Call id]
                else if tm_c tm then [Send id (tm_next tm)] else []) /\
             now m' = (if tm_fn tm || tm_c tm then tm_next tm else now m).
Proof.
  intros Htm Hst Hdue. unfold timer_tick. rewrite Htm, Hst.
  unfold Time_After. destruct (Z.ltb_spec now_ (tm_next tm)); [lia|]. simpl.
  unfold bind at 1. unfold timer_enterState. rewrite Htm, Hst. simpl.
  unfold bind, modify, ret.
  destruct (tm_fn tm), (tm_c tm); simpl; eexists; (split; [reflexivity|]);
    unfold the_timer, go; simpl;
    rewrite ?heap_disableTicker, ?dispatched_disableTicker, ?now_disableTicker;
    simpl; rewrite lookup_insert_eq, ?app_nil_r; auto.
Qed.

(** [timer.tick] on a timer that is not Active, or not due, does nothing. *)
Lemma timer_tick_idle (m : mockClock) (id : nat) (tm : timer) (now_ : Time) :
  the_timer m id = Some tm -> tm_state tm <> tsActive \/ now_ < tm_next tm ->
  timer_tick (Some id) now_ m = Ok false m.
Proof.
  intros Htm Hidle. unfold timer_tick. rewrite Htm.
  destruct Hidle as [Hst|Hlt].
  - now rewrite bool_decide_eq_false_2.
  - unfold Time_After. destruct (Z.ltb_spec now_ (tm_next tm)); [|lia].
    now rewrite orb_true_r.
Qed.

(** X18: What holds of [timer.reset] for every [d]: the result says whether the
    timer was Active before the call, and afterwards the timer is Active
    with [next] at the current time plus [d]. *)
Lemma timer_reset_rearms (m : mockClock) (t : nat) (tm : timer) (d : Duration) :
  the_timer m t = Some tm ->
  exists m',
    timer_reset t d m = Ok (bool_decide (tm_state tm = tsActive)) m' /\
    the_timer m' t = Some (mkTimer (tm_c tm) (tm_fn tm) (Time_Add (now m) d) tsActive).
Proof.
  intros Htm. unfold timer_reset. rewrite Htm.
  unfold bind at 1. unfold resetTimer. rewrite Htm.
  set (tm1 := mkTimer (tm_c tm) (tm_fn tm) (Time_Add (now m) d) (tm_state tm)).
  set (m1 := store t (IsTimer tm1) m).
  assert (Htm1 : the_timer m1 t = Some tm1).
  { unfold m1. now rewrite the_timer_store, decide_True. }
  assert (Hpost : forall m2 tm2,
             the_timer m2 t = Some tm2 ->
             tm_c tm2 = tm_c tm -> tm_fn tm2 = tm_fn tm ->
             tm_next tm2 = Time_Add (now m) d ->
             exists m',
               match the_timer m2 t with
               | None => Panic nilPointerDereference m2
               | Some tm =>
                   if negb (bool_decide (tm_state tm = tsActive))
                   then timer_enterState t tsActive m2
                   else Ok tt m2
               end = Ok tt m' /\
               the_timer m' t = Some (mkTimer (tm_c tm) (tm_fn tm) (Time_Add (now m) d) tsActive)).
  { intros m2 tm2 Htm2 Hc Hfn Hnext. rewrite Htm2.
    destruct (decide (tm_state tm2 = tsActive)) as [Hact|Hnact].
    - rewrite bool_decide_eq_true_2 by assumption. simpl.
      exists m2. split; [reflexivity|]. rewrite Htm2. f_equal.
      destruct tm2; simpl in *; congruence.
    - rewrite bool_decide_eq_false_2 by assumption. simpl.
      destruct (timer_enterState_Active m2 t tm2 Htm2 Hnact) as (m' & Hen & Htm' & _).
      exists m'. split; [assumption|]. rewrite Htm'. congruence. }
  unfold bind.
  destruct (Z.eqb_spec d 0) as [Hd|Hd].
  - destruct (decide (tm_state tm = tsActive)) as [Hact|Hnact].
    + destruct (timer_tick_due m1 t tm1 (now m1) Htm1 Hact) as (m2 & Htick & Htm2 & _).
      { unfold m1, tm1, Time_Add. simpl. lia. }
      rewrite Htick. simpl.
      destruct (Hpost m2 _ Htm2 eq_refl eq_refl eq_refl) as (m' & Hm' & Hres).
      rewrite Hm'. exists m'. split; [reflexivity|assumption].
    + rewrite (timer_tick_idle m1 t tm1 (now m1) Htm1) by (left; assumption). simpl.
      destruct (Hpost m1 _ Htm1 eq_refl eq_refl eq_refl) as (m' & Hm' & Hres).
      rewrite Hm'. exists m'. split; [reflexivity|assumption].
  - simpl.
    destruct (Hpost m1 _ Htm1 eq_refl eq_refl eq_refl) as (m' & Hm' & Hres).
    rewrite Hm'. exists m'. split; [reflexivity|assumption].
Qed.

(** [timer.reset] with [d] other than zero dispatches nothing. *)
Lemma timer_reset_nonzero_is_silent (m m' : mockClock) (t : nat) (d : Duration) (r : bool) :
  d <> 0 -> timer_reset t d m = Ok r m' -> dispatched m' = dispatched m.
Proof.
  intros Hd. unfold timer_reset.
  destruct (the_timer m t) as [tm|] eqn:Htm; [|discriminate].
  unfold bind at 1. unfold resetTimer. rewrite Htm.
  destruct (Z.eqb_spec d 0); [contradiction|].
  unfold bind, ret. simpl.
  rewrite the_timer_store, decide_True by reflexivity. simpl.
  destruct (decide (tm_state tm = tsActive)) as [Hact|Hnact].
  - rewrite bool_decide_eq_true_2 by assumption. simpl. now intros [= _ <-].
  - rewrite bool_decide_eq_false_2 by assumption. simpl.
    unfold timer_enterState.
    rewrite the_timer_store, decide_True by reflexivity. simpl.
    rewrite decide_False by assumption.
    intros [= _ <-]. now rewrite dispatched_enableTicker.
Qed.
End TimerReset.

(** ** The deadline context *)

Section ContextResolution.
Context `{LargeSort}.

(** A context is in order when its done channel is open as long as it has
    no error, and its timer, if it has one, is a timer of its clock. *)
Definition ctx_ok (w : world) : Prop :=
  (err (ctx w) = None -> done (ctx w) = false) /\
  (forall t, ctx_timer (ctx w) = Some t ->
             exists id tm, Timer_timer t = Some id /\ the_timer (clock w) id = Some tm).

(** The error an event hands to [cancel], if it calls [cancel]. *)
Definition event_error (ev : ctxEvent) : option error :=
  match ev with
  | callCancelFunc noopCancel => None
  | callCancelFunc cancelCanceled => Some Canceled
  | timerCallback => Some DeadlineExceeded
  | parentIsDone e => Some e
  end.

(** The error of the first event that calls [cancel]. *)
Fixpoint first_error (evs : list ctxEvent) : option error :=
  match evs with
  | [] => None
  | ev :: evs => match event_error ev with
                 | Some e => Some e
                 | None => first_error evs
                 end
  end.

Lemma ctxStep_cancel (ev : ctxEvent) (w : world) :
  ctxStep ev w = match event_error ev with
                 | Some e => cancel (Some e) w
                 | None => Ok tt w
                 end.
Proof. destruct ev as [[]| |e]; reflexivity. Qed.

(** After resolution [cancel] is a no-op, whatever error it is given. *)
Lemma cancel_resolved (e : option error) (e0 : error) (w : world) :
  err (ctx w) = Some e0 -> cancel e w = Ok tt w.
Proof. intros He. unfold cancel. now rewrite He. Qed.

(** The first [cancel] with an error: the error is set, the done channel is
    closed, the timer is stopped on the clock and released. *)
Lemma cancel_unresolved (x : error) (w : world) :
  ctx_ok w -> err (ctx w) = None ->
  exists w',
    cancel (Some x) w = Ok tt w' /\
    ctx w' = mkContext (deadline (ctx w)) true (Some x) None /\
    match ctx_timer (ctx w) with
    | Some t =>
        exists (stopped : bool) id tm,
          Timer_timer t = Some id /\
          Timer_Stop t (clock w) = Mock (Ok stopped (clock w')) /\
          the_timer (clock w') id = Some tm /\ tm_state tm <> tsActive
    | None => clock w' = clock w
    end.
Proof.
  intros [Hdone Htimer] Herr. unfold cancel. rewrite Herr.
  unfold bind, modify, close_done. simpl. rewrite (Hdone Herr). simpl.
  destruct (ctx_timer (ctx w)) as [t|] eqn:Ht.
  - destruct (Htimer t eq_refl) as (id & tm & Hid & Htm).
    unfold stop_timer, Timer_Stop. simpl. rewrite Hid.
    destruct (decide (tm_state tm = tsActive)) as [Hact|Hnact].
    + destruct (timer_stop_active (clock w) id tm Htm Hact) as (m1 & Hstop & Htm1 & _).
      rewrite Hstop. simpl. eexists. split; [reflexivity|]. split; [reflexivity|].
      exists true, id, (mkTimer (tm_c tm) (tm_fn tm) (tm_next tm) tsStopped).
      simpl. split; [reflexivity|]. split; [reflexivity|]. split; [assumption|discriminate].
    + rewrite (timer_stop_inactive (clock w) id tm Htm Hnact). simpl.
      eexists. split; [reflexivity|]. split; [reflexivity|].
      exists false, id, tm. simpl. auto.
  - eexists. split; [reflexivity|]. split; reflexivity.
Qed.

Lemma first_error_app_Some (evs1 evs2 : list ctxEvent) (e : error) :
  first_error evs1 = Some e -> first_error (evs1 ++ evs2) = Some e.
Proof.
  induction evs1 as [|ev evs1 IH]; simpl; [discriminate|].
  destruct (event_error ev); auto.
Qed.

(** Once there is an error, no run of events changes anything. *)
Lemma ctxRun_resolved (evs : list ctxEvent) (e0 : error) (w : world) :
  err (ctx w) = Some e0 -> ctxRun evs w = Ok tt w.
Proof.
  intros He. induction evs as [|ev evs IH]; simpl; [reflexivity|].
  unfold bind. rewrite ctxStep_cancel.
  destruct (event_error ev); [rewrite (cancel_resolved _ e0 w He)|]; exact IH.
Qed.

(** C7: from a context without an error, every run of cancel calls, timer
    callbacks and parent cancellations returns without a panic, so the done
    channel is never closed twice.  The error ends as the error of the first
    event that cancelled and is nil if none did; the events before that one
    change nothing; that event sets the error, closes the done channel,
    stops the timer on the clock and releases it; the events after it
    change nothing. *)
Theorem mockContext_resolves_once (w : world) (evs : list ctxEvent) :
  ctx_ok w -> err (ctx w) = None ->
  exists w',
    ctxRun evs w = Ok tt w' /\
    err (ctx w') = first_error evs /\
    match first_error evs with
    | None => w' = w
    | Some e =>
        ctx w' = mkContext (deadline (ctx w)) true (Some e) None /\
        (forall t, ctx_timer (ctx w) = Some t ->
           exists (stopped : bool) id tm,
             Timer_timer t = Some id /\
             Timer_Stop t (clock w) = Mock (Ok stopped (clock w')) /\
             the_timer (clock w') id = Some tm /\ tm_state tm <> tsActive) /\
        (ctx_timer (ctx w) = None -> clock w' = clock w) /\
        (forall more, ctxRun more w' = Ok tt w')
    end.
Proof.
  intros Hok Herr. induction evs as [|ev evs IH]; simpl.
  - exists w. auto.
  - unfold bind. rewrite ctxStep_cancel.
    destruct (event_error ev) as [e|].
    + destruct (cancel_unresolved e w Hok Herr) as (w1 & Hc & Hctx & Hclock).
      rewrite Hc.
      assert (He1 : err (ctx w1) = Some e) by now rewrite Hctx.
      rewrite (ctxRun_resolved evs e w1 He1).
      exists w1. split; [reflexivity|]. split; [assumption|].
      split; [assumption|]. split; [|split].
      * intros t Ht. rewrite Ht in Hclock. exact Hclock.
      * intros Ht. rewrite Ht in Hclock. exact Hclock.
      * intros more. exact (ctxRun_resolved more e w1 He1).
    + exact IH.
Qed.

(** The prefix of a run fixes the error for the rest of the run. *)
Corollary mockContext_error_is_final (w w1 w2 : world) (evs1 evs2 : list ctxEvent) (e : error) :
  ctxRun evs1 w = Ok tt w1 -> err (ctx w1) = Some e ->
  ctxRun evs2 w1 = Ok tt w2 -> w2 = w1.
Proof.
  intros _ He Hrun. rewrite (ctxRun_resolved evs2 e w1 He) in Hrun. congruence.
Qed.

(** [newMockContext] returns a context in order: without an error it holds
    the timer it registered on the clock; with an error it holds no timer
    and its done channel is closed. *)
Lemma newMockContext_in_order
  (elapsed : Duration) (parentDone : option error) (deadline_ : Time)
  (m m' : mockClock) (c : mockContext) (f : CancelFunc) :
  newMockContext elapsed parentDone deadline_ m = Ok (c, f) m' ->
  ctx_ok (mkWorld m' c) /\
  (err c = None -> exists t, ctx_timer c = Some t) /\
  (err c <> None -> ctx_timer c = None /\ done c = true).
Proof.
  unfold newMockContext, Until, Now, advance, bind, ret.
  set (w0 := mkWorld m (mkContext deadline_ false None None)).
  assert (Hpd : exists c1,
            match parentDone with Some e => cancel (Some e) w0 | None => Ok tt w0 end
            = Ok tt (mkWorld m c1) /\
            ctx_timer c1 = None /\ (err c1 = None -> done c1 = false) /\
            (err c1 <> None -> done c1 = true)).
  { destruct parentDone as [e|].
    - eexists. split; [reflexivity|]. simpl. repeat split; congruence.
    - eexists. split; [reflexivity|]. simpl. repeat split; congruence. }
  destruct Hpd as (c1 & -> & Ht1 & Hopen & Hclosed). simpl.
  assert (Hresolved : forall e1, err c1 = Some e1 ->
            ctx_ok (mkWorld m' c1) /\
            (err c1 = None -> exists t, ctx_timer c1 = Some t) /\
            (err c1 <> None -> ctx_timer c1 = None /\ done c1 = true)).
  { intros e1 He1. unfold ctx_ok. simpl. rewrite He1, Ht1.
    repeat split; try congruence. apply Hclosed. congruence. }
  assert (Hcancel : forall m0, err c1 = None ->
            cancel (Some DeadlineExceeded) (mkWorld m0 c1)
            = Ok tt (mkWorld m0 (mkContext (deadline c1) true (Some DeadlineExceeded) None))).
  { intros m0 He1. unfold cancel, bind, modify, close_done. simpl.
    rewrite He1. simpl. rewrite (Hopen He1), Ht1. reflexivity. }
  assert (Htimer : forall m0 dur, 0 < dur -> err c1 = None ->
            match AfterFunc dur m0 with
            | Ok t m0 => Ok (mkContext (deadline c1) (done c1) (err c1) (Some t), cancelCanceled) m0
            | Panic e m0 => Panic e m0
            | OutOfFuel => OutOfFuel
            end = Ok (c, f) m' ->
            ctx_ok (mkWorld m' c) /\
            (err c = None -> exists t, ctx_timer c = Some t) /\
            (err c <> None -> ctx_timer c = None /\ done c = true)).
  { intros m0 dur Hdur He1. unfold AfterFunc, newTimer.
    destruct (Z.leb_spec dur 0); [lia|].
    intros [= <- _ <-]. unfold ctx_ok. simpl. rewrite He1.
    split; [split|split].
    - intros _. exact (Hopen He1).
    - intros t [= <-]. simpl. eexists _, _. split; [reflexivity|].
      unfold the_timer.
      cbn [heap with_nextTickerId activateTicker resort with_active store with_heap].
      rewrite lookup_insert_eq. reflexivity.
    - eauto.
    - intros Hne. now contradiction Hne. }
  assert (Hcase : (exists e1, err c1 = Some e1) \/ err c1 = None)
    by (destruct (err c1); eauto).
  destruct (negb (IsRunning m)); unfold with_clock; cbn [clock ctx now with_now].
  - (* stopped clock *)
    destruct (Z.leb_spec (Time_Sub deadline_ (now m)) 0).
    + destruct Hcase as [[e1 He1]|He1].
      * rewrite (cancel_resolved _ e1) by exact He1. simpl.
        intros [= <- _ <-]. now apply (Hresolved e1).
      * rewrite Hcancel by assumption. simpl.
        intros [= <- _ <-]. unfold ctx_ok. simpl. repeat split; congruence.
    + destruct Hcase as [[e1 He1]|He1]; rewrite He1.
      * intros [= <- _ <-]. now apply (Hresolved e1).
      * intros Hrun. apply (Htimer m (Time_Sub deadline_ (now m))); [assumption..|].
        rewrite He1. exact Hrun.
  - (* running clock *)
    destruct (Z.leb_spec (Time_Sub deadline_ (Time_Add (now m) elapsed)) 0).
    + destruct Hcase as [[e1 He1]|He1].
      * rewrite (cancel_resolved _ e1) by exact He1. simpl.
        intros [= <- _ <-]. now apply (Hresolved e1).
      * rewrite Hcancel by assumption. simpl.
        intros [= <- _ <-]. unfold ctx_ok. simpl. repeat split; congruence.
    + destruct Hcase as [[e1 He1]|He1]; rewrite He1.
      * intros [= <- _ <-]. now apply (Hresolved e1).
      * intros Hrun.
        apply (Htimer (with_now (Time_Add (now m) elapsed) m)
                      (Time_Sub deadline_ (Time_Add (now m) elapsed))); [assumption..|].
        rewrite He1. exact Hrun.
Qed.
End ContextResolution.

(** ** The advance loop *)

Section AdvanceLoop.
Context `{LargeSort}.

(** *** The registry in order

    The ids of [active] are distinct and below [nextTickerId]; each names a
    tickable of the heap whose state is Active and, for a ticker, whose
    period is positive. *)

Definition positive_period (o : tickable) : Prop :=
  match o with IsTimer _ => True | IsTicker tk => 0 < tk_d tk end.

Definition registry_ok (m : mockClock) : Prop :=
  NoDup (active m) /\
  forall id, id ∈ active m ->
    (id < nextTickerId m)%nat /\
    exists o, heap m !! id = Some o /\ tickable_state o = tsActive /\ positive_period o.

Lemma registry_ok_epochClock : registry_ok epochClock.
Proof. split; [constructor|]. intros id Hin. inversion Hin. Qed.

(** *** How many more ticks an advance to [t] can take *)

Definition weight (t : Time) (o : tickable) : nat :=
  match o with
  | IsTimer _ => 1%nat
  | IsTicker tk =>
      if tk_next tk <=? t then Z.to_nat ((t - tk_next tk) / tk_d tk + 1) else 0%nat
  end.

Definition weight_of (t : Time) (h : gmap nat tickable) (id : nat) : nat :=
  match h !! id with Some o => weight t o | None => 0%nat end.

Definition ticks_left (t : Time) (m : mockClock) : nat :=
  sum_list_with (weight_of t (heap m)) (active m).

(** *** The loop of [ticker.tick] under dropsTicks *)

Lemma dropLoop_spec (d : Duration) (now_ : Time) (fuel : nat) (at_ next : Time) :
  0 < d -> next = at_ + d -> at_ <= now_ ->
  (Z.to_nat ((now_ - at_) / d) <= fuel)%nat ->
  exists k, 0 <= k /\
            dropLoop fuel d now_ at_ next = Some (at_ + k * d, next + k * d) /\
            at_ + k * d <= now_ < next + k * d.
Proof.
  intros Hd. revert at_ next.
  induction fuel as [|fuel IH]; intros at_ next Hnext Hat Hfuel.
  - simpl. unfold Time_After. destruct (Z.ltb_spec now_ next) as [Hlt|Hge].
    + exists 0. rewrite !Z.mul_0_l, !Z.add_0_r. repeat split; lia.
    + exfalso.
      assert (1 <= (now_ - at_) / d) by (apply Z.div_le_lower_bound; lia).
      lia.
  - simpl. unfold Time_After. destruct (Z.ltb_spec now_ next) as [Hlt|Hge].
    + exists 0. rewrite !Z.mul_0_l, !Z.add_0_r. repeat split; lia.
    + assert (Hdiv : (now_ - at_) / d = (now_ - next) / d + 1).
      { replace (now_ - at_) with ((now_ - next) + 1 * d) by lia.
        apply Z.div_add. lia. }
      assert (0 <= (now_ - next) / d) by (apply Z.div_pos; lia).
      destruct (IH next (Time_Add next d)) as (k & Hk & Hloop & Hbounds);
        [reflexivity|lia|lia|].
      exists (k + 1). split; [lia|]. unfold Time_Add in *.
      rewrite Hloop. split; [f_equal; f_equal; lia|lia].
Qed.

(** *** More fuel does not change a result *)

Lemma dropLoop_mono (d : Duration) (now_ : Time) (n n' : nat) (at_ next : Time) r :
  (n <= n')%nat -> dropLoop n d now_ at_ next = Some r -> dropLoop n' d now_ at_ next = Some r.
Proof.
  revert n' at_ next. induction n as [|n IH]; intros n' at_ next Hle.
  - simpl. destruct n'; simpl; destruct (Time_After next now_); congruence.
  - destruct n' as [|n']; [lia|]. simpl.
    destruct (Time_After next now_); [congruence|]. apply IH. lia.
Qed.

Lemma ticker_tick_mono (n n' : nat) (id : option nat) (t : Time) (m : mockClock) r :
  (n <= n')%nat -> ticker_tick n id t m = r -> r <> OutOfFuel -> ticker_tick n' id t m = r.
Proof.
  intros Hle. unfold ticker_tick.
  destruct id as [id|]; [|congruence].
  destruct (the_ticker m id) as [tk|]; [|congruence].
  destruct (negb (bool_decide (tk_state tk = tsActive)) || Time_After (tk_next tk) t);
    [congruence|].
  destruct (dropsTicks m); [|congruence].
  destruct (dropLoop n (tk_d tk) t (tk_next tk) (Time_Add (tk_next tk) (tk_d tk)))
    as [r0|] eqn:Hloop.
  - now rewrite (dropLoop_mono _ _ n n' _ _ r0 Hle Hloop).
  - congruence.
Qed.

Lemma tick_mono (n n' : nat) (t : Time) (m : mockClock) r :
  (n <= n')%nat -> tick n t m = r -> r <> OutOfFuel -> tick n' t m = r.
Proof.
  intros Hle. unfold tick.
  destruct (active m) as [|hd rest]; [congruence|].
  destruct (heap m !! hd) as [o|] eqn:Ho; [|congruence].
  destruct (Time_After (tickable_next o) t); [congruence|].
  unfold bind, tickable_tick. rewrite Ho.
  destruct o as [tm|tk]; [congruence|].
  destruct (ticker_tick n (Some hd) t m) as [b m1|e m1|] eqn:Htick.
  - now rewrite (ticker_tick_mono n n' _ _ _ _ Hle Htick).
  - now rewrite (ticker_tick_mono n n' _ _ _ _ Hle Htick).
  - congruence.
Qed.

Lemma tickLoop_mono (n n' : nat) (t : Time) (m : mockClock) r :
  (n <= n')%nat -> tickLoop n t m = r -> r <> OutOfFuel -> tickLoop n' t m = r.
Proof.
  revert n' m. induction n as [|n IH]; intros n' m Hle; [simpl; congruence|].
  destruct n' as [|n']; [lia|]. simpl. unfold bind.
  destruct (tick n t m) as [b m1|e m1|] eqn:Htick.
  - rewrite (tick_mono n n' t m _ ltac:(lia) Htick) by discriminate.
    destruct b; [|congruence]. apply IH. lia.
  - rewrite (tick_mono n n' t m _ ltac:(lia) Htick) by discriminate. congruence.
  - congruence.
Qed.

Lemma AdvanceTo_mono (n n' : nat) (t : Time) (m : mockClock) r :
  (n <= n')%nat -> AdvanceTo n t m = r -> r <> OutOfFuel -> AdvanceTo n' t m = r.
Proof.
  intros Hle. unfold AdvanceTo. destruct (Time_After (now m) t); [congruence|].
  unfold bind. destruct (tickLoop n t m) as [b m1|e m1|] eqn:Hloop.
  - now rewrite (tickLoop_mono n n' t m _ Hle Hloop).
  - now rewrite (tickLoop_mono n n' t m _ Hle Hloop).
  - congruence.
Qed.

Lemma AdvanceBy_mono (n n' : nat) (d : Duration) (m : mockClock) r :
  (n <= n')%nat -> AdvanceBy n d m = r -> r <> OutOfFuel -> AdvanceBy n' d m = r.
Proof. unfold AdvanceBy. apply AdvanceTo_mono. Qed.

(** *** One turn of the loop *)

Definition expire (tm : timer) : timer :=
  mkTimer (tm_c tm) (tm_fn tm) (tm_next tm) tsExpired.

(** The goroutine of [timer.tick]. *)
Definition timer_deliver (id : nat) (tm : timer) (m : mockClock) : mockClock :=
  if tm_fn tm then go (Call id) (with_now (tm_next tm) m)
  else if tm_c tm then go (Send id (tm_next tm)) (with_now (tm_next tm) m)
  else m.

(** The clock after [mockClock.tick] has fired timer [id]. *)
Definition fire_timer (id : nat) (tm : timer) (m : mockClock) : mockClock :=
  resort (timer_deliver id tm (disableTicker id (store id (IsTimer (expire tm)) m))).

(** The clock after [mockClock.tick] has fired ticker [id], sending [at_]
    and leaving [next] for the next tick. *)
Definition fire_ticker (id : nat) (tk : ticker) (at_ next : Time) (m : mockClock) : mockClock :=
  resort (go (Send id at_)
            (with_now at_ (store id (IsTicker (mkTicker (tk_d tk) next (tk_state tk))) m))).

(** Nothing is due: the list is empty or its head is after [t]. *)
Definition quiet (t : Time) (m : mockClock) : Prop :=
  active m = [] \/
  exists hd rest o, active m = hd :: rest /\ heap m !! hd = Some o /\ t < tickable_next o.

Lemma tick_quiet (fuel : nat) (t : Time) (m : mockClock) :
  quiet t m -> tick fuel t m = Ok false m.
Proof.
  unfold tick. intros [->|(hd & rest & o & -> & -> & Hlt)]; [reflexivity|].
  unfold Time_After. destruct (Z.ltb_spec t (tickable_next o)); [reflexivity|lia].
Qed.

Lemma tick_timer (fuel : nat) (t : Time) (m : mockClock) hd rest (tm : timer) :
  active m = hd :: rest -> heap m !! hd = Some (IsTimer tm) ->
  tm_state tm = tsActive -> tm_next tm <= t ->
  tick fuel t m = Ok true (fire_timer hd tm m).
Proof.
  intros Ha Hh Hst Hdue. unfold tick. rewrite Ha, Hh. simpl.
  unfold Time_After. destruct (Z.ltb_spec t (tm_next tm)); [lia|].
  unfold bind at 1. unfold tickable_tick. rewrite Hh.
  unfold timer_tick, the_timer. rewrite Hh, Hst. simpl.
  unfold Time_After. destruct (Z.ltb_spec t (tm_next tm)); [lia|].
  unfold bind, timer_enterState, the_timer. rewrite Hh, Hst. simpl.
  unfold fire_timer, timer_deliver, expire, modify, ret.
  destruct (tm_fn tm), (tm_c tm); reflexivity.
Qed.

Lemma tick_ticker (fuel : nat) (t : Time) (m : mockClock) hd rest (tk : ticker) :
  active m = hd :: rest -> heap m !! hd = Some (IsTicker tk) ->
  tk_state tk = tsActive -> tk_next tk <= t -> 0 < tk_d tk ->
  (Z.to_nat ((t - tk_next tk) / tk_d tk) <= fuel)%nat ->
  exists k, 0 <= k /\
    tick fuel t m = Ok true (fire_ticker hd tk (tk_next tk + k * tk_d tk)
                                         (tk_next tk + (k + 1) * tk_d tk) m) /\
    (dropsTicks m = false -> k = 0) /\
    (dropsTicks m = true -> tk_next tk + k * tk_d tk <= t < tk_next tk + (k + 1) * tk_d tk).
Proof.
  intros Ha Hh Hst Hdue Hd Hfuel. unfold tick. rewrite Ha, Hh. simpl.
  unfold Time_After. destruct (Z.ltb_spec t (tk_next tk)); [lia|].
  unfold bind at 1. unfold tickable_tick. rewrite Hh.
  unfold ticker_tick, the_ticker. rewrite Hh, Hst. simpl.
  unfold Time_After. destruct (Z.ltb_spec t (tk_next tk)); [lia|].
  destruct (dropsTicks m) eqn:Hdrop.
  - destruct (dropLoop_spec (tk_d tk) t fuel (tk_next tk) (Time_Add (tk_next tk) (tk_d tk)))
      as (k & Hk & Hloop & Hbounds); [assumption|reflexivity|assumption|assumption|].
    rewrite Hloop. exists k. unfold Time_Add in *.
    split; [assumption|]. split; [|split; [discriminate|intros _; lia]].
    replace (tk_next tk + tk_d tk + k * tk_d tk)
      with (tk_next tk + (k + 1) * tk_d tk) by lia.
    unfold fire_ticker. rewrite Hst. reflexivity.
  - exists 0. split; [lia|]. split; [|split; [reflexivity|discriminate]].
    unfold Time_Add.
    replace (tk_next tk + 0 * tk_d tk) with (tk_next tk) by lia.
    replace (tk_next tk + (0 + 1) * tk_d tk) with (tk_next tk + tk_d tk) by lia.
    unfold fire_ticker. rewrite Hst. reflexivity.
Qed.

(** *** What a turn of the loop keeps *)

Lemma Less_less_by (h : gmap nat tickable) : Less h = less_by (nextTick h).
Proof. reflexivity. Qed.

Lemma resort_ascending (m : mockClock) :
  ascending (nextTick (heap (resort m))) (active (resort m)).
Proof. unfold resort. simpl. rewrite Less_less_by. apply sort_Sort_ascending. Qed.

Lemma resort_Permutation (m : mockClock) : Permutation (active (resort m)) (active m).
Proof. unfold resort. simpl. apply sort_Sort_Permutation. Qed.

Lemma heap_timer_deliver id tm m : heap (timer_deliver id tm m) = heap m.
Proof. unfold timer_deliver. destruct (tm_fn tm), (tm_c tm); reflexivity. Qed.

Lemma active_timer_deliver id tm m : active (timer_deliver id tm m) = active m.
Proof. unfold timer_deliver. destruct (tm_fn tm), (tm_c tm); reflexivity. Qed.

Lemma nextTickerId_timer_deliver id tm m :
  nextTickerId (timer_deliver id tm m) = nextTickerId m.
Proof. unfold timer_deliver. destruct (tm_fn tm), (tm_c tm); reflexivity. Qed.

Lemma nextTickerId_disableTicker id m : nextTickerId (disableTicker id m) = nextTickerId m.
Proof. unfold disableTicker. destruct (take (active m) id) as [a [t|]]; reflexivity. Qed.

Lemma dropsTicks_disableTicker id m : dropsTicks (disableTicker id m) = dropsTicks m.
Proof. unfold disableTicker. destruct (take (active m) id) as [a [t|]]; reflexivity. Qed.

Lemma dropsTicks_timer_deliver id tm m : dropsTicks (timer_deliver id tm m) = dropsTicks m.
Proof. unfold timer_deliver. destruct (tm_fn tm), (tm_c tm); reflexivity. Qed.

Lemma heap_fire_timer id tm m :
  heap (fire_timer id tm m) = <[id := IsTimer (expire tm)]> (heap m).
Proof.
  unfold fire_timer, resort. simpl.
  now rewrite heap_timer_deliver, heap_disableTicker.
Qed.

Lemma active_fire_timer id tm m :
  Permutation (active (fire_timer id tm m)) (remove (active m) id).
Proof.
  unfold fire_timer. rewrite resort_Permutation.
  now rewrite active_timer_deliver, active_disableTicker.
Qed.

Lemma heap_fire_ticker id tk at_ next m :
  heap (fire_ticker id tk at_ next m)
  = <[id := IsTicker (mkTicker (tk_d tk) next (tk_state tk))]> (heap m).
Proof. reflexivity. Qed.

Lemma active_fire_ticker id tk at_ next m :
  Permutation (active (fire_ticker id tk at_ next m)) (active m).
Proof. unfold fire_ticker. now rewrite resort_Permutation. Qed.

Lemma remove_head hd rest : remove (hd :: rest) hd = rest.
Proof. simpl. now rewrite Nat.eqb_refl. Qed.

Lemma sum_list_with_same {A} (f g : A -> nat) (l : list A) :
  (forall x, x ∈ l -> f x = g x) -> sum_list_with f l = sum_list_with g l.
Proof.
  induction l as [|x l IH]; intros Hfg; simpl; [reflexivity|].
  rewrite (Hfg x) by left. rewrite IH; [reflexivity|].
  intros y Hy. apply Hfg. now right.
Qed.

Lemma weight_of_insert_ne t h id id' o :
  id <> id' -> weight_of t (<[id := o]> h) id' = weight_of t h id'.
Proof. intros Hne. unfold weight_of. now rewrite lookup_insert_ne. Qed.

Lemma fire_timer_ok (t : Time) (m : mockClock) hd rest (tm : timer) :
  registry_ok m -> active m = hd :: rest -> heap m !! hd = Some (IsTimer tm) ->
  registry_ok (fire_timer hd tm m) /\
  (ticks_left t (fire_timer hd tm m) < ticks_left t m)%nat.
Proof.
  intros [Hnd Hreg] Ha Hh.
  assert (Hperm : Permutation (active (fire_timer hd tm m)) rest).
  { rewrite active_fire_timer, Ha. now rewrite remove_head. }
  rewrite Ha in Hnd. apply NoDup_cons in Hnd as [Hnin Hnd].
  split; [split|].
  - now rewrite Hperm.
  - intros id Hin. rewrite Hperm in Hin.
    assert (Hne : hd <> id) by (intros ->; contradiction).
    destruct (Hreg id) as (Hlt & o & Ho & Hst & Hpos); [rewrite Ha; now right|].
    split.
    + unfold fire_timer, resort. simpl.
      now rewrite nextTickerId_timer_deliver, nextTickerId_disableTicker.
    + exists o. rewrite heap_fire_timer, lookup_insert_ne by assumption. auto.
  - unfold ticks_left. rewrite Hperm, Ha, heap_fire_timer. simpl.
    rewrite (sum_list_with_same _ (weight_of t (heap m)) rest).
    + unfold weight_of at 2. rewrite Hh. simpl. lia.
    + intros id Hin. apply weight_of_insert_ne. intros ->. contradiction.
Qed.

Lemma fire_ticker_ok (t : Time) (m : mockClock) hd rest (tk : ticker) (k : Z) :
  registry_ok m -> active m = hd :: rest -> heap m !! hd = Some (IsTicker tk) ->
  tk_next tk <= t -> 0 <= k ->
  let m' := fire_ticker hd tk (tk_next tk + k * tk_d tk) (tk_next tk + (k + 1) * tk_d tk) m in
  registry_ok m' /\ (ticks_left t m' < ticks_left t m)%nat.
Proof.
  intros [Hnd Hreg] Ha Hh Hdue Hk m'.
  assert (Hperm : Permutation (active m') (hd :: rest)).
  { unfold m'. now rewrite active_fire_ticker, Ha. }
  destruct (Hreg hd) as (Hlthd & o & Ho & Hst & Hpos); [rewrite Ha; now left|].
  rewrite Hh in Ho. injection Ho as <-. simpl in Hst, Hpos.
  split; [split|].
  - now rewrite Hperm, <- Ha.
  - intros id Hin. rewrite Hperm, <- Ha in Hin.
    destruct (Hreg id Hin) as (Hlt & o & Ho & Hsto & Hposo).
    split; [exact Hlt|].
    unfold m'. rewrite heap_fire_ticker.
    destruct (decide (hd = id)) as [<-|Hne].
    + rewrite lookup_insert_eq. eexists. split; [reflexivity|]. simpl. auto.
    + rewrite lookup_insert_ne by assumption. eauto.
  - rewrite Ha in Hnd. apply NoDup_cons in Hnd as [Hnin _].
    unfold ticks_left. rewrite Hperm, Ha. unfold m'. rewrite heap_fire_ticker.
    set (o' := IsTicker (mkTicker (tk_d tk) (tk_next tk + (k + 1) * tk_d tk) (tk_state tk))).
    simpl.
    rewrite (sum_list_with_same _ (weight_of t (heap m)) rest).
    2:{ intros id Hin. apply weight_of_insert_ne. intros ->. contradiction. }
    assert (weight_of t (<[hd := o']> (heap m)) hd < weight_of t (heap m) hd)%nat; [|lia].
    unfold weight_of, o'. rewrite lookup_insert_eq, Hh. simpl.
    destruct (Z.leb_spec (tk_next tk) t); [|lia].
    assert (0 <= (t - tk_next tk) / tk_d tk) by (apply Z.div_pos; lia).
    destruct (Z.leb_spec (tk_next tk + (k + 1) * tk_d tk) t); [|lia].
    replace (t - tk_next tk) with ((t - (tk_next tk + (k + 1) * tk_d tk)) + (k + 1) * tk_d tk)
      in * by lia.
    rewrite Z.div_add in * by lia.
    assert (0 <= (t - (tk_next tk + (k + 1) * tk_d tk)) / tk_d tk) by (apply Z.div_pos; lia).
    lia.
Qed.

(** *** The loop

    [fires t m m'] says that one call of [mockClock.tick] at [t] takes the
    clock from [m] to [m'] and returns true: the head of [active] is due; it
    is a timer, which expires, or a ticker, which sends and moves on by
    [k + 1] periods, [k] being 0 unless the clock drops ticks. *)

Inductive fires (t : Time) (m : mockClock) : mockClock -> Prop :=
| fires_timer hd rest tm :
    active m = hd :: rest -> heap m !! hd = Some (IsTimer tm) ->
    tm_state tm = tsActive -> tm_next tm <= t ->
    fires t m (fire_timer hd tm m)
| fires_ticker hd rest tk k :
    active m = hd :: rest -> heap m !! hd = Some (IsTicker tk) ->
    tk_state tk = tsActive -> tk_next tk <= t -> 0 < tk_d tk -> 0 <= k ->
    (dropsTicks m = false -> k = 0) ->
    (dropsTicks m = true ->
     tk_next tk + k * tk_d tk <= t < tk_next tk + (k + 1) * tk_d tk) ->
    fires t m (fire_ticker hd tk (tk_next tk + k * tk_d tk)
                           (tk_next tk + (k + 1) * tk_d tk) m).

Lemma fires_ok (t : Time) (m m' : mockClock) :
  registry_ok m -> fires t m m' ->
  registry_ok m' /\ (ticks_left t m' < ticks_left t m)%nat.
Proof.
  intros Hok [hd rest tm Ha Hh Hst Hdue|hd rest tk k Ha Hh Hst Hdue Hd Hk _ _].
  - now apply (fire_timer_ok t m hd rest tm).
  - now apply (fire_ticker_ok t m hd rest tk k).
Qed.

(** With the registry in order and fuel for the ticks that are left, a call
    of [mockClock.tick] finds nothing due and returns false, or fires and
    returns true. *)
Lemma tick_step (fuel : nat) (t : Time) (m : mockClock) :
  registry_ok m -> (ticks_left t m <= fuel)%nat ->
  (quiet t m /\ tick fuel t m = Ok false m) \/
  (exists m', fires t m m' /\ tick fuel t m = Ok true m').
Proof.
  intros Hok Hfuel. destruct (active m) as [|hd rest] eqn:Ha.
  - left. assert (quiet t m) by (left; assumption). auto using tick_quiet.
  - destruct Hok as [Hnd Hreg].
    destruct (Hreg hd) as (_ & o & Ho & Hst & Hpos); [rewrite Ha; left|].
    destruct (Z.lt_ge_cases t (tickable_next o)) as [Hlt|Hdue].
    + left. assert (quiet t m) by (right; eauto 6). auto using tick_quiet.
    + right. destruct o as [tm|tk]; simpl in *.
      * exists (fire_timer hd tm m). split.
        -- now apply (fires_timer t m hd rest tm).
        -- now apply (tick_timer fuel t m hd rest tm).
      * assert (Hw : (weight_of t (heap m) hd <= ticks_left t m)%nat).
        { apply sum_list_with_in. rewrite Ha. left. }
        unfold weight_of in Hw. rewrite Ho in Hw. simpl in Hw.
        destruct (Z.leb_spec (tk_next tk) t); [|lia].
        assert (0 <= (t - tk_next tk) / tk_d tk) by (apply Z.div_pos; lia).
        destruct (tick_ticker fuel t m hd rest tk) as (k & Hk & Htick & Hkeep & Hdrop);
          [assumption..|lia|].
        eexists. split; [|exact Htick].
        now apply (fires_ticker t m hd rest tk k).
Qed.

(** The loop returns, keeps the registry in order, keeps whatever every
    firing keeps, and leaves nothing due. *)
Lemma tickLoop_invariant (I : mockClock -> Prop) (t : Time) :
  (forall m m', registry_ok m -> I m -> fires t m m' -> I m') ->
  forall (n : nat) (m : mockClock),
    registry_ok m -> I m -> (ticks_left t m < n)%nat ->
    exists m', tickLoop n t m = Ok tt m' /\ registry_ok m' /\ I m' /\ quiet t m'.
Proof.
  intros Hkeep. induction n as [|n IH]; intros m Hok HI Hn; [lia|].
  simpl. unfold bind.
  destruct (tick_step n t m Hok) as [[Hq ->]|(m1 & Hf & ->)]; [lia| |].
  - exists m. auto.
  - destruct (fires_ok t m m1 Hok Hf) as [Hok1 Hless].
    apply IH; [assumption|eauto|lia].
Qed.


(** [AdvanceTo] a time that is not before the current one: it returns with
    any fuel above the number of ticks left, and the current time is
    [t]. *)
Lemma AdvanceTo_invariant (I : mockClock -> Prop) (t : Time) (m : mockClock) :
  (forall m m', registry_ok m -> I m -> fires t m m' -> I m') ->
  registry_ok m -> I m -> now m <= t ->
  exists m',
    (forall fuel, (ticks_left t m < fuel)%nat -> AdvanceTo fuel t m = Ok tt (with_now t m')) /\
    registry_ok m' /\ I m' /\ quiet t m'.
Proof.
  intros Hkeep Hok HI Hnow.
  destruct (tickLoop_invariant I t Hkeep (S (ticks_left t m)) m Hok HI)
    as (m' & Hloop & Hok' & HI' & Hq); [lia|].
  exists m'. split; [|auto].
  intros fuel Hfuel. unfold AdvanceTo, Time_After.
  destruct (Z.ltb_spec t (now m)); [lia|].
  unfold bind. rewrite (tickLoop_mono (S (ticks_left t m)) fuel t m _ ltac:(lia) Hloop)
    by discriminate.
  reflexivity.
Qed.
End AdvanceLoop.

(** ** Successive calls of AdvanceBy *)


Definition total (ds : list Duration) : Duration := foldr Z.add 0 ds.

Section Successive.
Context `{LargeSort}.
Local Open Scope go_scope.




End Successive.

(** ** A ticker over a whole number of periods *)

(** The times sent on the channel of tickable [id], in the order of
    dispatch. *)
Definition sends_to (id : nat) (log : list dispatch) : list Time :=
  omap (fun d => match d with
                 | Send i at_ => if decide (i = id) then Some at_ else None
                 | Call _ => None
                 end) log.

(** The ticks a ticker registered at [T] with period [p] owes once [j] of
    its periods have gone by, [n] being the periods of the whole advance:
    one per period, or the last one only when ticks are dropped. *)
Definition ticks_sent (drops : bool) (T : Time) (p : Duration) (n j : Z) : list Time :=
  if drops then (if j =? 0 then [] else [T + n * p])
  else (fun k => T + k * p) <$> seqZ 1 j.

Section TickerPeriods.
Context `{LargeSort}.

Lemma sends_to_app id l1 l2 : sends_to id (l1 ++ l2) = sends_to id l1 ++ sends_to id l2.
Proof. apply omap_app. Qed.

Definition timer_log (id : nat) (tm : timer) : list dispatch :=
  if tm_fn tm then [Call id] else if tm_c tm then [Send id (tm_next tm)] else [].

Lemma dispatched_fire_timer id tm m :
  dispatched (fire_timer id tm m) = dispatched m ++ timer_log id tm.
Proof.
  unfold fire_timer, resort, timer_deliver, timer_log. simpl.
  destruct (tm_fn tm), (tm_c tm); simpl;
    rewrite ?dispatched_disableTicker, ?app_nil_r; reflexivity.
Qed.

Lemma sends_to_timer_log id hd tm : hd <> id -> sends_to id (timer_log hd tm) = [].
Proof.
  intros Hne. unfold timer_log, sends_to.
  destruct (tm_fn tm), (tm_c tm); simpl; try reflexivity.
  now rewrite decide_False.
Qed.

Lemma dropsTicks_fire_timer id tm m : dropsTicks (fire_timer id tm m) = dropsTicks m.
Proof.
  unfold fire_timer, resort. simpl.
  now rewrite dropsTicks_timer_deliver, dropsTicks_disableTicker.
Qed.

Lemma fire_timer_ascending id tm m :
  ascending (nextTick (heap (fire_timer id tm m))) (active (fire_timer id tm m)).
Proof. apply resort_ascending. Qed.

Lemma fire_ticker_ascending id tk at_ next m :
  ascending (nextTick (heap (fire_ticker id tk at_ next m)))
            (active (fire_ticker id tk at_ next m)).
Proof. apply resort_ascending. Qed.

(** In a list in ascending order with nothing due at its head, nothing is
    due at all. *)
Lemma quiet_ascending (t : Time) (m : mockClock) (id : nat) :
  quiet t m -> ascending (nextTick (heap m)) (active m) -> id ∈ active m ->
  t < nextTick (heap m) id.
Proof.
  intros [Hnil|(hd & rest & o & Ha & Ho & Hlt)] Hasc Hin.
  - rewrite Hnil in Hin. inversion Hin.
  - rewrite Ha in Hasc, Hin. unfold ascending in Hasc.
    apply StronglySorted_inv in Hasc as [_ Hall].
    assert (Hhd : nextTick (heap m) hd = tickable_next o)
      by (unfold nextTick; now rewrite Ho).
    apply elem_of_cons in Hin as [->|Hin]; [lia|].
    rewrite Forall_forall in Hall. specialize (Hall id Hin). lia.
Qed.

(** What the loop keeps of the ticker [id] of period [p] registered at [T],
    on the way to [T + n * p]: [j] periods have gone by, the ticker is
    Active in the list and due at the end of the next period, the ticks of
    the [j] periods have been sent after the log [log0], and the list is in
    ascending order. *)
Definition ticker_progress (id : nat) (T : Time) (p : Duration) (n : Z)
           (drops : bool) (log0 : list dispatch) (m : mockClock) : Prop :=
  exists (j : Z) (log : list dispatch),
    0 <= j <= n /\ (drops = true -> j = 0 \/ j = n) /\
    heap m !! id = Some (IsTicker (mkTicker p (T + (j + 1) * p) tsActive)) /\
    id ∈ active m /\
    dispatched m = log0 ++ log /\
    sends_to id log = ticks_sent drops T p n j /\
    ascending (nextTick (heap m)) (active m) /\
    dropsTicks m = drops.

Lemma ticks_sent_next (T : Time) (p : Duration) (n j : Z) :
  0 <= j ->
  ticks_sent false T p n (j + 1) = ticks_sent false T p n j ++ [T + (j + 1) * p].
Proof.
  intros Hj. unfold ticks_sent.
  replace (j + 1) with (Z.of_nat (S (Z.to_nat j))) at 1 by lia.
  rewrite seqZ_S, fmap_app. simpl.
  rewrite !Z2Nat.id by lia. do 3 f_equal. lia.
Qed.

Lemma ticker_progress_kept (id : nat) (T : Time) (p : Duration) (n : Z)
      (drops : bool) (log0 : list dispatch) (m m' : mockClock) :
  0 < p -> 1 <= n ->
  registry_ok m -> ticker_progress id T p n drops log0 m ->
  fires (T + n * p) m m' -> ticker_progress id T p n drops log0 m'.
Proof.
  intros Hp Hn [Hnd _] (j & log & Hj & Hjd & Hid & Hin & Hlog & Hsent & _ & Hdrops) Hf.
  destruct Hf as [hd rest tm Ha Hh Hst Hdue|hd rest tk k Ha Hh Hst Hdue Hd Hk Hkeep Hdrop].
  - (* a timer fires: it is not the ticker *)
    assert (Hne : hd <> id) by (intros ->; congruence).
    exists j, (log ++ timer_log hd tm).
    split; [lia|]. split; [assumption|]. split; [|split; [|split; [|split; [|split]]]].
    + now rewrite heap_fire_timer, lookup_insert_ne.
    + rewrite active_fire_timer. now apply elem_of_remove_ne.
    + now rewrite dispatched_fire_timer, Hlog, app_assoc.
    + now rewrite sends_to_app, sends_to_timer_log, app_nil_r.
    + apply fire_timer_ascending.
    + now rewrite dropsTicks_fire_timer.
  - destruct (decide (hd = id)) as [->|Hne].
    + (* the ticker itself fires *)
      rewrite Hid in Hh. injection Hh as <-. simpl in *.
      destruct drops.
      * (* ticks are dropped: it skips to the last period *)
        specialize (Hdrop Hdrops).
        destruct (Hjd eq_refl) as [-> | ->]; [|nia].
        assert (k = n - 1) by nia. subst k.
        exists n, (log ++ [Send id (T + (0 + 1) * p + (n - 1) * p)]).
        split; [lia|]. split; [now right|].
        split; [|split; [|split; [|split; [|split]]]].
        -- rewrite heap_fire_ticker, lookup_insert_eq. simpl. do 3 f_equal. lia.
        -- now rewrite active_fire_ticker.
        -- unfold fire_ticker, resort, go. simpl. now rewrite Hlog, app_assoc.
        -- rewrite sends_to_app, Hsent. unfold ticks_sent, sends_to. simpl.
           rewrite decide_True by reflexivity.
           destruct (Z.eqb_spec n 0); [lia|]. simpl. f_equal. lia.
        -- apply fire_ticker_ascending.
        -- exact Hdrops.
      * (* ticks are kept: one period *)
        specialize (Hkeep Hdrops). subst k.
        exists (j + 1), (log ++ [Send id (T + (j + 1) * p + 0 * p)]).
        split; [nia|]. split; [discriminate|].
        split; [|split; [|split; [|split; [|split]]]].
        -- rewrite heap_fire_ticker, lookup_insert_eq. simpl. do 3 f_equal. lia.
        -- now rewrite active_fire_ticker.
        -- unfold fire_ticker, resort, go. simpl. now rewrite Hlog, app_assoc.
        -- rewrite sends_to_app, Hsent, ticks_sent_next by lia.
           unfold sends_to. simpl. rewrite decide_True by reflexivity.
           do 2 f_equal. lia.
        -- apply fire_ticker_ascending.
        -- exact Hdrops.
    + (* another ticker fires *)
      exists j, (log ++ [Send hd (tk_next tk + k * tk_d tk)]).
      split; [lia|]. split; [assumption|].
      split; [|split; [|split; [|split; [|split]]]].
      * now rewrite heap_fire_ticker, lookup_insert_ne.
      * now rewrite active_fire_ticker.
      * unfold fire_ticker, resort, go. simpl. now rewrite Hlog, app_assoc.
      * rewrite sends_to_app, Hsent. unfold sends_to. simpl.
        rewrite decide_False by assumption. now rewrite app_nil_r.
      * apply fire_ticker_ascending.
      * exact Hdrops.
Qed.

(** [NewTicker(p)] with a positive period registers an Active ticker due one
    period from now, keeps the registry in order and leaves the list in
    ascending order; nothing is dispatched. *)
Lemma NewTicker_registers (m : mockClock) (p : Duration) :
  registry_ok m -> 0 < p ->
  exists m1,
    (forall fuel,
       NewTicker fuel p m = Ok (mkTickerValue true (Some (nextTickerId m)) true) m1) /\
    registry_ok m1 /\
    now m1 = now m /\ dispatched m1 = dispatched m /\ dropsTicks m1 = dropsTicks m /\
    heap m1 !! nextTickerId m = Some (IsTicker (mkTicker p (now m + p) tsActive)) /\
    nextTickerId m ∈ active m1 /\
    ascending (nextTick (heap m1)) (active m1).
Proof.
  intros [Hnd Hreg] Hp.
  set (id := nextTickerId m).
  set (o := IsTicker (mkTicker p (Time_Add (now m) (Z.max p 0)) tsActive)).
  set (m1 := with_nextTickerId (S (nextTickerId (activateTicker id (store id o m))))
                               (activateTicker id (store id o m))).
  assert (Hperm : Permutation (active m1) (active m ++ [id])).
  { unfold m1, activateTicker. simpl. apply sort_Sort_Permutation. }
  assert (Hfresh : id ∉ active m).
  { intros Hin. destruct (Hreg id Hin) as [Hlt _]. unfold id in Hlt. lia. }
  exists m1. split.
  { intros fuel. unfold NewTicker, newTicker.
    destruct (Z.leb_spec p 0); [lia|reflexivity]. }
  split; [split|].
  - rewrite Hperm. apply NoDup_app. split; [assumption|]. split; [|apply NoDup_singleton].
    intros x Hx Hx'. apply list_elem_of_singleton in Hx'. subst x. contradiction.
  - intros x Hx. rewrite Hperm in Hx. apply elem_of_app in Hx as [Hx|Hx].
    + destruct (Hreg x Hx) as (Hlt & ox & Hox & Hst & Hpos).
      split; [unfold m1; simpl; fold id in Hlt |- *; lia|].
      exists ox. split; [|auto].
      unfold m1, activateTicker, store. simpl.
      rewrite lookup_insert_ne; [assumption|]. intros <-. contradiction.
    + apply list_elem_of_singleton in Hx. subst x.
      split; [unfold m1; simpl; lia|].
      exists o. split; [|simpl; auto].
      unfold m1, activateTicker, store. simpl. apply lookup_insert_eq.
  - split; [reflexivity|]. split; [reflexivity|]. split; [reflexivity|].
    split; [|split].
    + unfold m1, activateTicker, store. simpl. rewrite lookup_insert_eq.
      unfold o, Time_Add. do 3 f_equal. lia.
    + rewrite Hperm. apply elem_of_app. right. left.
    + unfold m1. cbn [heap active with_nextTickerId]. unfold activateTicker.
      apply resort_ascending.
Qed.

(** X26: The ticks of an advance that follows the registration at once: a
    ticker of period [p > 0] is registered with [NewTicker] on a
    clock at [T] whose registry is in order, and the clock is advanced by
    [n * p] with [n >= 1] in one [AdvanceBy].  Both calls return, given
    enough fuel.  When the clock does not drop ticks the advance sends
    exactly [n] ticks on the ticker's channel, [T + p], [T + 2p], up to
    [T + n * p] in that order; when it drops ticks the advance sends exactly
    one, and it carries [T + n * p]. *)
Theorem Ticker_ticks_over_n_periods (m : mockClock) (p : Duration) (n : Z) :
  registry_ok m -> 0 < p -> 1 <= n ->
  exists (fuel0 : nat) (m1 m2 : mockClock) (log : list dispatch),
    (forall fuel, (fuel0 <= fuel)%nat ->
       NewTicker fuel p m = Ok (mkTickerValue true (Some (nextTickerId m)) true) m1 /\
       AdvanceBy fuel (n * p) m1 = Ok tt m2) /\
    dispatched m2 = dispatched m1 ++ log /\
    sends_to (nextTickerId m) log =
      (if dropsTicks m then [now m + n * p]
       else (fun k => now m + k * p) <$> seqZ 1 n) /\
    length (sends_to (nextTickerId m) log) =
      (if dropsTicks m then 1%nat else Z.to_nat n).
Proof.
  intros Hok Hp Hn.
  destruct (NewTicker_registers m p Hok Hp)
    as (m1 & Hnew & Hok1 & Hnow1 & Hlog1 & Hdrops1 & Hid1 & Hin1 & Hasc1).
  set (id := nextTickerId m) in *. set (T := now m) in *.
  set (I := ticker_progress id T p n (dropsTicks m) (dispatched m1)).
  assert (HI1 : I m1).
  { exists 0, []. split; [lia|]. split; [auto|].
    split; [rewrite Hid1; do 3 f_equal; lia|].
    split; [exact Hin1|]. split; [now rewrite app_nil_r|].
    split; [|split; [exact Hasc1|exact Hdrops1]].
    unfold ticks_sent. destruct (dropsTicks m); reflexivity. }
  destruct (AdvanceTo_invariant I (T + n * p) m1) as (m2 & Hrun & Hok2 & HI2 & Hq).
  { intros ma mb Hoka HIa Hf. now apply (ticker_progress_kept id T p n _ _ ma mb). }
  { exact Hok1. }
  { exact HI1. }
  { rewrite Hnow1. fold T. nia. }
  destruct HI2 as (j & log & Hj & Hjd & Hid2 & Hin2 & Hlog2 & Hsent & Hasc2 & Hdrops2).
  assert (Hjn : j = n).
  { pose proof (quiet_ascending _ m2 id Hq Hasc2 Hin2) as Hlt.
    unfold nextTick in Hlt. rewrite Hid2 in Hlt. simpl in Hlt. nia. }
  subst j.
  exists (S (ticks_left (T + n * p) m1)), m1, (with_now (T + n * p) m2), log.
  assert (Hticks : sends_to id log =
                   (if dropsTicks m then [T + n * p]
                    else (fun k => T + k * p) <$> seqZ 1 n)).
  { rewrite Hsent. unfold ticks_sent. destruct (dropsTicks m); [|reflexivity].
    destruct (Z.eqb_spec n 0); [lia|reflexivity]. }
  split; [|split; [exact Hlog2|split; [exact Hticks|]]].
  - intros fuel Hfuel. split; [apply Hnew|].
    unfold AdvanceBy, Time_Add. rewrite Hnow1. apply Hrun. lia.
  - rewrite Hticks. destruct (dropsTicks m); [reflexivity|].
    now rewrite length_fmap, length_seqZ.
Qed.
End TickerPeriods.

(** ** The order of the active list *)

(** Entries of [active] with the same next tick stand in the order in which
    their ids were handed out, which is the order of their first
    insertion. *)
Definition ties_in_insertion_order (m : mockClock) : Prop :=
  forall (i j : nat) (x y : nat),
    active m !! i = Some x -> active m !! j = Some y ->
    nextTick (heap m) x = nextTick (heap m) y ->
    (x < y)%nat -> (i < j)%nat.

Section ActiveOrder.
Context `{LargeSort}.

Lemma tick_resorts (fuel : nat) (t : Time) (m m' : mockClock) :
  tick fuel t m = Ok true m' -> exists m1, m' = resort m1.
Proof.
  unfold tick.
  destruct (active m) as [|hd rest]; [discriminate|].
  destruct (heap m !! hd) as [o|]; [|discriminate].
  destruct (Time_After (tickable_next o) t); [discriminate|].
  unfold bind, modify, ret.
  destruct (tickable_tick fuel hd t m) as [b m1|e m1|]; [|discriminate..].
  intros [= <-]. now exists m1.
Qed.

End ActiveOrder.

(** * Further properties of the registry *)

Section RegistryLists.
Context `{LargeSort}.

Lemma remove_filter (a : list nat) (id : nat) :
  NoDup a -> remove a id = List.filter (fun x => negb (Nat.eqb x id)) a.
Proof.
  induction a as [|x a IH]; intros Hnd; simpl; [reflexivity|].
  apply NoDup_cons in Hnd as [Hx Hnd].
  destruct (Nat.eqb_spec x id) as [->|Hne]; simpl.
  - symmetry. clear IH Hnd. induction a as [|y a IH]; simpl; [reflexivity|].
    apply not_elem_of_cons in Hx as [Hy Hx].
    destruct (Nat.eqb_spec y id); [congruence|]. simpl. f_equal. auto.
  - f_equal. auto.
Qed.

(** X1: [tickables.take] on a list without duplicates: an id that is absent
    gives back the list as it is and nil; an id that is present is handed
    back, and the list returned holds the other entries in their order and
    is one shorter. *)
Theorem take_splits (a : list nat) (id : nat) :
  NoDup a ->
  ((id ∉ a) -> take a id = (a, None)) /\
  ((id ∈ a) ->
   take a id = (List.filter (fun x => negb (Nat.eqb x id)) a, Some id) /\
   (id ∉ fst (take a id)) /\
   S (length (fst (take a id))) = length a).
Proof.
  intros Hnd. split.
  - intros Hnin. unfold take. now rewrite (proj2 (get_None a id) Hnin).
  - intros Hin. unfold take.
    assert (Hget : get a id = Some id) by (apply get_Some; auto).
    rewrite Hget. simpl. split; [now rewrite remove_filter|]. split.
    + now apply remove_NoDup.
    + rewrite (Permutation_length (remove_Permutation a id Hin)). reflexivity.
Qed.

(** X2: [disableTicker] and [enableTicker] move an entry from one list to the
    other and lose none: the two lists together hold the same entries
    before and after, and the heap is not touched. *)
Theorem disable_enable_conserve (id : nat) (m : mockClock) :
  Permutation (active (disableTicker id m) ++ inactive (disableTicker id m))
              (active m ++ inactive m) /\
  Permutation (active (enableTicker id m) ++ inactive (enableTicker id m))
              (active m ++ inactive m) /\
  heap (disableTicker id m) = heap m /\ heap (enableTicker id m) = heap m.
Proof.
  split; [|split; [|split; [apply heap_disableTicker|apply heap_enableTicker]]].
  - rewrite active_disableTicker, inactive_disableTicker.
    destruct (decide (id ∈ active m)) as [Hin|Hnin].
    + rewrite (remove_Permutation (active m) id Hin) at 2.
      rewrite app_assoc. simpl. symmetry. apply Permutation_cons_append.
    + now rewrite remove_not_in.
  - unfold enableTicker, take.
    destruct (get (inactive m) id) as [t|] eqn:Hg; [|reflexivity].
    apply get_Some in Hg as [-> Hin].
    unfold activateTicker. rewrite resort_Permutation. simpl.
    rewrite (remove_Permutation (inactive m) id Hin) at 2.
    rewrite <- app_assoc. simpl. reflexivity.
Qed.

(** X3: Disabling and then enabling an entry of the active list puts it back:
    the active list holds the same entries, in ascending order, and the
    inactive list is as it was. *)
Theorem disable_then_enable (id : nat) (m : mockClock) :
  NoDup (active m) -> id ∈ active m -> id ∉ inactive m ->
  let m' := enableTicker id (disableTicker id m) in
  Permutation (active m') (active m) /\
  ascending (nextTick (heap m')) (active m') /\
  inactive m' = inactive m.
Proof.
  intros Hnd Hin Hnin m'.
  assert (Hm' : m' = activateTicker id
                       (with_inactive (inactive m) (disableTicker id m))).
  { unfold m', enableTicker, take.
    rewrite inactive_disableTicker, decide_True by assumption.
    assert (Hget : get (inactive m ++ [id]) id = Some id).
    { apply get_Some. split; [reflexivity|]. apply elem_of_app. right. left. }
    rewrite Hget. f_equal. f_equal.
    clear Hget. induction (inactive m) as [|x l IH]; simpl.
    - now rewrite Nat.eqb_refl.
    - apply not_elem_of_cons in Hnin as [Hne Hnin].
      destruct (Nat.eqb_spec x id); [congruence|]. f_equal. auto. }
  rewrite Hm'. split; [|split].
  - unfold activateTicker. rewrite resort_Permutation. simpl.
    rewrite active_disableTicker.
    rewrite (remove_Permutation (active m) id Hin) at 2.
    rewrite <- Permutation_middle. now rewrite app_nil_r.
  - unfold activateTicker. apply resort_ascending.
  - reflexivity.
Qed.
End RegistryLists.

(** * Running and stopped clocks *)

Section StartStop.
Context `{LargeSort}.
Local Open Scope go_scope.

(** [n] calls of [Stop]. *)
Fixpoint Stop_times (n : nat) : M mockClock unit :=
  match n with
  | O => ret tt
  | S n => Stop ;;; Stop_times n
  end.


Lemma with_nStopped_same (m : mockClock) : with_nStopped (nStopped m) m = m.
Proof. now destruct m. Qed.

Lemma wrap32_in_range (z : Z) : minInt32 <= z <= maxInt32 -> wrap32 z = z.
Proof.
  unfold wrap32, minInt32, maxInt32. intros Hz.
  rewrite Z.mod_small by lia. lia.
Qed.

Lemma wrap32_add (a b : Z) : wrap32 (wrap32 a + b) = wrap32 (a + b).
Proof.
  unfold wrap32. f_equal.
  replace ((a + 2 ^ 31) mod 2 ^ 32 - 2 ^ 31 + b + 2 ^ 31)
    with ((a + 2 ^ 31) mod 2 ^ 32 + b) by lia.
  rewrite Zplus_mod_idemp_l. f_equal. lia.
Qed.

(** The counter after [n] calls of [Stop], whatever [n]: the sum, wrapped
    into the int32 range. *)
Lemma Stop_times_wraps (n : nat) (m : mockClock) :
  minInt32 <= nStopped m <= maxInt32 ->
  Stop_times n m = Ok tt (with_nStopped (wrap32 (nStopped m + Z.of_nat n)) m).
Proof.
  intros Hm.
  assert (Hgen : forall (n : nat) (m' : mockClock) (z : Z),
             Stop_times n (with_nStopped (wrap32 z) m')
             = Ok tt (with_nStopped (wrap32 (z + Z.of_nat n)) m')).
  { clear. induction n as [|n IH]; intros m' z.
    - simpl. unfold ret. now rewrite Z.add_0_r.
    - cbn [Stop_times]. unfold bind, Stop, modify.
      cbn [nStopped with_nStopped]. rewrite wrap32_add.
      specialize (IH m' (z + 1)).
      replace (z + Z.of_nat (S n)) with (z + 1 + Z.of_nat n) by lia.
      rewrite <- IH. destruct m'; reflexivity. }
  specialize (Hgen n m (nStopped m)).
  rewrite (wrap32_in_range (nStopped m) Hm), with_nStopped_same in Hgen.
  exact Hgen.
Qed.


(** Beyond the int32 range the count is lost: a clock stopped once, then
    stopped [2^31] times more, has a negative counter, and the first [Start]
    panics. *)
Lemma Stop_times_overflow (n : nat) (e : Duration) (m : mockClock) :
  nStopped m = 1 -> Z.of_nat n = 2 ^ 31 ->
  exists m1 m2, Stop_times n m = Ok tt m1 /\ nStopped m1 = minInt32 + 1 /\
                Start e m1 = Panic ErrClockIsRunning m2.
Proof.
  intros Hone Hn.
  rewrite Stop_times_wraps by (rewrite Hone; unfold minInt32, maxInt32; lia).
  rewrite Hone, Hn. change (wrap32 (1 + 2 ^ 31)) with (minInt32 + 1).
  eexists _, _. split; [reflexivity|]. split; [reflexivity|].
  unfold Start. cbn [nStopped with_nStopped].
  change (wrap32 (minInt32 + 1 - 1)) with minInt32. reflexivity.
Qed.



(** X5: [Start] on a clock that is running panics with [ErrClockIsRunning], and
    the counter it has already decremented stays below zero: the clock is
    no longer running after the panic, and a later [Start] panics again. *)
Theorem Start_on_running_clock (e e' : Duration) (m : mockClock) :
  IsRunning m = true ->
  exists m',
    Start e m = Panic ErrClockIsRunning m' /\
    nStopped m' = -1 /\ IsRunning m' = false /\
    exists m'', Start e' m' = Panic ErrClockIsRunning m''.
Proof.
  unfold IsRunning. intros Hrun. apply Z.eqb_eq in Hrun.
  unfold Start. rewrite Hrun. change (wrap32 (0 - 1)) with (-1). simpl.
  eexists. split; [reflexivity|]. split; [reflexivity|]. split; [reflexivity|].
  change (wrap32 (-1 - 1)) with (-2). eexists. reflexivity.
Qed.
End StartStop.

(** ** Reading a clock *)

(** A reading of the clock, with the real time elapsed since the last
    one. *)
Inductive reading :=
| readNow (elapsed : Duration)
| readSince (elapsed : Duration) (t : Time)
| readUntil (elapsed : Duration) (t : Time)
| readUpdate (elapsed : Duration).

Definition reading_elapsed (r : reading) : Duration :=
  match r with
  | readNow e | readSince e _ | readUntil e _ | readUpdate e => e
  end.

Section Readings.
Context `{LargeSort}.
Local Open Scope go_scope.

Definition read (r : reading) : M mockClock unit :=
  match r with
  | readNow e => Now e ;;; ret tt
  | readSince e t => Since e t ;;; ret tt
  | readUntil e t => Until e t ;;; ret tt
  | readUpdate e => Update e
  end.

Fixpoint read_all (rs : list reading) : M mockClock unit :=
  match rs with
  | [] => ret tt
  | r :: rs => read r ;;; read_all rs
  end.

Lemma with_now_same (m : mockClock) : with_now (now m) m = m.
Proof. now destruct m. Qed.

Lemma read_running (r : reading) (m : mockClock) :
  IsRunning m = true ->
  read r m = Ok tt (with_now (now m + reading_elapsed r) m).
Proof.
  intros Hrun.
  destruct r; cbn [read reading_elapsed];
    unfold Since, Until, Update; unfold Now, advance, bind, ret;
    rewrite !Hrun; reflexivity.
Qed.

(** X6: On a running clock [Now], [Since], [Until] and [Update] only move the
    current time, by the real time elapsed at each call: after any sequence
    of them the current time is the initial one plus the sum of the elapsed
    times, and the registry and the dispatch log are as they were.  No timer
    or ticker is ticked, however far the time has moved. *)
Theorem running_clock_reads (rs : list reading) (m : mockClock) :
  IsRunning m = true ->
  read_all rs m = Ok tt (with_now (now m + total (reading_elapsed <$> rs)) m).
Proof.
  revert m. induction rs as [|r rs IH]; intros m Hrun.
  - simpl. unfold ret. now rewrite Z.add_0_r, with_now_same.
  - cbn [read_all]. unfold bind. rewrite (read_running r m Hrun).
    rewrite IH by exact Hrun.
    cbn [fmap list_fmap total foldr].
    replace (now m + (reading_elapsed r + total (reading_elapsed <$> rs)))
      with (now m + reading_elapsed r + total (reading_elapsed <$> rs)) by lia.
    reflexivity.
Qed.

(** X7: On a stopped clock [Now], [Since] and [Until] leave the clock as it is,
    whatever real time has elapsed, and [Update] panics with
    [ErrClockNotRunning], the clock unchanged. *)
Theorem stopped_clock_reads (e : Duration) (t : Time) (m : mockClock) :
  IsRunning m = false ->
  Now e m = Ok (now m) m /\
  Since e t m = Ok (Time_Sub (now m) t) m /\
  Until e t m = Ok (Time_Sub t (now m)) m /\
  Update e m = Panic ErrClockNotRunning m.
Proof.
  intros Hrun. unfold Since, Until, Update; unfold Now, advance, bind, ret.
  rewrite Hrun. simpl. auto.
Qed.
End Readings.

(** ** The options of NewMockClock *)

Section Options.
Context `{LargeSort}.
Local Open Scope go_scope.

Definition is_StartRunning (o : ClockOption) : bool :=
  match o with StartRunning _ => true | _ => false end.

Definition starts (options : list ClockOption) : nat :=
  length (List.filter is_StartRunning options).

(** [InLocation(nil)], the one option that cannot be applied. *)
Definition nil_location (o : ClockOption) : bool :=
  match o with InLocation None => true | _ => false end.

Definition located (options : list ClockOption) : Prop :=
  Forall (fun o => nil_location o = false) options.

Lemma applyOption_other (o : ClockOption) (m : mockClock) :
  is_StartRunning o = false -> nil_location o = false ->
  exists m', applyOption o m = Ok tt m' /\ nStopped m' = nStopped m /\
             heap m' = heap m /\ active m' = active m /\ inactive m' = inactive m /\
             dispatched m' = dispatched m.
Proof.
  destruct o as [realNow|t| |[l|]|e|d]; try discriminate; intros _ _;
    eexists; (split; [reflexivity|]); auto.
Qed.

Lemma applyOptions_app (pre post : list ClockOption) (m : mockClock) :
  applyOptions (pre ++ post) m = (applyOptions pre ;;; applyOptions post) m.
Proof.
  revert m. induction pre as [|o pre IH]; intros m; [reflexivity|].
  cbn [app applyOptions]. unfold bind.
  destruct (applyOption o m) as [[] m1|e m1|]; [|reflexivity..].
  rewrite IH. reflexivity.
Qed.

Lemma applyOptions_counts (options : list ClockOption) (m : mockClock) :
  located options -> 0 <= nStopped m <= maxInt32 ->
  (Z.of_nat (starts options) <= nStopped m ->
   exists m', applyOptions options m = Ok tt m' /\
              nStopped m' = nStopped m - Z.of_nat (starts options) /\
              heap m' = heap m /\ active m' = active m /\ inactive m' = inactive m /\
              dispatched m' = dispatched m) /\
  (nStopped m < Z.of_nat (starts options) ->
   exists m', applyOptions options m = Panic ErrClockIsRunning m').
Proof.
  intros Hloc. revert m. induction Hloc as [|o options Ho Hloc IH]; intros m Hpos.
  - unfold starts. simpl. split; [|lia]. intros _. exists m.
    split; [reflexivity|]. split; [lia|]. auto.
  - cbn [applyOptions]. unfold bind.
    destruct (is_StartRunning o) eqn:Hs.
    + destruct o; try discriminate. clear Hs Ho.
      unfold starts. simpl. fold (starts options).
      unfold Start, bind, advance, ret, IsRunning.
      rewrite (wrap32_in_range (nStopped m - 1)) by (unfold minInt32; lia).
      cbn [nStopped with_nStopped].
      destruct (Z.eqb_spec (nStopped m - 1) 0) as [Hz|Hnz].
      * simpl. rewrite Hz. simpl.
        set (m1 := with_now _ _).
        destruct (IH m1) as [Hok Hpanic]; [unfold m1, maxInt32; simpl; lia|].
        split.
        -- intros Hle. destruct Hok as (m' & Hrun & Hn & Hrest);
             [unfold m1; simpl; lia|].
           exists m'. split; [exact Hrun|]. split; [unfold m1 in Hn; simpl in Hn; lia|].
           exact Hrest.
        -- intros Hlt. apply Hpanic. unfold m1. simpl. lia.
      * destruct (Z.ltb_spec (nStopped m - 1) 0) as [Hneg|Hnneg].
        -- split; [lia|]. intros _. eexists. reflexivity.
        -- set (m1 := with_nStopped _ _).
           destruct (IH m1) as [Hok Hpanic]; [unfold m1; simpl; lia|].
           split.
           ++ intros Hle. destruct Hok as (m' & Hrun & Hn & Hrest);
                [unfold m1; simpl; lia|].
              exists m'. split; [exact Hrun|].
              split; [unfold m1 in Hn; simpl in Hn; lia|]. exact Hrest.
           ++ intros Hlt. apply Hpanic. unfold m1. simpl. lia.
    + destruct (applyOption_other o m Hs Ho) as (m1 & -> & Hn & Hh & Ha & Hi & Hd).
      unfold starts. simpl. rewrite Hs. fold (starts options).
      destruct (IH m1) as [Hok Hpanic]; [lia|].
      rewrite <- Hn, <- Hh, <- Ha, <- Hi, <- Hd. split; assumption.
Qed.

(** X8: [NewMockClock].  When no option is [InLocation(nil)]: without
    [StartRunning] among the options the clock is stopped, with one it is
    running, and with two or more the second [Start] panics with
    [ErrClockIsRunning]; a clock that is returned has no tickable and
    nothing dispatched.  An [InLocation(nil)] that is reached, no panic of
    [Start] coming before it, panics in [Time.In] and no clock is
    returned. *)
Theorem NewMockClock_running_state (options : list ClockOption) :
  (located options ->
   (starts options = 0%nat ->
    exists m, NewMockClock options = Ok tt m /\ IsRunning m = false /\
              active m = [] /\ inactive m = [] /\ heap m = ∅ /\ dispatched m = []) /\
   (starts options = 1%nat ->
    exists m, NewMockClock options = Ok tt m /\ IsRunning m = true /\
              active m = [] /\ inactive m = [] /\ heap m = ∅ /\ dispatched m = []) /\
   ((2 <= starts options)%nat ->
    exists m, NewMockClock options = Panic ErrClockIsRunning m)) /\
  (forall pre post : list ClockOption,
     options = pre ++ InLocation None :: post ->
     located pre -> (starts pre <= 1)%nat ->
     exists m, NewMockClock options = Panic missingLocation m).
Proof.
  unfold NewMockClock. split.
  - intros Hloc.
    destruct (applyOptions_counts options epochClock Hloc) as [Hok Hpanic];
      [unfold maxInt32; simpl; lia|].
    simpl in Hok, Hpanic. split; [|split].
    + intros Hs. destruct Hok as (m & Hrun & Hn & Hh & Ha & Hi & Hd); [lia|].
      exists m. split; [exact Hrun|]. unfold IsRunning. rewrite Hn, Hs. auto.
    + intros Hs. destruct Hok as (m & Hrun & Hn & Hh & Ha & Hi & Hd); [lia|].
      exists m. split; [exact Hrun|]. unfold IsRunning. rewrite Hn, Hs. auto.
    + intros Hs. apply Hpanic. lia.
  - intros pre post -> Hloc Hs.
    destruct (applyOptions_counts pre epochClock Hloc) as [Hok _];
      [unfold maxInt32; simpl; lia|].
    destruct Hok as (m & Hrun & _); [simpl; lia|].
    rewrite applyOptions_app. unfold bind. rewrite Hrun.
    exists m. reflexivity.
Qed.
End Options.

(** * What an advance fires *)

(** The dispatches made for tickable [id], sends and calls alike. *)
Definition dispatches_to (id : nat) (log : list dispatch) : list dispatch :=
  List.filter (fun d => match d with Send i _ | Call i => Nat.eqb i id end) log.

Section Firing.
Context `{LargeSort}.

Lemma dispatches_to_app id l1 l2 :
  dispatches_to id (l1 ++ l2) = dispatches_to id l1 ++ dispatches_to id l2.
Proof. apply List.filter_app. Qed.

Lemma dispatches_to_timer_log_ne id hd tm :
  hd <> id -> dispatches_to id (timer_log hd tm) = [].
Proof.
  intros Hne. unfold timer_log, dispatches_to.
  destruct (tm_fn tm), (tm_c tm); simpl; try reflexivity;
    destruct (Nat.eqb_spec hd id); congruence.
Qed.

Lemma dispatches_to_timer_log_eq id tm :
  dispatches_to id (timer_log id tm) = timer_log id tm.
Proof.
  unfold timer_log, dispatches_to.
  destruct (tm_fn tm), (tm_c tm); simpl; rewrite ?Nat.eqb_refl; reflexivity.
Qed.

Lemma inactive_fire_timer hd tm m :
  hd ∈ active m -> inactive (fire_timer hd tm m) = inactive m ++ [hd].
Proof.
  intros Hin. unfold fire_timer, resort, timer_deliver. simpl.
  destruct (tm_fn tm), (tm_c tm); simpl;
    rewrite inactive_disableTicker; simpl; now rewrite decide_True.
Qed.

(** The head of the list that [fires] takes. *)
Lemma fires_head (t : Time) (m m' : mockClock) :
  fires t m m' ->
  exists hd rest o log,
    active m = hd :: rest /\ heap m !! hd = Some o /\ tickable_next o <= t /\
    dispatched m' = dispatched m ++ log /\
    (forall id, id <> hd -> dispatches_to id log = [] /\ heap m' !! id = heap m !! id) /\
    Permutation (active m') (match o with IsTimer _ => rest | IsTicker _ => hd :: rest end) /\
    (forall id, id ∈ inactive m -> id ∈ inactive m').
Proof.
  intros [hd rest tm Ha Hh Hst Hdue|hd rest tk k Ha Hh Hst Hdue Hd Hk _ _].
  - exists hd, rest, (IsTimer tm), (timer_log hd tm).
    split; [exact Ha|]. split; [exact Hh|]. split; [exact Hdue|].
    split; [apply dispatched_fire_timer|]. split; [|split].
    + intros id Hne. split; [now apply dispatches_to_timer_log_ne|].
      rewrite heap_fire_timer. now apply lookup_insert_ne.
    + rewrite active_fire_timer, Ha. now rewrite remove_head.
    + intros id Hin. rewrite inactive_fire_timer by (rewrite Ha; left).
      apply elem_of_app. now left.
  - exists hd, rest, (IsTicker tk), [Send hd (tk_next tk + k * tk_d tk)].
    split; [exact Ha|]. split; [exact Hh|]. split; [exact Hdue|].
    split; [reflexivity|]. split; [|split].
    + intros id Hne. split.
      * unfold dispatches_to. simpl. destruct (Nat.eqb_spec hd id); congruence.
      * rewrite heap_fire_ticker. now apply lookup_insert_ne.
    + now rewrite active_fire_ticker, Ha.
    + auto.
Qed.

Lemma inactive_is_skipped (id : nat) (t : Time) (m : mockClock) :
  registry_ok m -> now m <= t -> id ∉ active m ->
  exists (m' : mockClock) (log : list dispatch),
    (forall fuel, (ticks_left t m < fuel)%nat -> AdvanceTo fuel t m = Ok tt m') /\
    dispatched m' = dispatched m ++ log /\
    dispatches_to id log = [] /\
    heap m' !! id = heap m !! id /\
    (id ∉ active m') /\
    registry_ok m' /\ now m' = t.
Proof.
  intros Hok Hnow Hnin.
  set (I := fun m' : mockClock =>
              (id ∉ active m') /\ heap m' !! id = heap m !! id /\
              exists log, dispatched m' = dispatched m ++ log /\ dispatches_to id log = []).
  destruct (AdvanceTo_invariant I t m) as (m' & Hrun & Hok' & (Hnin' & Hheap & log & Hlog & Hnone) & _).
  - intros ma mb [Hnda _] (Hnina & Hheapa & log & Hlog & Hnone) Hf.
    destruct (fires_head t ma mb Hf)
      as (hd & rest & o & log' & Ha & _ & _ & Hlog' & Hother & Hperm & _).
    assert (Hne : id <> hd) by (intros ->; apply Hnina; rewrite Ha; left).
    destruct (Hother id Hne) as [Hnone' Hheap'].
    split; [|split].
    + rewrite Hperm. intros Hin. apply Hnina. rewrite Ha.
      destruct o; [now right|assumption].
    + congruence.
    + exists (log ++ log'). split.
      * now rewrite Hlog', Hlog, app_assoc.
      * now rewrite dispatches_to_app, Hnone, Hnone'.
  - exact Hok.
  - split; [exact Hnin|]. split; [reflexivity|]. exists []. split; [now rewrite app_nil_r|reflexivity].
  - exact Hnow.
  - exists (with_now t m'), log. split; [exact Hrun|]. auto 10.
Qed.

(** X9: A tickable that is not in the active list is left alone by an advance:
    nothing is dispatched for it, its fields are not touched and it does
    not enter the list.  So a timer or ticker that has been stopped, or a
    timer that has expired, does not fire until it is reset. *)
Theorem AdvanceTo_skips_inactive (id : nat) (t : Time) (m : mockClock) :
  registry_ok m -> now m <= t -> id ∉ active m ->
  exists (m' : mockClock) (log : list dispatch),
    (forall fuel, (ticks_left t m < fuel)%nat -> AdvanceTo fuel t m = Ok tt m') /\
    dispatched m' = dispatched m ++ log /\
    dispatches_to id log = [] /\
    heap m' !! id = heap m !! id /\
    (id ∉ active m') /\
    registry_ok m' /\ now m' = t.
Proof. exact (inactive_is_skipped id t m). Qed.

Lemma timer_fires_once (id : nat) (tm : timer) (t : Time) (m : mockClock) :
  registry_ok m -> ascending (nextTick (heap m)) (active m) ->
  heap m !! id = Some (IsTimer tm) -> id ∈ active m ->
  tm_next tm <= t -> now m <= t ->
  exists (m' : mockClock) (log : list dispatch),
    (forall fuel, (ticks_left t m < fuel)%nat -> AdvanceTo fuel t m = Ok tt m') /\
    dispatched m' = dispatched m ++ log /\
    dispatches_to id log = timer_log id tm /\
    heap m' !! id = Some (IsTimer (expire tm)) /\
    (id ∉ active m') /\ id ∈ inactive m' /\
    registry_ok m' /\ now m' = t.
Proof.
  intros Hok Hasc Hid Hin Hdue Hnow.
  set (I := fun m' : mockClock =>
              ascending (nextTick (heap m')) (active m') /\
              exists log, dispatched m' = dispatched m ++ log /\
                ((heap m' !! id = Some (IsTimer tm) /\ id ∈ active m' /\
                  dispatches_to id log = []) \/
                 (heap m' !! id = Some (IsTimer (expire tm)) /\ (id ∉ active m') /\
                  id ∈ inactive m' /\ dispatches_to id log = timer_log id tm))).
  destruct (AdvanceTo_invariant I t m) as (m' & Hrun & Hok' & (Hasc' & log & Hlog & Hcase) & Hq).
  - intros ma mb [Hnda _] (_ & log & Hlog & Hcase) Hf.
    split.
    { destruct Hf; [apply fire_timer_ascending|apply fire_ticker_ascending]. }
    destruct (fires_head t ma mb Hf)
      as (hd & rest & o & log' & Ha & Ho & _ & Hlog' & Hother & Hperm & Hinact).
    exists (log ++ log'). split; [now rewrite Hlog', Hlog, app_assoc|].
    rewrite dispatches_to_app.
    destruct (decide (id = hd)) as [->|Hne].
    + (* the timer is at the head: it fires *)
      destruct Hcase as [(Hh & Hina & Hnone)|(_ & Hnina & _)];
        [|exfalso; apply Hnina; rewrite Ha; left].
      right. rewrite Hh in Ho. injection Ho as <-.
      inversion Hf as [hd' rest' tm' Ha' Hh' Hst' Hdue' Hmb|
                       hd' rest' tk' k' Ha' Hh' Hst' Hdue' Hd' Hk' Hkeep' Hdrop' Hmb].
      * rewrite Ha in Ha'. injection Ha' as <- <-.
        rewrite Hh in Hh'. injection Hh' as <-.
        rewrite <- Hmb in Hlog'. rewrite dispatched_fire_timer in Hlog'.
        apply app_inv_head in Hlog'. subst log'.
        rewrite Ha, NoDup_cons in Hnda. destruct Hnda as [Hnin _].
        split; [rewrite heap_fire_timer; apply lookup_insert_eq|].
        split; [rewrite active_fire_timer, Ha, remove_head; exact Hnin|].
        split; [rewrite inactive_fire_timer by (rewrite Ha; left);
                apply elem_of_app; right; left|].
        now rewrite Hnone, dispatches_to_timer_log_eq.
      * rewrite Ha in Ha'. injection Ha' as <- <-. congruence.
    + destruct (Hother id Hne) as [Hnone' Hheap'].
      rewrite Hnone', app_nil_r, Hheap'.
      destruct Hcase as [(Hh & Hina & Hnone)|(Hh & Hnina & Hinact' & Hlogid)].
      * left. split; [exact Hh|]. split; [|exact Hnone].
        rewrite Hperm. rewrite Ha in Hina.
        apply elem_of_cons in Hina as [->|Hina]; [congruence|].
        destruct o; [assumption|now right].
      * right. split; [exact Hh|]. split; [|split; [auto|exact Hlogid]].
        rewrite Hperm. intros Hin'. apply Hnina. rewrite Ha.
        destruct o; [now right|assumption].
  - exact Hok.
  - split; [exact Hasc|]. exists []. split; [now rewrite app_nil_r|]. left. auto.
  - exact Hnow.
  - destruct Hcase as [(Hh & Hina & _)|(Hh & Hnina & Hinact & Hlogid)].
    + pose proof (quiet_ascending t m' id Hq Hasc' Hina) as Hlt.
      unfold nextTick in Hlt. rewrite Hh in Hlt. simpl in Hlt. lia.
    + exists (with_now t m'), log. split; [exact Hrun|]. auto 10.
Qed.

(** X10: Once an advance reaches the time of an Active timer of a list in
    ascending order, the timer has fired exactly once: one call of its
    callback or one send of its time if it has a channel, and it is Expired,
    out of the active list and in the inactive one. *)
Theorem AdvanceTo_fires_timer_once (id : nat) (tm : timer) (t : Time) (m : mockClock) :
  registry_ok m -> ascending (nextTick (heap m)) (active m) ->
  heap m !! id = Some (IsTimer tm) -> id ∈ active m ->
  tm_next tm <= t -> now m <= t ->
  exists (m' : mockClock) (log : list dispatch),
    (forall fuel, (ticks_left t m < fuel)%nat -> AdvanceTo fuel t m = Ok tt m') /\
    dispatched m' = dispatched m ++ log /\
    dispatches_to id log = timer_log id tm /\
    heap m' !! id = Some (IsTimer (expire tm)) /\
    (id ∉ active m') /\ id ∈ inactive m' /\
    registry_ok m' /\ now m' = t.
Proof. exact (timer_fires_once id tm t m). Qed.

(** X11: After an advance to [t] of a list in ascending order, no entry of the
    active list is due at or before [t]: every timer due has expired and
    every ticker has moved beyond [t]; the list is again in ascending
    order. *)
Theorem AdvanceTo_leaves_nothing_due (t : Time) (m : mockClock) :
  registry_ok m -> ascending (nextTick (heap m)) (active m) -> now m <= t ->
  exists m' : mockClock,
    (forall fuel, (ticks_left t m < fuel)%nat -> AdvanceTo fuel t m = Ok tt m') /\
    (forall id, id ∈ active m' -> t < nextTick (heap m') id) /\
    ascending (nextTick (heap m')) (active m') /\
    registry_ok m' /\ now m' = t.
Proof.
  intros Hok Hasc Hnow.
  destruct (AdvanceTo_invariant (fun m' => ascending (nextTick (heap m')) (active m')) t m)
    as (m' & Hrun & Hok' & Hasc' & Hq).
  - intros ma mb _ _ Hf.
    destruct Hf; [apply fire_timer_ascending|apply fire_ticker_ascending].
  - exact Hok.
  - exact Hasc.
  - exact Hnow.
  - exists (with_now t m'). split; [exact Hrun|]. split; [|auto].
    intros id Hin. now apply (quiet_ascending t m' id).
Qed.
End Firing.

(** * The order of the sends of one advance *)

(** The times sent, on any channel, in the order of dispatch. *)
Definition sent_times (log : list dispatch) : list Time :=
  omap (fun d => match d with Send _ at_ => Some at_ | Call _ => None end) log.

Section SendOrder.
Context `{LargeSort}.

Lemma sent_times_app l1 l2 : sent_times (l1 ++ l2) = sent_times l1 ++ sent_times l2.
Proof. apply omap_app. Qed.

Lemma sorted_snoc (l : list Z) (v : Z) :
  StronglySorted Z.le l -> Forall (fun x => x <= v) l -> StronglySorted Z.le (l ++ [v]).
Proof.
  intros Hs Hall. apply StronglySorted_app. split; [|split; [exact Hs|repeat constructor]].
  intros x y Hx Hy. apply list_elem_of_singleton in Hy. subst y.
  rewrite Forall_forall in Hall. auto.
Qed.

Lemma nextTick_same (h h' : gmap nat tickable) (i : nat) :
  h' !! i = h !! i -> nextTick h' i = nextTick h i.
Proof. unfold nextTick. now intros ->. Qed.

(** What the loop keeps on a clock that does not drop ticks: every time
    sent so far is at most [t] and at most the next tick of every entry of
    the list, and the times were sent in ascending order. *)
Definition sends_ordered (t : Time) (log0 : list dispatch) (m : mockClock) : Prop :=
  ascending (nextTick (heap m)) (active m) /\
  dropsTicks m = false /\
  exists log,
    dispatched m = log0 ++ log /\
    StronglySorted Z.le (sent_times log) /\
    Forall (fun x => x <= t /\ forall i, i ∈ active m -> x <= nextTick (heap m) i)
           (sent_times log).

Lemma sends_ordered_kept (t : Time) (log0 : list dispatch) (m m' : mockClock) :
  registry_ok m -> sends_ordered t log0 m -> fires t m m' -> sends_ordered t log0 m'.
Proof.
  intros [Hnd _] (Hasc & Hdrops & log & Hlog & Hsorted & Hall) Hf.
  destruct Hf as [hd rest tm Ha Hh Hst Hdue|hd rest tk k Ha Hh Hst Hdue Hd Hk Hkeep _].
  - (* a timer *)
    rewrite Ha in Hnd, Hasc. apply NoDup_cons in Hnd as [Hnin _].
    unfold ascending in Hasc. apply StronglySorted_inv in Hasc as [_ Hhd].
    rewrite Forall_forall in Hhd.
    assert (Hnext : nextTick (heap m) hd = tm_next tm)
      by (unfold nextTick; now rewrite Hh).
    assert (Hrest : forall i, i ∈ active (fire_timer hd tm m) ->
                      i ∈ rest /\
                      nextTick (heap (fire_timer hd tm m)) i = nextTick (heap m) i).
    { intros i Hi. rewrite active_fire_timer, Ha, remove_head in Hi.
      split; [exact Hi|]. apply nextTick_same. rewrite heap_fire_timer.
      apply lookup_insert_ne. intros ->. contradiction. }
    assert (Hold : Forall (fun x => x <= t /\
                     forall i, i ∈ active (fire_timer hd tm m) ->
                               x <= nextTick (heap (fire_timer hd tm m)) i)
                          (sent_times log)).
    { eapply Forall_impl; [exact Hall|]. intros x [Hxt Hxi]. split; [exact Hxt|].
      intros i Hi. destruct (Hrest i Hi) as [Hir ->]. apply Hxi. rewrite Ha. now right. }
    split; [apply fire_timer_ascending|]. split; [now rewrite dropsTicks_fire_timer|].
    exists (log ++ timer_log hd tm).
    split; [now rewrite dispatched_fire_timer, Hlog, app_assoc|].
    clear Hlog. revert Hrest Hold. generalize (fire_timer hd tm m). intros m' Hrest Hold.
    rewrite sent_times_app. unfold timer_log.
    destruct (tm_fn tm); [simpl; rewrite app_nil_r; auto|].
    destruct (tm_c tm); [|simpl; rewrite app_nil_r; auto].
    simpl. split.
    + apply sorted_snoc; [exact Hsorted|].
      eapply Forall_impl; [exact Hall|]. intros x [_ Hxi].
      rewrite <- Hnext. apply Hxi. rewrite Ha. left.
    + apply Forall_app. split; [exact Hold|]. constructor; [|constructor].
      split; [exact Hdue|]. intros i Hi. destruct (Hrest i Hi) as [Hir ->].
      rewrite <- Hnext. auto.
  - (* a ticker: it keeps its ticks, so it moves by one period *)
    specialize (Hkeep Hdrops). subst k.
    replace (tk_next tk + 0 * tk_d tk) with (tk_next tk) by lia.
    replace (tk_next tk + (0 + 1) * tk_d tk) with (tk_next tk + tk_d tk) by lia.
    set (m' := fire_ticker hd tk (tk_next tk) (tk_next tk + tk_d tk) m).
    rewrite Ha in Hasc. unfold ascending in Hasc.
    apply StronglySorted_inv in Hasc as [_ Hhd]. rewrite Forall_forall in Hhd.
    assert (Hnext : nextTick (heap m) hd = tk_next tk)
      by (unfold nextTick; now rewrite Hh).
    assert (Hnew : forall i, i ∈ active m' ->
                     i ∈ active m /\ nextTick (heap m) i <= nextTick (heap m') i).
    { intros i Hi. unfold m' in Hi. rewrite active_fire_ticker in Hi.
      split; [exact Hi|]. unfold m'. rewrite heap_fire_ticker.
      destruct (decide (hd = i)) as [<-|Hne].
      - unfold nextTick at 2. rewrite lookup_insert_eq. simpl. lia.
      - unfold nextTick. rewrite lookup_insert_ne by assumption. lia. }
    split; [apply fire_ticker_ascending|]. split; [exact Hdrops|].
    exists (log ++ [Send hd (tk_next tk)]).
    split; [unfold m', fire_ticker, resort, go; simpl; now rewrite Hlog, app_assoc|].
    clear Hlog. clearbody m'.
    rewrite sent_times_app. simpl. split.
    + apply sorted_snoc; [exact Hsorted|].
      eapply Forall_impl; [exact Hall|]. intros x [_ Hxi].
      rewrite <- Hnext. apply Hxi. rewrite Ha. left.
    + apply Forall_app. split.
      * eapply Forall_impl; [exact Hall|]. intros x [Hxt Hxi]. split; [exact Hxt|].
        intros i Hi. destruct (Hnew i Hi) as [Hia Hle]. specialize (Hxi i Hia). lia.
      * constructor; [|constructor]. split; [exact Hdue|].
        intros i Hi. destruct (Hnew i Hi) as [Hia Hle].
        rewrite Ha in Hia. apply elem_of_cons in Hia as [->|Hia]; [lia|].
        specialize (Hhd i Hia). lia.
Qed.

(** X12: On a clock that keeps its ticks, with the active list in ascending
    order, the times sent during one advance to [t] are sent in ascending
    order, whatever timers and tickers they come from, and none is after
    [t]. *)
Theorem AdvanceTo_sends_in_order (t : Time) (m : mockClock) :
  registry_ok m -> ascending (nextTick (heap m)) (active m) ->
  dropsTicks m = false -> now m <= t ->
  exists (m' : mockClock) (log : list dispatch),
    (forall fuel, (ticks_left t m < fuel)%nat -> AdvanceTo fuel t m = Ok tt m') /\
    dispatched m' = dispatched m ++ log /\
    StronglySorted Z.le (sent_times log) /\
    Forall (fun x => x <= t) (sent_times log).
Proof.
  intros Hok Hasc Hdrops Hnow.
  destruct (AdvanceTo_invariant (sends_ordered t (dispatched m)) t m)
    as (m' & Hrun & _ & (_ & _ & log & Hlog & Hsorted & Hall) & _).
  - intros ma mb Hoka HI Hf. now apply (sends_ordered_kept t _ ma mb).
  - exact Hok.
  - split; [exact Hasc|]. split; [exact Hdrops|].
    exists []. split; [now rewrite app_nil_r|]. split; constructor.
  - exact Hnow.
  - exists (with_now t m'), log. split; [exact Hrun|]. split; [exact Hlog|].
    split; [exact Hsorted|]. eapply Forall_impl; [exact Hall|]. now intros x [Hx _].
Qed.
End SendOrder.

(** * Timers and tickers one at a time *)

Section OneTickable.
Context `{LargeSort}.

Lemma dropLoop_nonpositive (fuel : nat) (d : Duration) (now_ at_ next : Time) :
  d <= 0 -> next <= now_ -> dropLoop fuel d now_ at_ next = None.
Proof.
  intros Hd. revert at_ next. induction fuel as [|fuel IH]; intros at_ next Hle; simpl;
    unfold Time_After; destruct (Z.ltb_spec now_ next); try lia; [reflexivity|].
  apply IH. unfold Time_Add. lia.
Qed.

(** X13: [ticker.tick(now)] on a ticker of positive period that is Active and
    due returns true and sends one time: the ticker's next tick when ticks
    are kept, and the last period boundary at or before [now] when they are
    dropped; the ticker's next tick moves just beyond what it sent, by whole
    periods.  The active list is not touched. *)
Theorem ticker_tick_due (id : nat) (tk : ticker) (now_ : Time) (m : mockClock) :
  the_ticker m id = Some tk -> tk_state tk = tsActive ->
  tk_next tk <= now_ -> 0 < tk_d tk ->
  exists (k : Z) (m' : mockClock),
    0 <= k /\
    (forall fuel, (Z.to_nat ((now_ - tk_next tk) / tk_d tk) <= fuel)%nat ->
                  ticker_tick fuel (Some id) now_ m = Ok true m') /\
    dispatched m' = dispatched m ++ [Send id (tk_next tk + k * tk_d tk)] /\
    the_ticker m' id = Some (mkTicker (tk_d tk) (tk_next tk + (k + 1) * tk_d tk) tsActive) /\
    active m' = active m /\
    (dropsTicks m = false -> k = 0) /\
    (dropsTicks m = true ->
     tk_next tk + k * tk_d tk <= now_ < tk_next tk + (k + 1) * tk_d tk).
Proof.
  intros Htk Hst Hdue Hd.
  assert (Hstep : forall fuel, (Z.to_nat ((now_ - tk_next tk) / tk_d tk) <= fuel)%nat ->
            exists k, 0 <= k /\
              ticker_tick fuel (Some id) now_ m
              = Ok true (go (Send id (tk_next tk + k * tk_d tk))
                           (with_now (tk_next tk + k * tk_d tk)
                              (store id (IsTicker (mkTicker (tk_d tk)
                                                     (tk_next tk + (k + 1) * tk_d tk)
                                                     tsActive)) m))) /\
              (dropsTicks m = false -> k = 0) /\
              (dropsTicks m = true ->
               tk_next tk + k * tk_d tk <= now_ < tk_next tk + (k + 1) * tk_d tk)).
  { intros fuel Hfuel. unfold ticker_tick. rewrite Htk, Hst. simpl.
    unfold Time_After. destruct (Z.ltb_spec now_ (tk_next tk)); [lia|].
    destruct (dropsTicks m) eqn:Hdrop.
    - destruct (dropLoop_spec (tk_d tk) now_ fuel (tk_next tk)
                  (Time_Add (tk_next tk) (tk_d tk)))
        as (k & Hk & Hloop & Hbounds); [assumption|reflexivity|assumption|assumption|].
      rewrite Hloop. exists k. unfold Time_Add in *.
      replace (tk_next tk + tk_d tk + k * tk_d tk)
        with (tk_next tk + (k + 1) * tk_d tk) by lia.
      split; [assumption|]. split; [reflexivity|].
      split; [discriminate|intros _; lia].
    - exists 0. unfold Time_Add.
      replace (tk_next tk + 0 * tk_d tk) with (tk_next tk) by lia.
      replace (tk_next tk + (0 + 1) * tk_d tk) with (tk_next tk + tk_d tk) by lia.
      split; [lia|]. split; [reflexivity|]. split; [reflexivity|discriminate]. }
  destruct (Hstep (Z.to_nat ((now_ - tk_next tk) / tk_d tk))) as (k & Hk & Hrun & Hkeep & Hdrop);
    [lia|].
  eexists k, _. split; [exact Hk|]. split.
  { intros fuel Hfuel.
    now apply (ticker_tick_mono _ fuel _ _ _ _ Hfuel Hrun). }
  split; [reflexivity|]. split.
  { unfold the_ticker. cbn [heap go with_dispatched with_now store with_heap].
    now rewrite lookup_insert_eq. }
  split; [reflexivity|]. split; assumption.
Qed.

(** X14: [ticker.tick] does nothing and returns false when the ticker is not
    Active or is not due yet; on a clock that drops ticks it never returns
    when the ticker is due and its period is not positive. *)
Theorem ticker_tick_otherwise (id : nat) (tk : ticker) (now_ : Time) (m : mockClock) :
  the_ticker m id = Some tk ->
  (tk_state tk <> tsActive \/ now_ < tk_next tk ->
   forall fuel, ticker_tick fuel (Some id) now_ m = Ok false m) /\
  (tk_state tk = tsActive -> tk_next tk <= now_ -> tk_d tk <= 0 -> dropsTicks m = true ->
   forall fuel, ticker_tick fuel (Some id) now_ m = OutOfFuel).
Proof.
  intros Htk. split.
  - intros Hidle fuel. unfold ticker_tick. rewrite Htk.
    destruct Hidle as [Hst|Hlt].
    + now rewrite bool_decide_eq_false_2.
    + unfold Time_After. destruct (Z.ltb_spec now_ (tk_next tk)); [|lia].
      now rewrite orb_true_r.
  - intros Hst Hdue Hd Hdrop fuel. unfold ticker_tick. rewrite Htk, Hst, Hdrop. simpl.
    unfold Time_After. destruct (Z.ltb_spec now_ (tk_next tk)); [lia|].
    rewrite dropLoop_nonpositive; [reflexivity|assumption|unfold Time_Add; lia].
Qed.

(** *** Registering and retiring *)

Lemma register_ok (o : tickable) (m : mockClock) :
  registry_ok m -> tickable_state o = tsActive -> positive_period o ->
  let id := nextTickerId m in
  let m1 := with_nextTickerId (S id) (activateTicker id (store id o m)) in
  registry_ok m1 /\ heap m1 !! id = Some o /\ id ∈ active m1 /\
  ascending (nextTick (heap m1)) (active m1) /\
  Permutation (active m1) (active m ++ [id]).
Proof.
  intros [Hnd Hreg] Hst Hpos id m1.
  assert (Hperm : Permutation (active m1) (active m ++ [id])).
  { unfold m1, activateTicker. simpl. apply sort_Sort_Permutation. }
  assert (Hfresh : id ∉ active m).
  { intros Hin. destruct (Hreg id Hin) as [Hlt _]. unfold id in Hlt. lia. }
  split; [split|split; [|split; [|split]]].
  - rewrite Hperm. apply NoDup_app. split; [assumption|]. split; [|apply NoDup_singleton].
    intros x Hx Hx'. apply list_elem_of_singleton in Hx'. subst x. contradiction.
  - intros x Hx. rewrite Hperm in Hx. apply elem_of_app in Hx as [Hx|Hx].
    + destruct (Hreg x Hx) as (Hlt & ox & Hox & Hstx & Hposx).
      split; [unfold m1; simpl; fold id in Hlt |- *; lia|].
      exists ox. split; [|auto].
      unfold m1, activateTicker, store. simpl.
      rewrite lookup_insert_ne; [assumption|]. intros <-. contradiction.
    + apply list_elem_of_singleton in Hx. subst x.
      split; [unfold m1; simpl; lia|].
      exists o. split; [|auto].
      unfold m1, activateTicker, store. simpl. apply lookup_insert_eq.
  - unfold m1, activateTicker, store. simpl. apply lookup_insert_eq.
  - rewrite Hperm. apply elem_of_app. right. left.
  - unfold m1. cbn [heap active with_nextTickerId]. unfold activateTicker.
    apply resort_ascending.
  - exact Hperm.
Qed.

Lemma retire_ok (id : nat) (o : tickable) (m : mockClock) :
  registry_ok m ->
  let m1 := disableTicker id (store id o m) in
  registry_ok m1 /\ (id ∉ active m1) /\ heap m1 !! id = Some o /\
  (id ∈ active m -> id ∈ inactive m1) /\
  active m1 = remove (active m) id.
Proof.
  intros [Hnd Hreg] m1.
  assert (Ha : active m1 = remove (active m) id).
  { unfold m1. now rewrite active_disableTicker. }
  destruct (remove_NoDup (active m) id Hnd) as [Hnd' Hnin].
  split; [split|split; [|split; [|split]]].
  - now rewrite Ha.
  - intros x Hx. rewrite Ha in Hx.
    assert (Hne : id <> x) by (intros ->; contradiction).
    apply elem_of_remove in Hx. destruct (Hreg x Hx) as (Hlt & ox & Hox & Hrest).
    split; [unfold m1; now rewrite nextTickerId_disableTicker|].
    exists ox. split; [|exact Hrest].
    unfold m1. rewrite heap_disableTicker. unfold store. simpl.
    now rewrite lookup_insert_ne.
  - now rewrite Ha.
  - unfold m1. rewrite heap_disableTicker. unfold store. simpl. apply lookup_insert_eq.
  - intros Hin. unfold m1. rewrite inactive_disableTicker. simpl.
    rewrite decide_True by assumption. apply elem_of_app. right. left.
  - exact Ha.
Qed.

Lemma timer_tick_fires (id : nat) (tm : timer) (now_ : Time) (m : mockClock) :
  the_timer m id = Some tm -> tm_state tm = tsActive -> tm_next tm <= now_ ->
  timer_tick (Some id) now_ m
  = Ok true (timer_deliver id tm (disableTicker id (store id (IsTimer (expire tm)) m))).
Proof.
  intros Htm Hst Hdue. unfold timer_tick. rewrite Htm, Hst. simpl.
  unfold Time_After. destruct (Z.ltb_spec now_ (tm_next tm)); [lia|].
  unfold bind, timer_enterState. rewrite Htm, Hst. simpl.
  unfold timer_deliver, expire, modify, ret.
  destruct (tm_fn tm), (tm_c tm); reflexivity.
Qed.

Lemma registry_ok_timer_deliver id tm m :
  registry_ok m -> registry_ok (timer_deliver id tm m).
Proof.
  unfold timer_deliver. destruct (tm_fn tm), (tm_c tm); intros Hok; exact Hok.
Qed.

Lemma newTimer_outcome (d : Duration) (fn : bool) (m : mockClock) :
  registry_ok m ->
  let id := nextTickerId m in
  exists m' : mockClock,
    newTimer d fn m = Ok (mkTimerValue true (Some id) true) m' /\
    registry_ok m' /\ nextTickerId m' = S id /\ now m' = now m /\
    (0 < d ->
     dispatched m' = dispatched m /\
     heap m' !! id = Some (IsTimer (mkTimer (negb fn) fn (now m + d) tsActive)) /\
     id ∈ active m' /\
     ascending (nextTick (heap m')) (active m')) /\
    (d <= 0 ->
     dispatched m' = dispatched m ++ [if fn then Call id else Send id (now m)] /\
     heap m' !! id = Some (IsTimer (mkTimer (negb fn) fn (now m) tsExpired)) /\
     (id ∉ active m') /\ id ∈ inactive m' /\
     Permutation (active m') (active m)).
Proof.
  intros Hok id.
  set (tm := mkTimer (negb fn) fn (Time_Add (now m) (Z.max d 0)) tsActive).
  destruct (register_ok (IsTimer tm) m Hok eq_refl I)
    as (Hok1 & Hh1 & Hin1 & Hasc1 & Hperm1).
  fold id in Hok1, Hh1, Hin1, Hasc1, Hperm1.
  set (m1 := with_nextTickerId (S id) (activateTicker id (store id (IsTimer tm) m))) in *.
  unfold newTimer. fold id. fold tm. cbn zeta.
  change (with_nextTickerId (S (nextTickerId (activateTicker id (store id (IsTimer tm) m))))
            (activateTicker id (store id (IsTimer tm) m))) with m1.
  destruct (Z.leb_spec d 0) as [Hd|Hd].
  - (* fires at once *)
    assert (Htm1 : the_timer m1 id = Some tm) by (unfold the_timer; now rewrite Hh1).
    unfold bind. cbn [Timer_timer].
    rewrite (timer_tick_fires id tm (now m1) m1 Htm1 eq_refl)
      by (unfold tm, Time_Add, m1; simpl; lia).
    destruct (retire_ok id (IsTimer (expire tm)) m1 Hok1)
      as (Hok2 & Hnin2 & Hh2 & Hinact2 & Ha2).
    eexists. split; [reflexivity|].
    split; [now apply registry_ok_timer_deliver|].
    split; [rewrite nextTickerId_timer_deliver, nextTickerId_disableTicker; reflexivity|].
    assert (Hnext : tm_next tm = now m) by (unfold tm, Time_Add; simpl; lia).
    split.
    { unfold timer_deliver, tm. simpl. destruct fn; simpl; unfold Time_Add; lia. }
    split; [lia|]. intros _.
    split; [|split; [|split; [|split]]].
    + unfold timer_deliver, tm, go. simpl.
      destruct fn; simpl; rewrite dispatched_disableTicker; simpl; try reflexivity.
      unfold Time_Add. do 3 f_equal. lia.
    + rewrite heap_timer_deliver, Hh2. unfold expire, tm, Time_Add. simpl.
      do 3 f_equal. lia.
    + now rewrite active_timer_deliver.
    + unfold timer_deliver. destruct (tm_fn tm), (tm_c tm); simpl; auto.
    + rewrite active_timer_deliver, Ha2.
      apply (Permutation_cons_inv (a := id)).
      rewrite <- (remove_Permutation (active m1) id Hin1), Hperm1.
      symmetry. apply Permutation_cons_append.
  - (* registered for later *)
    eexists. split; [reflexivity|]. split; [exact Hok1|].
    split; [reflexivity|]. split; [reflexivity|]. split; [|lia]. intros _.
    split; [reflexivity|]. split; [|split; [exact Hin1|exact Hasc1]].
    rewrite Hh1. unfold tm, Time_Add. do 3 f_equal. lia.
Qed.

(** X15: [newTimer(d, fn)] keeps the registry in order and hands out the next
    id.  With [d > 0] the timer is Active in the list, due at the current
    time plus [d], the list is in ascending order and nothing is dispatched.
    With [d <= 0] the timer fires at once, at the current time: its callback
    is called or its time is sent, it is Expired and it is not in the active
    list, which holds what it held before. *)
Theorem newTimer_registers_or_fires (d : Duration) (fn : bool) (m : mockClock) :
  registry_ok m ->
  let id := nextTickerId m in
  exists m' : mockClock,
    newTimer d fn m = Ok (mkTimerValue true (Some id) true) m' /\
    registry_ok m' /\ nextTickerId m' = S id /\ now m' = now m /\
    (0 < d ->
     dispatched m' = dispatched m /\
     heap m' !! id = Some (IsTimer (mkTimer (negb fn) fn (now m + d) tsActive)) /\
     id ∈ active m' /\
     ascending (nextTick (heap m')) (active m')) /\
    (d <= 0 ->
     dispatched m' = dispatched m ++ [if fn then Call id else Send id (now m)] /\
     heap m' !! id = Some (IsTimer (mkTimer (negb fn) fn (now m) tsExpired)) /\
     (id ∉ active m') /\ id ∈ inactive m' /\
     Permutation (active m') (active m)).
Proof. exact (newTimer_outcome d fn m). Qed.

Lemma stop_moves_to_inactive (id : nat) (m : mockClock) :
  registry_ok m -> id ∈ active m ->
  (forall tm, heap m !! id = Some (IsTimer tm) ->
     exists m1, timer_stop id m = Ok true m1 /\
       registry_ok m1 /\ (id ∉ active m1) /\ id ∈ inactive m1 /\
       heap m1 !! id = Some (IsTimer (mkTimer (tm_c tm) (tm_fn tm) (tm_next tm) tsStopped)) /\
       dispatched m1 = dispatched m /\ now m1 = now m) /\
  (forall tk, heap m !! id = Some (IsTicker tk) ->
     exists m1, ticker_stop id m = Ok tt m1 /\
       registry_ok m1 /\ (id ∉ active m1) /\ id ∈ inactive m1 /\
       heap m1 !! id = Some (IsTicker (mkTicker (tk_d tk) (tk_next tk) tsStopped)) /\
       dispatched m1 = dispatched m /\ now m1 = now m).
Proof.
  intros Hok Hin.
  destruct (proj2 Hok id Hin) as (_ & o & Ho & Hst & _).
  split.
  - intros tm Hh. rewrite Hh in Ho. injection Ho as <-. simpl in Hst.
    unfold timer_stop, the_timer. rewrite Hh, Hst. simpl.
    unfold bind, timer_enterState, the_timer. rewrite Hh, Hst. simpl.
    destruct (retire_ok id (IsTimer (mkTimer (tm_c tm) (tm_fn tm) (tm_next tm) tsStopped)) m Hok)
      as (Hok1 & Hnin1 & Hh1 & Hinact1 & _).
    eexists. split; [reflexivity|]. split; [exact Hok1|]. split; [exact Hnin1|].
    split; [auto|]. split; [exact Hh1|].
    now rewrite dispatched_disableTicker, now_disableTicker.
  - intros tk Hh. rewrite Hh in Ho. injection Ho as <-. simpl in Hst.
    unfold ticker_stop, the_ticker. rewrite Hh, Hst. simpl.
    unfold ticker_enterState, the_ticker. rewrite Hh, Hst. simpl.
    destruct (retire_ok id (IsTicker (mkTicker (tk_d tk) (tk_next tk) tsStopped)) m Hok)
      as (Hok1 & Hnin1 & Hh1 & Hinact1 & _).
    eexists. split; [reflexivity|]. split; [exact Hok1|]. split; [exact Hnin1|].
    split; [auto|]. split; [exact Hh1|].
    now rewrite dispatched_disableTicker, now_disableTicker.
Qed.

(** X16: [timer.stop] and [ticker.stop] retire an entry of the active list: it
    becomes Stopped, leaves the active list for the inactive one, the
    registry stays in order, nothing is dispatched and the next tick is
    kept. *)
Theorem stop_retires (id : nat) (m : mockClock) :
  registry_ok m -> id ∈ active m ->
  (forall tm, heap m !! id = Some (IsTimer tm) ->
     exists m1, timer_stop id m = Ok true m1 /\
       registry_ok m1 /\ (id ∉ active m1) /\ id ∈ inactive m1 /\
       heap m1 !! id = Some (IsTimer (mkTimer (tm_c tm) (tm_fn tm) (tm_next tm) tsStopped)) /\
       dispatched m1 = dispatched m /\ now m1 = now m) /\
  (forall tk, heap m !! id = Some (IsTicker tk) ->
     exists m1, ticker_stop id m = Ok tt m1 /\
       registry_ok m1 /\ (id ∉ active m1) /\ id ∈ inactive m1 /\
       heap m1 !! id = Some (IsTicker (mkTicker (tk_d tk) (tk_next tk) tsStopped)) /\
       dispatched m1 = dispatched m /\ now m1 = now m).
Proof. exact (stop_moves_to_inactive id m). Qed.

(** X17: [ticker.reset(d)] panics with [errNonPositiveInterval] for [d <= 0],
    the clock unchanged.  For [d > 0] the ticker gets the period [d], is due
    at the current time plus [d] and is Active; nothing is dispatched; a
    ticker that was Stopped and in the inactive list is back in the active
    list, which is then in ascending order. *)
Theorem ticker_reset_restarts (id : nat) (tk : ticker) (d : Duration) (m : mockClock) :
  the_ticker m id = Some tk ->
  (d <= 0 -> ticker_reset id d m = Panic errNonPositiveInterval m) /\
  (0 < d ->
   exists m',
     ticker_reset id d m = Ok tt m' /\
     the_ticker m' id = Some (mkTicker d (now m + d) tsActive) /\
     dispatched m' = dispatched m /\ now m' = now m /\
     (tk_state tk <> tsActive -> id ∈ inactive m ->
      id ∈ active m' /\ ascending (nextTick (heap m')) (active m'))).
Proof.
  intros Htk. split.
  - intros Hd. unfold ticker_reset. destruct (Z.leb_spec d 0); [reflexivity|lia].
  - intros Hd. unfold ticker_reset. destruct (Z.leb_spec d 0); [lia|].
    unfold resetTicker. rewrite Htk.
    set (tk1 := mkTicker d (Time_Add (now m) (Z.max d 0)) (tk_state tk)).
    set (m1 := store id (IsTicker tk1) m).
    assert (Htk1 : the_ticker m1 id = Some tk1).
    { unfold m1. now rewrite the_ticker_store, decide_True. }
    assert (Hnext : Time_Add (now m) (Z.max d 0) = now m + d) by (unfold Time_Add; lia).
    unfold ticker_enterState. rewrite Htk1.
    destruct (decide (tk_state tk1 = tsActive)) as [Hact|Hnact].
    + exists m1. split; [reflexivity|]. split.
      { rewrite Htk1. unfold tk1. rewrite Hnext. simpl in Hact. now rewrite Hact. }
      split; [reflexivity|]. split; [reflexivity|].
      intros Hne. contradiction.
    + eexists. split; [reflexivity|]. split.
      { rewrite the_ticker_enableTicker, the_ticker_store, decide_True by reflexivity.
        unfold tk1. simpl. now rewrite Hnext. }
      split; [now rewrite dispatched_enableTicker|].
      split; [now rewrite now_enableTicker|].
      intros _ Hin.
      set (m2 := store id (IsTicker (mkTicker (tk_d tk1) (tk_next tk1) tsActive)) m1).
      assert (Hget : get (inactive m2) id = Some id) by (apply get_Some; auto).
      unfold enableTicker, take. rewrite Hget. split.
      * unfold activateTicker. rewrite resort_Permutation. simpl.
        apply elem_of_app. right. left.
      * unfold activateTicker. apply resort_ascending.
Qed.

(** X20: [mockClock.tick] looks at the head of the active list only: when the
    list is not empty and its head is not due, [AdvanceTo] fires nothing
    and just sets the time, whatever stands behind the head.  The list is
    sorted when an entry is inserted and after a tick, not when [Reset]
    changes the next tick of an entry that is already Active. *)
Theorem AdvanceTo_trusts_the_head (fuel : nat) (t : Time) (m : mockClock) :
  quiet t m -> now m <= t ->
  AdvanceTo (S fuel) t m = Ok tt (with_now t m).
Proof.
  intros Hq Hnow. unfold AdvanceTo, Time_After.
  destruct (Z.ltb_spec t (now m)); [lia|].
  unfold bind. simpl. unfold bind. now rewrite (tick_quiet fuel t m Hq).
Qed.
End OneTickable.

(** * The deadline context on the clock *)

Section DeadlineOnClock.
Context `{LargeSort}.

Lemma Time_Sub_sign (t u : Time) :
  (t <= u -> Time_Sub t u <= 0) /\
  (u < t -> t - u <= maxDuration -> Time_Sub t u = t - u).
Proof.
  unfold Time_Sub, minDuration, maxDuration. split; intros; lia.
Qed.

Lemma Until_stopped (e : Duration) (t : Time) (m : mockClock) :
  IsRunning m = false -> Until e t m = Ok (Time_Sub t (now m)) m.
Proof.
  intros Hrun. unfold Until, Now, advance, bind, ret. now rewrite Hrun.
Qed.

Lemma newMockContext_stopped (e : Duration) (dl : Time) (m : mockClock) :
  IsRunning m = false -> registry_ok m ->
  (dl <= now m ->
   newMockContext e None dl m
   = Ok (mkContext dl true (Some DeadlineExceeded) None, noopCancel) m) /\
  (now m < dl -> dl - now m <= maxDuration ->
   exists m' : mockClock,
     newMockContext e None dl m
     = Ok (mkContext dl false None (Some (mkTimerValue true (Some (nextTickerId m)) true)),
           cancelCanceled) m' /\
     heap m' !! nextTickerId m = Some (IsTimer (mkTimer false true dl tsActive)) /\
     nextTickerId m ∈ active m' /\
     ascending (nextTick (heap m')) (active m') /\
     registry_ok m' /\ dispatched m' = dispatched m /\ now m' = now m).
Proof.
  intros Hrun Hok. unfold newMockContext. cbn [clock ctx].
  rewrite (Until_stopped e dl m Hrun).
  destruct (Time_Sub_sign dl (now m)) as [Hpast Hfuture]. split.
  - intros Hle. destruct (Z.leb_spec (Time_Sub dl (now m)) 0); [|lia]. reflexivity.
  - intros Hlt Hrange. rewrite (Hfuture Hlt Hrange).
    destruct (Z.leb_spec (dl - now m) 0); [lia|].
    unfold with_clock. cbn [err ctx clock deadline done].
    destruct (newTimer_outcome (dl - now m) true m Hok)
      as (m' & Hnew & Hok' & _ & Hnow & Hlater & _).
    destruct Hlater as (Hlog & Hh & Hin & Hasc); [lia|].
    unfold AfterFunc. rewrite Hnew. exists m'. split; [reflexivity|].
    split; [rewrite Hh; simpl; do 3 f_equal; lia|]. auto.
Qed.

(** X22: [newMockContext] on a stopped clock.  A deadline that is not after the
    current time gives a context that is already resolved with
    [DeadlineExceeded], its done channel closed, no timer, the clock
    untouched, and a cancel function that does nothing.  A deadline after
    the current time, within the range of a Duration, gives a context
    without an error whose timer is a callback timer on the clock, Active and
    due exactly at the deadline; nothing is dispatched. *)
Theorem newMockContext_on_stopped_clock (e : Duration) (dl : Time) (m : mockClock) :
  IsRunning m = false -> registry_ok m ->
  (dl <= now m ->
   newMockContext e None dl m
   = Ok (mkContext dl true (Some DeadlineExceeded) None, noopCancel) m) /\
  (now m < dl -> dl - now m <= maxDuration ->
   exists m' : mockClock,
     newMockContext e None dl m
     = Ok (mkContext dl false None (Some (mkTimerValue true (Some (nextTickerId m)) true)),
           cancelCanceled) m' /\
     heap m' !! nextTickerId m = Some (IsTimer (mkTimer false true dl tsActive)) /\
     nextTickerId m ∈ active m' /\
     ascending (nextTick (heap m')) (active m') /\
     registry_ok m' /\ dispatched m' = dispatched m /\ now m' = now m).
Proof. exact (newMockContext_stopped e dl m). Qed.

(** The timer [id] of a deadline context is pending on clock [m]: the
    registry is in order, the active list is in ascending order and holds the
    timer, Active, with a callback and due at the deadline [dl]. *)
Definition deadline_pending (id : nat) (dl : Time) (m : mockClock) : Prop :=
  registry_ok m /\ ascending (nextTick (heap m)) (active m) /\
  heap m !! id = Some (IsTimer (mkTimer false true dl tsActive)) /\ id ∈ active m.

(** X23: A context created on a stopped clock with its deadline ahead leaves
    its timer pending on the clock.  From every state of the clock in which
    the timer is pending, the one right after the creation among them, an
    advance to the deadline or beyond returns and dispatches the callback of
    the timer exactly once; the callback resolves the context with
    [DeadlineExceeded], closes its done channel and releases the timer, and
    whatever reaches the context afterwards changes nothing.  The ascending
    order of the active list is part of the condition: [Reset] of a timer
    that is Active does not re-sort the list, and behind such a timer the
    callback is not dispatched. *)
Theorem deadline_context_expires (e : Duration) (dl t : Time) (m : mockClock) :
  IsRunning m = false -> registry_ok m ->
  now m < dl -> dl - now m <= maxDuration -> dl <= t ->
  exists (c : mockContext) (m1 : mockClock),
    newMockContext e None dl m = Ok (c, cancelCanceled) m1 /\
    err c = None /\ now m1 = now m /\
    deadline_pending (nextTickerId m) dl m1 /\
    forall m1' : mockClock,
      deadline_pending (nextTickerId m) dl m1' -> now m1' <= t ->
      exists (m2 : mockClock) (log : list dispatch),
        (forall fuel, (ticks_left t m1' < fuel)%nat -> AdvanceTo fuel t m1' = Ok tt m2) /\
        dispatched m2 = dispatched m1' ++ log /\
        dispatches_to (nextTickerId m) log = [Call (nextTickerId m)] /\
        ctxStep timerCallback (mkWorld m2 c)
        = Ok tt (mkWorld m2 (mkContext dl true (Some DeadlineExceeded) None)) /\
        forall more,
          ctxRun more (mkWorld m2 (mkContext dl true (Some DeadlineExceeded) None))
          = Ok tt (mkWorld m2 (mkContext dl true (Some DeadlineExceeded) None)).
Proof.
  intros Hrun Hok Hlt Hrange Hdl.
  destruct (newMockContext_stopped e dl m Hrun Hok) as [_ Hfuture].
  destruct (Hfuture Hlt Hrange) as (m1 & Hnew & Hh & Hin & Hasc & Hok1 & Hlog1 & Hnow1).
  set (id := nextTickerId m) in *.
  set (tm := mkTimer false true dl tsActive) in *.
  eexists _, m1. split; [exact Hnew|]. split; [reflexivity|]. split; [exact Hnow1|].
  split; [exact (conj Hok1 (conj Hasc (conj Hh Hin)))|].
  intros m1' (Hok' & Hasc' & Hh' & Hin') Hnow'.
  destruct (timer_fires_once id tm t m1' Hok' Hasc' Hh' Hin')
    as (m2 & log & Hrun2 & Hlog2 & Hcall & Hh2 & Hnin2 & _ & Hok2 & Hnow2);
    [simpl; lia|lia|].
  exists m2, log. split; [exact Hrun2|]. split; [exact Hlog2|]. split; [exact Hcall|].
  split.
  - cbn [ctxStep]. unfold cancel. cbn [err ctx].
    unfold bind, modify, close_done. cbn [done ctx with_ctx ctx_timer clock].
    unfold stop_timer, Timer_Stop. cbn [Timer_timer clock].
    assert (Htm2 : the_timer m2 id = Some (expire tm)) by (unfold the_timer; now rewrite Hh2).
    rewrite (timer_stop_inactive m2 id (expire tm) Htm2) by discriminate.
    reflexivity.
  - intros more. now apply (ctxRun_resolved more DeadlineExceeded).
Qed.

(** X24: A context cancelled before its deadline: the cancel function resolves it
    with [Canceled] and stops its timer, and no advance, to the deadline or
    beyond, dispatches the callback of that timer. *)
Theorem cancelled_context_never_expires (e : Duration) (dl t : Time) (m : mockClock) :
  IsRunning m = false -> registry_ok m ->
  now m < dl -> dl - now m <= maxDuration -> now m <= t ->
  exists (c : mockContext) (m1 m2 m3 : mockClock) (log : list dispatch),
    newMockContext e None dl m = Ok (c, cancelCanceled) m1 /\
    ctxStep (callCancelFunc cancelCanceled) (mkWorld m1 c)
    = Ok tt (mkWorld m2 (mkContext dl true (Some Canceled) None)) /\
    (forall fuel, (ticks_left t m2 < fuel)%nat -> AdvanceTo fuel t m2 = Ok tt m3) /\
    dispatched m3 = dispatched m2 ++ log /\
    dispatches_to (nextTickerId m) log = [].
Proof.
  intros Hrun Hok Hlt Hrange Ht.
  destruct (newMockContext_stopped e dl m Hrun Hok) as [_ Hfuture].
  destruct (Hfuture Hlt Hrange) as (m1 & Hnew & Hh & Hin & Hasc & Hok1 & Hlog1 & Hnow1).
  set (id := nextTickerId m) in *.
  destruct (stop_moves_to_inactive id m1 Hok1 Hin) as [Hstop _].
  destruct (Hstop _ Hh) as (m2 & Hstop2 & Hok2 & Hnin2 & _ & _ & _ & Hnow2).
  destruct (inactive_is_skipped id t m2 Hok2) as (m3 & log & Hrun3 & Hlog3 & Hnone & _);
    [lia|exact Hnin2|].
  eexists _, m1, m2, m3, log. split; [exact Hnew|]. split.
  - cbn [ctxStep]. unfold cancel. cbn [err ctx].
    unfold bind, modify, close_done. cbn [done ctx with_ctx ctx_timer clock].
    unfold stop_timer, Timer_Stop, with_ctx, with_clock.
    cbn [Timer_timer clock ctx deadline done err ctx_timer].
    rewrite Hstop2. reflexivity.
  - split; [exact Hrun3|]. split; [exact Hlog3|exact Hnone].
Qed.
End DeadlineOnClock.

(** * A ticker whose period is not positive *)

Section NonPositivePeriod.
Context `{LargeSort}.

Lemma sort_Sort_singleton less (x : nat) : sort_Sort less [x] = [x].
Proof. reflexivity. Qed.

Lemma tickLoop_spins (fuel : nat) (t : Time) (m : mockClock) (hd : nat) (tk : ticker) :
  active m = [hd] -> heap m !! hd = Some (IsTicker tk) ->
  tk_state tk = tsActive -> tk_d tk <= 0 -> tk_next tk <= t ->
  tickLoop fuel t m = OutOfFuel.
Proof.
  revert m tk. induction fuel as [|fuel IH]; intros m tk Ha Hh Hst Hd Hdue; [reflexivity|].
  simpl. unfold bind at 1. unfold tick. rewrite Ha, Hh. simpl.
  unfold Time_After. destruct (Z.ltb_spec t (tk_next tk)); [lia|].
  unfold bind at 1. unfold tickable_tick. rewrite Hh.
  unfold ticker_tick, the_ticker. rewrite Hh, Hst. simpl.
  unfold Time_After. destruct (Z.ltb_spec t (tk_next tk)); [lia|].
  destruct (dropsTicks m).
  - rewrite dropLoop_nonpositive; [reflexivity|assumption|unfold Time_Add; lia].
  - unfold bind, modify, ret.
    eapply (IH _ (mkTicker (tk_d tk) (Time_Add (tk_next tk) (tk_d tk)) tsActive)).
    + unfold resort, go. simpl. rewrite Ha. apply sort_Sort_singleton.
    + unfold resort, go, store. simpl. apply lookup_insert_eq.
    + reflexivity.
    + assumption.
    + unfold Time_Add. simpl. lia.
Qed.

(** X21: With a due ticker of period zero or less as the only entry of the
    active list, which is what [NewTicker(d)] with [d <= 0] leaves on a new
    clock, [AdvanceTo] never returns: each turn of its loop ticks the ticker
    and leaves it due. *)
Theorem AdvanceTo_never_returns (t : Time) (m : mockClock) (hd : nat) (tk : ticker) :
  active m = [hd] -> heap m !! hd = Some (IsTicker tk) ->
  tk_state tk = tsActive -> tk_d tk <= 0 -> tk_next tk <= t -> now m <= t ->
  forall fuel, AdvanceTo fuel t m = OutOfFuel.
Proof.
  intros Ha Hh Hst Hd Hdue Hnow fuel. unfold AdvanceTo, Time_After.
  destruct (Z.ltb_spec t (now m)); [lia|].
  unfold bind. now rewrite (tickLoop_spins fuel t m hd tk).
Qed.
End NonPositivePeriod.

(** * Checking a registry *)

Definition tickable_okb (o : tickable) : bool :=
  bool_decide (tickable_state o = tsActive) &&
  match o with IsTimer _ => true | IsTicker tk => 0 <? tk_d tk end.

Definition registry_okb (m : mockClock) : bool :=
  bool_decide (NoDup (active m)) &&
  forallb (fun id => (id <? nextTickerId m)%nat &&
                     match heap m !! id with
                     | Some o => tickable_okb o
                     | None => false
                     end) (active m).

Lemma registry_okb_ok (m : mockClock) : registry_okb m = true -> registry_ok m.
Proof.
  unfold registry_okb. intros Hb. apply andb_prop in Hb as [Hnd Hall].
  split; [now apply bool_decide_eq_true in Hnd|].
  intros id Hin. rewrite forallb_forall in Hall.
  apply list_elem_of_In in Hin. specialize (Hall id Hin).
  apply andb_prop in Hall as [Hlt Ho]. apply Nat.ltb_lt in Hlt.
  split; [exact Hlt|].
  destruct (heap m !! id) as [o|]; [|discriminate].
  exists o. split; [reflexivity|].
  unfold tickable_okb in Ho. apply andb_prop in Ho as [Hst Hpos].
  apply bool_decide_eq_true in Hst. split; [exact Hst|].
  destruct o; simpl; [exact I|]. now apply Z.ltb_lt.
Qed.

Fixpoint ascendingb (key : nat -> Z) (l : list nat) : bool :=
  match l with
  | [] => true
  | x :: l => forallb (fun y => key x <=? key y) l && ascendingb key l
  end.

Lemma ascendingb_ok (key : nat -> Z) (l : list nat) :
  ascendingb key l = true -> ascending key l.
Proof.
  unfold ascending. induction l as [|x l IH]; simpl; intros Hb; [constructor|].
  apply andb_prop in Hb as [Hx Hl]. constructor; [auto|].
  rewrite Forall_forall. intros y Hy. rewrite forallb_forall in Hx.
  apply list_elem_of_In in Hy. apply Z.leb_le. auto.
Qed.

(** * Two defects of the registry, on the clock of [NewMockClock()] *)

Section Defects.
Context `{LargeSort}.
Local Open Scope go_scope.

(** The clock of [NewMockClock()] after [NewTicker(0)]. *)
Definition zeroTickerClock : mockClock :=
  match NewTicker 0 0 epochClock with
  | Ok _ m => m
  | _ => epochClock
  end.

(** C1: [NewTicker(0)] is accepted by the clock of [NewMockClock()], which
    is stopped; the ticker fires once at the epoch and stays due.  From then
    on [AdvanceBy(d)] does not return for any [d >= 0], here [d] of [n]
    nanoseconds: each turn of the loop of [AdvanceTo] ticks the ticker and
    finds it due again.  The current time stays at the epoch; no call ends
    with it at the sum of the durations. *)
Theorem AdvanceBy_after_NewTicker_zero_never_returns :
  exists (c : mockClock) (k : Ticker) (m : mockClock),
    NewMockClock [] = Ok tt c /\ IsRunning c = false /\
    NewTicker 0 0 c = Ok k m /\
    dispatched m = [Send 0 0] /\
    forall (fuel n : nat), AdvanceBy fuel (Z.of_nat n) m = OutOfFuel.
Proof.
  exists epochClock, (mkTickerValue true (Some 0%nat) true), zeroTickerClock.
  split; [reflexivity|]. split; [reflexivity|].
  split; [vm_compute; reflexivity|]. split; [vm_compute; reflexivity|].
  intros fuel n. unfold AdvanceBy, AdvanceTo.
  assert (Hnow : now zeroTickerClock = 0) by (vm_compute; reflexivity).
  rewrite Hnow. unfold Time_After, Time_Add.
  destruct (Z.ltb_spec (0 + Z.of_nat n) 0); [lia|].
  unfold bind.
  rewrite (tickLoop_spins fuel (0 + Z.of_nat n) zeroTickerClock 0%nat (mkTicker 0 0 tsActive));
    [reflexivity|vm_compute; reflexivity|vm_compute; reflexivity|reflexivity
    |simpl; lia|simpl; lia].
Qed.

(** C3: on the clock of [NewMockClock()], which keeps its ticks, a timer of
    5ns is created, then a ticker of period 10ns, and the timer, still
    Active, is reset to 100ns.  [resetTimer] changes the timer's next tick
    and does not sort the active list, where the timer now stands before the
    ticker with a later next tick.  [AdvanceBy(30ns)], three periods of the
    ticker, returns with the time at 30ns and has sent nothing: [tick] looks
    at the head of the list, which is not due. *)
Theorem Ticker_behind_a_Reset_timer_gets_no_tick :
  exists (tm : Timer) (tk : Ticker) (m0 m1 m2 m3 : mockClock),
    NewTimer 5 epochClock = Ok tm m0 /\
    NewTicker 0 10 m0 = Ok tk m1 /\
    Ticker_ticker tk = Some 1%nat /\
    the_ticker m1 1 = Some (mkTicker 10 10 tsActive) /\
    Timer_Reset tm 100 m1 = Mock (Ok true m2) /\
    active m2 = [0%nat; 1%nat] /\
    nextTick (heap m2) 0 = 100 /\ nextTick (heap m2) 1 = 10 /\
    dropsTicks m2 = false /\
    (forall fuel, AdvanceBy (S fuel) (3 * 10) m2 = Ok tt m3) /\
    now m3 = 30 /\
    sends_to 1 (dispatched m3) = [] /\
    the_ticker m3 1 = Some (mkTicker 10 10 tsActive).
Proof.
  eexists _, _, _, _, _, _.
  split; [vm_compute; reflexivity|]. split; [vm_compute; reflexivity|].
  split; [reflexivity|]. split; [vm_compute; reflexivity|].
  split; [vm_compute; reflexivity|]. split; [vm_compute; reflexivity|].
  split; [vm_compute; reflexivity|]. split; [vm_compute; reflexivity|].
  split; [vm_compute; reflexivity|]. split.
  - intros fuel. apply (AdvanceBy_mono 1 (S fuel)); [lia| |discriminate].
    vm_compute. reflexivity.
  - split; [vm_compute; reflexivity|]. split; vm_compute; reflexivity.
Qed.

(** The same defect hides the timer of a deadline context.  A timer of 5ns,
    then a context with its deadline at 10ns, then the timer reset to
    100ns: the timer of the context is Active and due at 10ns, behind the
    head of the list, and an advance to 50ns dispatches nothing. *)
Lemma deadline_missed_behind_a_Reset_timer :
  exists (tm : Timer) (c : mockContext) (m0 m1 m2 m3 : mockClock),
    NewTimer 5 epochClock = Ok tm m0 /\
    newMockContext 0 None 10 m0 = Ok (c, cancelCanceled) m1 /\
    ctx_timer c = Some (mkTimerValue true (Some 1%nat) true) /\
    Timer_Reset tm 100 m1 = Mock (Ok true m2) /\
    active m2 = [0%nat; 1%nat] /\
    the_timer m2 1 = Some (mkTimer false true 10 tsActive) /\
    (forall fuel, AdvanceTo (S fuel) 50 m2 = Ok tt m3) /\
    now m3 = 50 /\ dispatched m3 = [].
Proof.
  eexists _, _, _, _, _, _.
  split; [vm_compute; reflexivity|]. split; [vm_compute; reflexivity|].
  split; [reflexivity|]. split; [vm_compute; reflexivity|].
  split; [vm_compute; reflexivity|]. split; [vm_compute; reflexivity|].
  split.
  - intros fuel. apply (AdvanceTo_mono 1 (S fuel)); [lia| |discriminate].
    vm_compute. reflexivity.
  - split; vm_compute; reflexivity.
Qed.
End Defects.

(** * The order of delivery among entries with the same next tick *)

(** Whether firing the tickable makes a dispatch: a ticker sends, a timer
    calls its callback or sends on its channel. *)
Definition delivers (o : tickable) : bool :=
  match o with
  | IsTimer tm => tm_fn tm || tm_c tm
  | IsTicker _ => true
  end.

Section Delivery.
Context `{LargeSort}.

Lemma List_filter_sublist (f : nat -> bool) (l : list nat) : List.filter f l `sublist_of` l.
Proof.
  induction l as [|a l IH]; simpl; [constructor|].
  destruct (f a); [now apply sublist_skip|now apply sublist_cons].
Qed.

Lemma List_filter_sublist_mono (f : nat -> bool) (l1 l2 : list nat) :
  l1 `sublist_of` l2 -> List.filter f l1 `sublist_of` List.filter f l2.
Proof.
  induction 1 as [|a l1 l2 _ IH|a l1 l2 _ IH]; simpl; [constructor| |].
  - destruct (f a); [now apply sublist_skip|exact IH].
  - destruct (f a); [now apply sublist_cons|exact IH].
Qed.

Lemma lookup_sublist (l : list nat) (i j x y : nat) :
  l !! i = Some x -> l !! j = Some y -> (i < j)%nat -> [x; y] `sublist_of` l.
Proof.
  revert i j. induction l as [|a l IH]; intros i j Hi Hj Hlt; [discriminate|].
  destruct j as [|j]; [lia|]. destruct i as [|i]; simpl in Hi, Hj.
  - injection Hi as ->. apply sublist_skip.
    apply singleton_sublist_l. now apply (list_elem_of_lookup_2 l j).
  - apply sublist_cons. apply (IH i j); [assumption..|lia].
Qed.

Lemma remove_length (a : list nat) (id : nat) : (length (remove a id) <= length a)%nat.
Proof.
  induction a as [|x a IH]; simpl; [lia|].
  destruct (Nat.eqb x id); simpl; lia.
Qed.

(** [sort.Sort] on at most 12 entries leaves two entries with the same next
    tick in the order in which they stood. *)
Lemma resort_keeps_order (m0 : mockClock) (x y : nat) :
  (length (active m0) <= maxInsertion)%nat ->
  nextTick (heap m0) x = nextTick (heap m0) y ->
  [x; y] `sublist_of` active m0 -> [x; y] `sublist_of` active (resort m0).
Proof.
  intros Hlen Hkey Hsub. unfold resort. cbn [active with_active]. rewrite Less_less_by.
  set (key := nextTick (heap m0)) in *.
  transitivity (with_key key (key x) (sort_Sort (less_by key) (active m0)));
    [|apply List_filter_sublist].
  rewrite sort_Sort_stable_small by assumption.
  replace [x; y] with (with_key key (key x) [x; y]).
  - now apply List_filter_sublist_mono.
  - unfold with_key. simpl. rewrite Z.eqb_refl, <- Hkey, Z.eqb_refl. reflexivity.
Qed.

Lemma dispatches_to_own (id : nat) (d : dispatch) :
  match d with Send i _ | Call i => i = id end -> dispatches_to id [d] = [d].
Proof.
  unfold dispatches_to. destruct d; intros ->; simpl; now rewrite Nat.eqb_refl.
Qed.

(** Whatever a tickable dispatches when it is ticked, it dispatches for
    itself. *)
Lemma tickable_tick_log (fuel : nat) (id : nat) (t : Time) (m m' : mockClock) (b : bool) :
  tickable_tick fuel id t m = Ok b m' ->
  exists log, dispatched m' = dispatched m ++ log /\ dispatches_to id log = log.
Proof.
  assert (Hnone : forall m0 : mockClock,
             exists log, dispatched m0 = dispatched m0 ++ log /\ dispatches_to id log = log).
  { intros m0. exists []. now rewrite app_nil_r. }
  unfold tickable_tick. destruct (heap m !! id) as [[tm|tk]|] eqn:Hh; [| |discriminate].
  - unfold timer_tick, the_timer. rewrite Hh.
    destruct (negb _ || _); [intros [= <- <-]; apply Hnone|].
    unfold bind, timer_enterState, the_timer. rewrite Hh.
    destruct (decide (tm_state tm = tsExpired)); destruct (tm_fn tm); [|destruct (tm_c tm)| |destruct (tm_c tm)];
      unfold modify, ret, go; intros [= <- <-];
      cbn [dispatched with_dispatched with_now];
      rewrite ?dispatched_disableTicker; cbn [dispatched store with_heap];
      first [ exists []; split; [now rewrite app_nil_r|reflexivity]
            | eexists; split; [reflexivity|now apply dispatches_to_own] ].
  - unfold ticker_tick, the_ticker. rewrite Hh.
    destruct (negb _ || _); [intros [= <- <-]; apply Hnone|].
    destruct (if dropsTicks m then _ else _) as [[at_ next]|]; [|discriminate].
    intros [= <- <-]. exists [Send id at_].
    split; [reflexivity|now apply dispatches_to_own].
Qed.

(** A call of [mockClock.tick] that returns true has ticked the head of the
    active list and nothing else: every dispatch it made is for the head. *)
Lemma tick_fires_the_head (fuel : nat) (t : Time) (m m' : mockClock) :
  tick fuel t m = Ok true m' ->
  exists (hd : nat) (rest : list nat) (log : list dispatch),
    active m = hd :: rest /\
    dispatched m' = dispatched m ++ log /\ dispatches_to hd log = log.
Proof.
  unfold tick.
  destruct (active m) as [|hd rest]; [discriminate|].
  destruct (heap m !! hd) as [o|]; [|discriminate].
  destruct (Time_After (tickable_next o) t); [discriminate|].
  unfold bind, modify, ret.
  destruct (tickable_tick fuel hd t m) as [b m1|e m1|] eqn:Htick; [|discriminate..].
  intros [= <-].
  destruct (tickable_tick_log fuel hd t m m1 b Htick) as (log & Hlog & Hown).
  exists hd, rest, log. auto.
Qed.

(** Simultaneous fires are delivered in the order of the list.  In an active
    list of at most 12 entries in ascending order, [x] stands before [y],
    both have the same next tick and it is due at [t].  Then the advance to
    [t] has dispatched for [x] before it makes any dispatch for [y]. *)
Lemma ties_fire_in_list_order (t : Time) (m : mockClock) (i j x y : nat) (ox oy : tickable) :
  registry_ok m -> ascending (nextTick (heap m)) (active m) ->
  (length (active m) <= maxInsertion)%nat ->
  active m !! i = Some x -> active m !! j = Some y -> (i < j)%nat ->
  heap m !! x = Some ox -> heap m !! y = Some oy ->
  tickable_next ox = tickable_next oy -> tickable_next ox <= t -> now m <= t ->
  delivers ox = true ->
  exists (m' : mockClock) (l1 l2 : list dispatch),
    (forall fuel, (ticks_left t m < fuel)%nat -> AdvanceTo fuel t m = Ok tt m') /\
    dispatched m' = dispatched m ++ l1 ++ l2 /\
    dispatches_to x l1 <> [] /\ dispatches_to y l1 = [].
Proof.
  intros Hok Hasc Hlen Hi Hj Hlt Hx Hy Hkey Hdue Hnow Hdel.
  assert (Hsub : [x; y] `sublist_of` active m) by now apply (lookup_sublist _ i j).
  assert (Hne : x <> y).
  { destruct Hok as [Hnd _]. apply (sublist_NoDup _ _ Hnd) in Hsub.
    apply NoDup_cons in Hsub as [Hnin _]. intros ->. apply Hnin. left. }
  set (pending := fun m' : mockClock =>
         [x; y] `sublist_of` active m' /\
         heap m' !! x = Some ox /\ heap m' !! y = Some oy /\
         exists log, dispatched m' = dispatched m ++ log /\ dispatches_to y log = []).
  set (served := fun m' : mockClock =>
         exists l1 l2, dispatched m' = dispatched m ++ l1 ++ l2 /\
                       dispatches_to x l1 <> [] /\ dispatches_to y l1 = []).
  set (I := fun m' : mockClock =>
         ascending (nextTick (heap m')) (active m') /\
         (length (active m') <= maxInsertion)%nat /\ (pending m' \/ served m')).
  destruct (AdvanceTo_invariant I t m) as (m' & Hrun & Hok' & (Hasc' & _ & Hst) & Hq).
  - intros ma mb Hoka (Hasca & Hlena & Hst) Hf.
    split; [destruct Hf; [apply fire_timer_ascending|apply fire_ticker_ascending]|].
    split.
    { destruct Hf as [hd rest tm Ha _ _ _|hd rest tk k Ha _ _ _ _ _ _ _].
      - rewrite (Permutation_length (active_fire_timer hd tm ma)).
        pose proof (remove_length (active ma) hd). lia.
      - now rewrite (Permutation_length (active_fire_ticker hd tk _ _ ma)). }
    destruct Hst as [(Hsuba & Hxa & Hya & log & Hlog & Hnone)|(l1 & l2 & Hlog & Hsome & Hnone)].
    + destruct Hoka as [Hnda _].
      assert (Hhd : forall hd rest, active ma = hd :: rest -> hd <> y).
      { intros hd rest Ha ->. rewrite Ha in Hsuba, Hnda.
        apply sublist_cons_r in Hsuba as [Hsuba|(l' & [= -> _] & _)]; [|congruence].
        apply NoDup_cons in Hnda as [Hnin _]. apply Hnin.
        apply (elem_of_sublist [x; y]); [right; left|exact Hsuba]. }
      destruct Hf as [hd rest tm Ha Hh Hstate Hd|hd rest tk k Ha Hh Hstate Hd Hp Hk Hk0 Hk1].
      * pose proof (Hhd hd rest Ha) as Hhdy.
        destruct (decide (hd = x)) as [->|Hhdx].
        -- right. exists (log ++ timer_log x tm), [].
           rewrite dispatched_fire_timer, Hlog, app_nil_r, app_assoc.
           split; [reflexivity|]. rewrite !dispatches_to_app. split.
           ++ rewrite dispatches_to_timer_log_eq.
              assert (ox = IsTimer tm) as -> by congruence.
              unfold timer_log. simpl in Hdel.
              destruct (tm_fn tm); [destruct (dispatches_to x log); discriminate|].
              destruct (tm_c tm); [destruct (dispatches_to x log); discriminate|discriminate].
           ++ now rewrite Hnone, dispatches_to_timer_log_ne.
        -- left. split; [|split; [|split]].
           ++ unfold fire_timer. apply resort_keeps_order.
              ** rewrite active_timer_deliver, active_disableTicker.
                 pose proof (remove_length (active ma) hd). cbn [active store with_heap]. lia.
              ** rewrite heap_timer_deliver, heap_disableTicker. cbn [heap store with_heap].
                 unfold nextTick. rewrite !lookup_insert_ne by congruence.
                 now rewrite Hxa, Hya.
              ** rewrite active_timer_deliver, active_disableTicker. cbn [active store with_heap].
                 rewrite Ha, remove_head. rewrite Ha in Hsuba.
                 apply sublist_cons_r in Hsuba as [Hsuba|(l' & [= -> _] & _)];
                   [exact Hsuba|congruence].
           ++ rewrite heap_fire_timer, lookup_insert_ne by congruence. exact Hxa.
           ++ rewrite heap_fire_timer, lookup_insert_ne by congruence. exact Hya.
           ++ exists (log ++ timer_log hd tm).
              rewrite dispatched_fire_timer, Hlog, app_assoc. split; [reflexivity|].
              now rewrite dispatches_to_app, Hnone, dispatches_to_timer_log_ne.
      * pose proof (Hhd hd rest Ha) as Hhdy.
        set (at_ := tk_next tk + k * tk_d tk). set (next := tk_next tk + (k + 1) * tk_d tk).
        assert (Hsend : dispatched (fire_ticker hd tk at_ next ma)
                        = dispatched ma ++ [Send hd at_]) by reflexivity.
        destruct (decide (hd = x)) as [->|Hhdx].
        -- right. exists (log ++ [Send x at_]), [].
           rewrite Hsend, Hlog, app_nil_r, app_assoc.
           split; [reflexivity|]. rewrite !dispatches_to_app. split.
           ++ rewrite (dispatches_to_own x (Send x at_)) by reflexivity.
              destruct (dispatches_to x log); discriminate.
           ++ rewrite Hnone. unfold dispatches_to. simpl.
              destruct (Nat.eqb_spec x y); [congruence|reflexivity].
        -- left. split; [|split; [|split]].
           ++ unfold fire_ticker. apply resort_keeps_order.
              ** exact Hlena.
              ** cbn [heap go with_dispatched with_now store with_heap].
                 unfold nextTick. rewrite !lookup_insert_ne by congruence.
                 now rewrite Hxa, Hya.
              ** exact Hsuba.
           ++ rewrite heap_fire_ticker, lookup_insert_ne by congruence. exact Hxa.
           ++ rewrite heap_fire_ticker, lookup_insert_ne by congruence. exact Hya.
           ++ exists (log ++ [Send hd at_]).
              rewrite Hsend, Hlog, app_assoc. split; [reflexivity|].
              rewrite dispatches_to_app, Hnone. unfold dispatches_to. simpl.
              destruct (Nat.eqb_spec hd y); [congruence|reflexivity].
    + right. destruct (fires_head t ma mb Hf)
        as (hd & rest & o & log' & _ & _ & _ & Hlog' & _).
      exists l1, (l2 ++ log'). rewrite Hlog', Hlog, <- !app_assoc. auto.
  - exact Hok.
  - split; [exact Hasc|]. split; [exact Hlen|]. left.
    split; [exact Hsub|]. split; [exact Hx|]. split; [exact Hy|].
    exists []. now rewrite app_nil_r.
  - exact Hnow.
  - destruct Hst as [(Hsub' & Hx' & _)|(l1 & l2 & Hlog & Hsome & Hnone)].
    + exfalso.
      assert (Hin : x ∈ active m') by (apply (elem_of_sublist [x; y]); [left|exact Hsub']).
      pose proof (quiet_ascending t m' x Hq Hasc' Hin) as Hlate.
      unfold nextTick in Hlate. rewrite Hx' in Hlate. lia.
    + exists (with_now t m'), l1, l2. auto.
Qed.

(** C5, as amended: after [activateTicker], after the [sort.Sort] of
    [mockClock.tick] and so after every [tick] that returns true, the active
    list is in ascending order of next tick.  When the list sorted has at
    most 12 entries, those with the same next tick keep the order they had
    in the list before the sort; nothing is said of their order in a longer
    list, nor of the order of insertion.  Delivery follows the list: a tick
    dispatches for the head of the list and for nothing else, and of two
    entries of a sorted list of at most 12 that are due at the same next
    tick, the advance dispatches for the one that stands first before it
    dispatches for the other. *)
Theorem active_sorted_after_insert_and_resort :
  (forall (m : mockClock) (t : nat),
     ascending (nextTick (heap (activateTicker t m))) (active (activateTicker t m))) /\
  (forall m : mockClock,
     ascending (nextTick (heap (resort m))) (active (resort m))) /\
  (forall (fuel : nat) (t : Time) (m m' : mockClock),
     tick fuel t m = Ok true m' -> ascending (nextTick (heap m')) (active m')) /\
  (forall (m : mockClock) (t : nat) (k : Time),
     (length (active m) < maxInsertion)%nat ->
     with_key (nextTick (heap m)) k (active (activateTicker t m))
     = with_key (nextTick (heap m)) k (active m ++ [t])) /\
  (forall (m : mockClock) (k : Time),
     (length (active m) <= maxInsertion)%nat ->
     with_key (nextTick (heap m)) k (active (resort m))
     = with_key (nextTick (heap m)) k (active m)) /\
  (forall (fuel : nat) (t : Time) (m m' : mockClock),
     tick fuel t m = Ok true m' ->
     exists (hd : nat) (rest : list nat) (log : list dispatch),
       active m = hd :: rest /\
       dispatched m' = dispatched m ++ log /\ dispatches_to hd log = log) /\
  (forall (t : Time) (m : mockClock) (i j x y : nat) (ox oy : tickable),
     registry_ok m -> ascending (nextTick (heap m)) (active m) ->
     (length (active m) <= maxInsertion)%nat ->
     active m !! i = Some x -> active m !! j = Some y -> (i < j)%nat ->
     heap m !! x = Some ox -> heap m !! y = Some oy ->
     tickable_next ox = tickable_next oy -> tickable_next ox <= t -> now m <= t ->
     delivers ox = true ->
     exists (m' : mockClock) (l1 l2 : list dispatch),
       (forall fuel, (ticks_left t m < fuel)%nat -> AdvanceTo fuel t m = Ok tt m') /\
       dispatched m' = dispatched m ++ l1 ++ l2 /\
       dispatches_to x l1 <> [] /\ dispatches_to y l1 = []).
Proof.
  split; [|split; [|split; [|split; [|split; [|split]]]]].
  - intros m t. unfold activateTicker. apply resort_ascending.
  - apply resort_ascending.
  - intros fuel t m m' Htick.
    destruct (tick_resorts fuel t m m' Htick) as [m1 ->]. apply resort_ascending.
  - intros m t k Hlen. unfold activateTicker, resort. simpl.
    rewrite Less_less_by. apply sort_Sort_stable_small.
    rewrite length_app. simpl. lia.
  - intros m k Hlen. unfold resort. simpl.
    rewrite Less_less_by. now apply sort_Sort_stable_small.
  - apply tick_fires_the_head.
  - apply ties_fire_in_list_order.
Qed.
End Delivery.

(** * The properties on concrete clocks

    The runs below use insertion sort at every length for [sort.Sort]; none
    of their lists is longer than 12. *)

#[local] Existing Instance insertionLargeSort.

Ltac by_computation := apply (bool_decide_eq_true_1 _); vm_compute; reflexivity.
Ltac registry_in_order := apply registry_okb_ok; vm_compute; reflexivity.
Ltac list_ascending := apply ascendingb_ok; vm_compute; reflexivity.

Lemma AdvanceTo_before_now_panics_witness :
  AdvanceTo 5 (-100 * Second) epochClock
    = Panic ErrNotADelorean epochClock /\
  AdvanceBy 5 (-100 * Millisecond) epochClock
    = Panic ErrNotADelorean epochClock.
Proof.
  destruct (@AdvanceTo_before_now_panics insertionLargeSort 5%nat epochClock) as [Hto Hby].
  split; [apply Hto|apply Hby]; reflexivity.
Defined.

(** The zero values [&Timer{}] and [&Ticker{}] of the tests. *)
Definition zeroTimer : Timer := mkTimerValue false None false.
Definition zeroTicker : Ticker := mkTickerValue false None false.

Lemma stop_twice_witness :
  exists t m0 m1,
    NewTimer (1 * Second) epochClock = Ok t m0 /\
    timer_stop 0 m0 = Ok true m1 /\
    timer_stop 0 m1 = Ok false m1.
Proof.
  eexists _, _.
  destruct (@stop_twice insertionLargeSort
              (with_nextTickerId 1
                 (with_active [O]
                    (with_heap {[ O := IsTimer (mkTimer true false (1 * Second) tsActive) ]}
                       epochClock))) O) as [Htimer _].
  destruct (Htimer (mkTimer true false (1 * Second) tsActive) eq_refl eq_refl)
    as (m1 & H1 & _ & H2).
  exists m1. split; [reflexivity|]. split; assumption.
Defined.

Lemma uninitialised_Timer_and_Ticker_witness :
  Timer_Reset zeroTimer (1 * Second) epochClock
    = Mock (Panic errResetCalledOnUninitialized epochClock) /\
  Ticker_Reset zeroTicker (1 * Second) epochClock
    = Mock (Panic errResetCalledOnUninitialized epochClock) /\
  Timer_tick zeroTimer 0 epochClock = Ok false epochClock /\
  Ticker_tick 0 zeroTicker 0 epochClock = Ok false epochClock.
Proof.
  destruct (@uninitialised_Timer_and_Ticker insertionLargeSort
              zeroTimer zeroTicker (1 * Second) 0%nat 0 epochClock)
    as (H1 & H2 & H3 & H4 & _).
  exact (conj (H1 eq_refl) (conj (H2 eq_refl) (conj (H3 eq_refl) (H4 eq_refl)))).
Defined.

(** C8, counterexample: [Stop] on the zero Timer does not panic with
    [errResetCalledOnUninitialized]; the call goes to the embedded
    [*time.Timer], which is nil. *)
Lemma Stop_on_uninitialised_Timer_is_not_guarded :
  ~ (forall (t : Timer) (m : mockClock),
       Timer_initialised t = false ->
       Timer_Stop t m
         = Mock (Panic errResetCalledOnUninitialized m)).
Proof.
  intros Hall. specialize (Hall zeroTimer epochClock eq_refl). discriminate Hall.
Qed.

(** C9, counterexample: [ticker.stop] on an Active ticker, which stops it,
    and [ticker.stop] on the ticker so stopped, which changes nothing,
    return the same value; the result does not report a transition. *)
Lemma ticker_stop_reports_nothing :
  exists (k : Ticker) (m0 m1 : mockClock) (first second : unit),
    NewTicker 0 (1 * Second) epochClock = Ok k m0 /\
    ticker_stop 0 m0 = Ok first m1 /\
    the_ticker m0 0 = Some (mkTicker (1 * Second) (1 * Second) tsActive) /\
    the_ticker m1 0 = Some (mkTicker (1 * Second) (1 * Second) tsStopped) /\
    ticker_stop 0 m1 = Ok second m1 /\
    first = second.
Proof.
  eexists _, _, _, tt, tt.
  split; [vm_compute; reflexivity|]. split; [vm_compute; reflexivity|].
  repeat split; vm_compute; reflexivity.
Qed.

(** C4: [Reset(d)] of a mock Timer re-arms it at the current time plus [d]
    and returns whether it was Active, but it does not fire for every
    [d <= 0].  [resetTimer] ticks the timer for [d == 0] only, and does so
    before it re-activates a timer that was not Active.  On the clock of
    [NewMockClock()] with a timer of one second: [Reset(-1)] returns true
    and leaves the timer Active, due one nanosecond in the past, with nothing
    dispatched; after [Stop], [Reset(0)] returns false and leaves the timer
    Active and due, again with nothing dispatched. *)
Theorem Timer_Reset_nonpositive_does_not_fire :
  exists (t : Timer) (m0 : mockClock),
    NewTimer (1 * Second) epochClock = Ok t m0 /\
    (exists m1,
       Timer_Reset t (-1) m0 = Mock (Ok true m1) /\
       the_timer m1 0 = Some (mkTimer true false (-1) tsActive) /\
       dispatched m1 = []) /\
    (exists m1 m2,
       Timer_Stop t m0 = Mock (Ok true m1) /\
       Timer_Reset t 0 m1 = Mock (Ok false m2) /\
       the_timer m2 0 = Some (mkTimer true false 0 tsActive) /\
       dispatched m2 = []).
Proof.
  eexists _, _. split; [vm_compute; reflexivity|]. split.
  - eexists. split; [vm_compute; reflexivity|]. split; vm_compute; reflexivity.
  - eexists _, _. split; [vm_compute; reflexivity|].
    split; [vm_compute; reflexivity|]. split; vm_compute; reflexivity.
Qed.

(** [Reset(0)] of an Active timer, the case of the test, does fire. *)
Lemma Timer_Reset_zero_on_active_fires :
  exists (t : Timer) (m0 m1 : mockClock),
    NewTimer (1 * Second) epochClock = Ok t m0 /\
    Timer_Reset t 0 m0 = Mock (Ok true m1) /\
    dispatched m1 = [Send 0 0].
Proof.
  eexists _, _, _. split; [vm_compute; reflexivity|].
  split; vm_compute; reflexivity.
Qed.

(** A ticker of one second on the clock of [NewMockClock()]. *)
Definition tickingClock : mockClock :=
  match NewTicker 0 (1 * Second) epochClock with
  | Ok _ m => m
  | _ => epochClock
  end.

Lemma registry_ok_tickingClock : registry_ok tickingClock.
Proof.
  destruct (NewTicker_registers epochClock (1 * Second) registry_ok_epochClock eq_refl)
    as (m1 & Hnew & Hok & _).
  unfold tickingClock. now rewrite (Hnew O).
Defined.


Lemma Ticker_ticks_over_n_periods_witness :
  (exists (fuel0 : nat) (m1 m2 : mockClock) (log : list dispatch),
     (forall fuel, (fuel0 <= fuel)%nat ->
        NewTicker fuel (1 * Second) epochClock = Ok (mkTickerValue true (Some O) true) m1 /\
        AdvanceBy fuel (10 * (1 * Second)) m1 = Ok tt m2) /\
     dispatched m2 = dispatched m1 ++ log /\
     sends_to 0 log = (fun k => 0 + k * (1 * Second)) <$> seqZ 1 10 /\
     length (sends_to 0 log) = 10%nat) /\
  (exists (fuel0 : nat) (m1 m2 : mockClock) (log : list dispatch),
     (forall fuel, (fuel0 <= fuel)%nat ->
        NewTicker fuel (1 * Second) (with_dropsTicks true epochClock)
        = Ok (mkTickerValue true (Some O) true) m1 /\
        AdvanceBy fuel (10 * (1 * Second)) m1 = Ok tt m2) /\
     dispatched m2 = dispatched m1 ++ log /\
     sends_to 0 log = [0 + 10 * (1 * Second)] /\
     length (sends_to 0 log) = 1%nat).
Proof.
  split.
  - exact (Ticker_ticks_over_n_periods epochClock (1 * Second) 10
             registry_ok_epochClock eq_refl ltac:(discriminate)).
  - exact (Ticker_ticks_over_n_periods (with_dropsTicks true epochClock) (1 * Second) 10
             registry_ok_epochClock eq_refl ltac:(discriminate)).
Defined.

(** Two timers of 2ns, ids 0 and 1, then a ticker of 1ns, id 2, on the clock
    of [NewMockClock()]: the active list is 2, 0, 1. *)
Definition tieClock : mockClock :=
  match (NewTimer 2 ;;; NewTimer 2 ;;; NewTicker 0 1)%go epochClock with
  | Ok _ m => m
  | _ => epochClock
  end.

(** [tieClock] as [newTimer] has it when it has built a third timer of 2ns,
    id 3, and is about to activate it. *)
Definition tieClock_building : mockClock :=
  store 3 (IsTimer (mkTimer true false 2 tsActive)) tieClock.

Lemma active_sorted_after_insert_and_resort_witness :
  active tieClock = [2; 0; 1]%nat /\
  (exists (m' : mockClock) (log : list dispatch),
     tick 0 1 tieClock = Ok true m' /\
     ascending (nextTick (heap m')) (active m') /\
     active m' = [2; 0; 1]%nat /\
     with_key (nextTick (heap m')) 2 (active m') = [2; 0; 1]%nat /\
     dispatched m' = dispatched tieClock ++ log /\ dispatches_to 2 log = log) /\
  with_key (nextTick (heap tieClock_building)) 2 (active (activateTicker 3 tieClock_building))
  = [0; 1; 3]%nat /\
  with_key (nextTick (heap tieClock)) 2 (active (resort tieClock)) = [0; 1]%nat /\
  (exists (m' : mockClock) (l1 l2 : list dispatch),
     (forall fuel, (ticks_left 2%Z tieClock < fuel)%nat -> AdvanceTo fuel 2 tieClock = Ok tt m') /\
     dispatched m' = dispatched tieClock ++ l1 ++ l2 /\
     dispatches_to 0 l1 <> [] /\ dispatches_to 1 l1 = []).
Proof.
  destruct active_sorted_after_insert_and_resort
    as (_ & _ & Htick & Hins & Hsort & Hhead & Hties).
  split; [vm_compute; reflexivity|]. split; [|split; [|split]].
  - assert (Hrun : exists m', tick 0 1 tieClock = Ok true m' /\ active m' = [2; 0; 1]%nat /\
                              with_key (nextTick (heap m')) 2 (active m') = [2; 0; 1]%nat).
    { eexists. split; [vm_compute; reflexivity|]. split; vm_compute; reflexivity. }
    destruct Hrun as (m' & Hrun & Hactive & Hkey).
    destruct (Hhead O 1 tieClock m' Hrun) as (hd & rest & log & Hhd & Hlog & Hown).
    assert (hd = 2%nat) as -> by (vm_compute in Hhd; congruence).
    exists m', log. split; [exact Hrun|].
    split; [exact (Htick O 1 tieClock m' Hrun)|]. auto.
  - rewrite (Hins tieClock_building 3%nat 2) by (vm_compute; lia).
    vm_compute. reflexivity.
  - rewrite (Hsort tieClock 2) by (vm_compute; lia). vm_compute. reflexivity.
  - apply (Hties 2 tieClock 1%nat 2%nat 0%nat 1%nat
             (IsTimer (mkTimer true false 2 tsActive)) (IsTimer (mkTimer true false 2 tsActive)));
      first [ registry_in_order | list_ascending | vm_compute; reflexivity
            | vm_compute; lia | vm_compute; discriminate ].
Defined.

(** C5, counterexample: on the clock of [NewMockClock()] a ticker of 2ns is
    created, then a ticker of 1ns, and the clock is advanced by 1ns.  Both
    tickers are then due at 2ns and the one created last stands first in
    the active list. *)
Lemma ties_not_in_insertion_order :
  exists m : mockClock,
    (NewTicker 5 2 ;;; NewTicker 5 1 ;;; AdvanceBy 5 1)%go epochClock = Ok tt m /\
    active m = [1%nat; 0%nat] /\
    nextTick (heap m) 0 = nextTick (heap m) 1 /\
    ~ ties_in_insertion_order m.
Proof.
  eexists. split; [vm_compute; reflexivity|].
  split; [vm_compute; reflexivity|]. split; [vm_compute; reflexivity|].
  intros Hties.
  specialize (Hties 1%nat 0%nat 0%nat 1%nat eq_refl eq_refl).
  assert (1 < 0)%nat; [|lia].
  apply Hties; [vm_compute; reflexivity|lia].
Qed.

(** Beyond 12 entries the contract of [sort.Sort] leaves the order of ties
    open: with a pdqsort that meets it and reverses them, thirteen timers of
    one second end up in the reverse of the order of their creation. *)
Lemma ties_in_a_long_list_may_be_reordered :
  exists m : mockClock,
    Nat.iter 13 (fun r => match r with
                          | Ok _ m => NewTimer (H := reversingLargeSort) (1 * Second) m
                          | r => r
                          end)
             (Ok (mkTimerValue false None false) epochClock)
    = Ok (mkTimerValue true (Some 12%nat) true) m /\
    active m = rev (seq 0 13).
Proof.
  eexists. split; vm_compute; reflexivity.
Qed.

(** The context of a deadline one second ahead, on the clock of
    [NewMockClock()]. *)
Definition deadlineWorld : world :=
  match newMockContext 0 None (1 * Second) epochClock with
  | Ok (c, _) m => mkWorld m c
  | _ => mkWorld epochClock (mkContext 0 false None None)
  end.

Lemma ctx_ok_deadlineWorld : ctx_ok deadlineWorld.
Proof.
  destruct (newMockContext 0 None (1 * Second) epochClock) as [[c f] m|e m|] eqn:Hnew;
    [|vm_compute in Hnew; discriminate..].
  destruct (newMockContext_in_order _ _ _ _ _ _ _ Hnew) as [Hok _].
  unfold deadlineWorld. now rewrite Hnew.
Defined.

Lemma mockContext_resolves_once_witness :
  exists w' : world,
    ctxRun [callCancelFunc noopCancel; timerCallback; callCancelFunc cancelCanceled;
            parentIsDone (OtherError 0)] deadlineWorld = Ok tt w' /\
    err (ctx w') = Some DeadlineExceeded /\
    ctx_timer (ctx w') = None /\
    done (ctx w') = true.
Proof.
  destruct (mockContext_resolves_once deadlineWorld
              [callCancelFunc noopCancel; timerCallback; callCancelFunc cancelCanceled;
               parentIsDone (OtherError 0)] ctx_ok_deadlineWorld eq_refl)
    as (w' & Hrun & Herr & Hctx & _).
  exists w'. split; [exact Hrun|]. split; [exact Herr|].
  simpl in Hctx. rewrite Hctx. split; reflexivity.
Defined.

(** ** The further properties on concrete clocks *)


(** A timer of one second on the clock of [NewMockClock()]. *)
Definition timerClock : mockClock :=
  match NewTimer (1 * Second) epochClock with
  | Ok _ m => m
  | _ => epochClock
  end.

(** A timer of 10ns and a ticker of 5ns whose period is then reset to 20ns:
    the ticker, due at 20ns, stays at the head of the list, before the
    timer. *)
Definition resetClock : mockClock :=
  match (NewTimer 10 ;;; NewTicker 0 5 ;;; ticker_reset 1 20)%go epochClock with
  | Ok _ m => m
  | _ => epochClock
  end.

Lemma take_splits_witness :
  take [3; 1; 2]%nat 7 = ([3; 1; 2]%nat, None) /\
  take [3; 1; 2]%nat 1 = ([3; 2]%nat, Some 1%nat).
Proof.
  destruct (take_splits [3; 1; 2]%nat 7 ltac:(by_computation)) as [Habsent _].
  destruct (take_splits [3; 1; 2]%nat 1 ltac:(by_computation)) as [_ Hpresent].
  split; [apply Habsent; by_computation|apply Hpresent; by_computation].
Defined.

Lemma disable_then_enable_witness :
  Permutation (active (enableTicker 0 (disableTicker 0 tickingClock))) (active tickingClock) /\
  inactive (enableTicker 0 (disableTicker 0 tickingClock)) = inactive tickingClock.
Proof.
  destruct (disable_then_enable 0 tickingClock) as (Hperm & _ & Hinactive);
    [by_computation..|].
  split; [exact Hperm|exact Hinactive].
Defined.


Lemma Start_on_running_clock_witness :
  exists m', Start 3 (with_nStopped 0 epochClock) = Panic ErrClockIsRunning m' /\
             nStopped m' = -1 /\ IsRunning m' = false /\
             exists m'', Start 4 m' = Panic ErrClockIsRunning m''.
Proof.
  exact (Start_on_running_clock 3 4 (with_nStopped 0 epochClock) eq_refl).
Defined.

Lemma running_clock_reads_witness :
  read_all [readNow 3; readUpdate 4; readUntil 5 100] (with_nStopped 0 tickingClock)
  = Ok tt (with_now (0 + total (reading_elapsed <$> [readNow 3; readUpdate 4; readUntil 5 100]))
                    (with_nStopped 0 tickingClock)).
Proof.
  exact (running_clock_reads [readNow 3; readUpdate 4; readUntil 5 100]
           (with_nStopped 0 tickingClock) eq_refl).
Defined.

Lemma stopped_clock_reads_witness :
  Now 9 epochClock = Ok 0 epochClock /\
  Update 9 epochClock = Panic ErrClockNotRunning epochClock.
Proof.
  destruct (stopped_clock_reads 9 0 epochClock eq_refl) as (Hnow & _ & _ & Hupdate).
  split; [exact Hnow|exact Hupdate].
Defined.

Lemma NewMockClock_running_state_witness :
  (exists m, NewMockClock [AtTime 5; InLocation (Some Local); DropsTicks] = Ok tt m /\
             IsRunning m = false) /\
  (exists m, NewMockClock [StartRunning 3; Yielding 0] = Ok tt m /\ IsRunning m = true) /\
  (exists m, NewMockClock [StartRunning 3; StartRunning 4] = Panic ErrClockIsRunning m) /\
  (exists m, NewMockClock [StartRunning 3; InLocation None; StartRunning 4]
             = Panic missingLocation m).
Proof.
  split; [|split; [|split]].
  - destruct (NewMockClock_running_state [AtTime 5; InLocation (Some Local); DropsTicks])
      as [Hlocated _].
    destruct Hlocated as (Hstopped & _ & _); [repeat constructor|].
    destruct (Hstopped eq_refl) as (m & Hm & Hrun & _). now exists m.
  - destruct (NewMockClock_running_state [StartRunning 3; Yielding 0]) as [Hlocated _].
    destruct Hlocated as (_ & Hrunning & _); [repeat constructor|].
    destruct (Hrunning eq_refl) as (m & Hm & Hrun & _). now exists m.
  - destruct (NewMockClock_running_state [StartRunning 3; StartRunning 4]) as [Hlocated _].
    destruct Hlocated as (_ & _ & Hpanic); [repeat constructor|].
    apply Hpanic. vm_compute. lia.
  - destruct (NewMockClock_running_state [StartRunning 3; InLocation None; StartRunning 4])
      as [_ Hnil].
    apply (Hnil [StartRunning 3] [StartRunning 4]);
      [reflexivity|repeat constructor|vm_compute; lia].
Defined.

Lemma AdvanceTo_skips_inactive_witness :
  exists (m1 m' : mockClock) (log : list dispatch),
    timer_stop 0 timerClock = Ok true m1 /\
    (forall fuel, (ticks_left (5 * Second)%Z m1 < fuel)%nat ->
                  AdvanceTo fuel (5 * Second) m1 = Ok tt m') /\
    dispatched m' = dispatched m1 ++ log /\
    dispatches_to 0 log = [].
Proof.
  eexists. 
  destruct (AdvanceTo_skips_inactive 0 (5 * Second)
              (match timer_stop 0 timerClock with Ok _ m => m | _ => epochClock end))
    as (m' & log & Hrun & Hlog & Hnone & _);
    [registry_in_order|vm_compute; discriminate|by_computation|].
  exists m', log. split; [vm_compute; reflexivity|].
  split; [exact Hrun|]. split; [exact Hlog|exact Hnone].
Defined.

Lemma AdvanceTo_fires_timer_once_witness :
  exists (m' : mockClock) (log : list dispatch),
    (forall fuel, (ticks_left (5 * Second)%Z timerClock < fuel)%nat ->
                  AdvanceTo fuel (5 * Second) timerClock = Ok tt m') /\
    dispatched m' = dispatched timerClock ++ log /\
    dispatches_to 0 log = [Send 0 (1 * Second)] /\
    (0%nat ∉ active m') /\ 0%nat ∈ inactive m'.
Proof.
  destruct (AdvanceTo_fires_timer_once 0 (mkTimer true false (1 * Second) tsActive)
              (5 * Second) timerClock)
    as (m' & log & Hrun & Hlog & Hsent & _ & Hnin & Hin & _);
    [registry_in_order|list_ascending|vm_compute; reflexivity|by_computation
    |vm_compute; discriminate|vm_compute; discriminate|].
  exists m', log. auto.
Defined.

Lemma AdvanceTo_leaves_nothing_due_witness :
  exists m' : mockClock,
    (forall fuel, (ticks_left (5 * Second)%Z tickingClock < fuel)%nat ->
                  AdvanceTo fuel (5 * Second) tickingClock = Ok tt m') /\
    (forall id, id ∈ active m' -> 5 * Second < nextTick (heap m') id).
Proof.
  destruct (AdvanceTo_leaves_nothing_due (5 * Second) tickingClock)
    as (m' & Hrun & Hdue & _);
    [registry_in_order|list_ascending|vm_compute; discriminate|].
  exists m'. auto.
Defined.

Lemma AdvanceTo_sends_in_order_witness :
  exists (m' : mockClock) (log : list dispatch),
    (forall fuel, (ticks_left (5 * Second)%Z tickingClock < fuel)%nat ->
                  AdvanceTo fuel (5 * Second) tickingClock = Ok tt m') /\
    dispatched m' = dispatched tickingClock ++ log /\
    StronglySorted Z.le (sent_times log).
Proof.
  destruct (AdvanceTo_sends_in_order (5 * Second) tickingClock)
    as (m' & log & Hrun & Hlog & Hsorted & _);
    [registry_in_order|list_ascending|reflexivity|vm_compute; discriminate|].
  exists m', log. auto.
Defined.

Lemma ticker_tick_due_witness :
  exists (k : Z) (m' : mockClock),
    (forall fuel, (2 <= fuel)%nat ->
       ticker_tick fuel (Some 0%nat) (3 * Second + 5) (with_dropsTicks true tickingClock)
       = Ok true m') /\
    dispatched m' = [Send 0 (1 * Second + k * (1 * Second))] /\
    1 * Second + k * (1 * Second) <= 3 * Second + 5 < 1 * Second + (k + 1) * (1 * Second).
Proof.
  destruct (ticker_tick_due 0 (mkTicker (1 * Second) (1 * Second) tsActive)
              (3 * Second + 5) (with_dropsTicks true tickingClock))
    as (k & m' & _ & Hrun & Hlog & _ & _ & _ & Hdrop);
    [vm_compute; reflexivity|reflexivity|vm_compute; discriminate|reflexivity|].
  exists k, m'. split; [exact Hrun|]. split; [exact Hlog|]. now apply Hdrop.
Defined.

Lemma ticker_tick_otherwise_witness :
  (forall fuel, ticker_tick fuel (Some 0%nat) 5 tickingClock = Ok false tickingClock) /\
  (forall fuel,
     ticker_tick fuel (Some 0%nat) 5
       (with_heap {[ 0%nat := IsTicker (mkTicker 0 0 tsActive) ]}
                  (with_dropsTicks true tickingClock))
     = OutOfFuel).
Proof.
  split.
  - apply (ticker_tick_otherwise 0 (mkTicker (1 * Second) (1 * Second) tsActive) 5 tickingClock);
      [vm_compute; reflexivity|right; reflexivity].
  - apply (ticker_tick_otherwise 0 (mkTicker 0 0 tsActive) 5
             (with_heap {[ 0%nat := IsTicker (mkTicker 0 0 tsActive) ]}
                        (with_dropsTicks true tickingClock)));
      [vm_compute; reflexivity|reflexivity|vm_compute; discriminate
      |vm_compute; discriminate|reflexivity].
Defined.

Lemma newTimer_registers_or_fires_witness :
  (exists m', NewTimer 0 epochClock = Ok (mkTimerValue true (Some 0%nat) true) m' /\
              dispatched m' = [Send 0 0]) /\
  (exists m', AfterFunc (1 * Second) tickingClock = Ok (mkTimerValue true (Some 1%nat) true) m' /\
              dispatched m' = [] /\ 1%nat ∈ active m').
Proof.
  split.
  - destruct (newTimer_registers_or_fires 0 false epochClock registry_ok_epochClock)
      as (m' & Hnew & _ & _ & _ & _ & Hfires).
    destruct Hfires as (Hlog & _); [lia|]. exists m'. split; [exact Hnew|exact Hlog].
  - destruct (newTimer_registers_or_fires (1 * Second) true tickingClock
                registry_ok_tickingClock)
      as (m' & Hnew & _ & _ & _ & Hlater & _).
    destruct Hlater as (Hlog & _ & Hin & _); [reflexivity|].
    exists m'. split; [exact Hnew|]. split; [exact Hlog|exact Hin].
Defined.

Lemma stop_retires_witness :
  exists m1, ticker_stop 0 tickingClock = Ok tt m1 /\
             (0%nat ∉ active m1) /\ 0%nat ∈ inactive m1.
Proof.
  destruct (stop_retires 0 tickingClock registry_ok_tickingClock ltac:(by_computation))
    as [_ Hticker].
  destruct (Hticker (mkTicker (1 * Second) (1 * Second) tsActive) ltac:(vm_compute; reflexivity))
    as (m1 & Hstop & _ & Hnin & Hin & _).
  exists m1. auto.
Defined.

Lemma ticker_reset_restarts_witness :
  ticker_reset 0 0 tickingClock = Panic errNonPositiveInterval tickingClock /\
  exists m', ticker_reset 0 (5 * Second) tickingClock = Ok tt m' /\
             the_ticker m' 0 = Some (mkTicker (5 * Second) (0 + 5 * Second) tsActive).
Proof.
  destruct (ticker_reset_restarts 0 (mkTicker (1 * Second) (1 * Second) tsActive) 0 tickingClock
              ltac:(vm_compute; reflexivity)) as [Hpanic _].
  destruct (ticker_reset_restarts 0 (mkTicker (1 * Second) (1 * Second) tsActive) (5 * Second)
              tickingClock ltac:(vm_compute; reflexivity)) as [_ Hreset].
  split; [apply Hpanic; vm_compute; discriminate|].
  destruct (Hreset eq_refl) as (m' & Hrun & Htk & _). exists m'. auto.
Defined.

Lemma timer_reset_rearms_witness :
  exists m', timer_reset 0 (3 * Second) timerClock = Ok true m' /\
             the_timer m' 0 = Some (mkTimer true false (0 + 3 * Second) tsActive).
Proof.
  exact (timer_reset_rearms timerClock 0 (mkTimer true false (1 * Second) tsActive)
           (3 * Second) ltac:(vm_compute; reflexivity)).
Defined.

Lemma NewTicker_nonpositive_fires_witness :
  exists m', NewTicker 0 (-5) epochClock = Ok (mkTickerValue true (Some 0%nat) true) m' /\
             dispatched m' = [Send 0 0].
Proof.
  exact (NewTicker_nonpositive_fires 0 (-5) epochClock ltac:(lia) eq_refl).
Defined.

(** The timer of [resetClock] is due at 10ns and Active, and an advance to
    10ns does not fire it. *)
Lemma AdvanceTo_trusts_the_head_witness :
  active resetClock = [1%nat; 0%nat] /\
  the_timer resetClock 0 = Some (mkTimer true false 10 tsActive) /\
  AdvanceTo 1 10 resetClock = Ok tt (with_now 10 resetClock) /\
  dispatched (with_now 10 resetClock) = [].
Proof.
  split; [vm_compute; reflexivity|]. split; [vm_compute; reflexivity|].
  split; [|vm_compute; reflexivity].
  apply (AdvanceTo_trusts_the_head 0 10 resetClock); [|vm_compute; discriminate].
  right. exists 1%nat, [0%nat], (IsTicker (mkTicker 20 20 tsActive)).
  split; [vm_compute; reflexivity|]. split; [vm_compute; reflexivity|]. reflexivity.
Defined.

Lemma AdvanceTo_never_returns_witness :
  exists (k : Ticker) (m : mockClock),
    NewTicker 0 0 epochClock = Ok k m /\
    forall fuel, AdvanceBy fuel (1 * Second) m = OutOfFuel.
Proof.
  eexists _, _. split; [vm_compute; reflexivity|].
  intros fuel. unfold AdvanceBy.
  apply (AdvanceTo_never_returns _ _ 0%nat (mkTicker 0 0 tsActive));
    [vm_compute; reflexivity|vm_compute; reflexivity|reflexivity
    |vm_compute; discriminate|vm_compute; discriminate|vm_compute; discriminate].
Defined.

Lemma newMockContext_on_stopped_clock_witness :
  newMockContext 0 None 0 epochClock
  = Ok (mkContext 0 true (Some DeadlineExceeded) None, noopCancel) epochClock /\
  exists m',
    newMockContext 0 None (1 * Second) epochClock
    = Ok (mkContext (1 * Second) false None (Some (mkTimerValue true (Some 0%nat) true)),
          cancelCanceled) m' /\
    heap m' !! 0%nat = Some (IsTimer (mkTimer false true (1 * Second) tsActive)).
Proof.
  destruct (newMockContext_on_stopped_clock 0 0 epochClock eq_refl registry_ok_epochClock)
    as [Hpast _].
  destruct (newMockContext_on_stopped_clock 0 (1 * Second) epochClock eq_refl
              registry_ok_epochClock) as [_ Hfuture].
  split; [apply Hpast; reflexivity|].
  destruct Hfuture as (m' & Hnew & Hh & _); [reflexivity|vm_compute; discriminate|].
  exists m'. auto.
Defined.

Lemma deadline_context_expires_witness :
  exists (c : mockContext) (m1 m2 : mockClock) (log : list dispatch),
    newMockContext 0 None (1 * Second) epochClock = Ok (c, cancelCanceled) m1 /\
    (forall fuel, (ticks_left (1 * Second)%Z m1 < fuel)%nat ->
                  AdvanceTo fuel (1 * Second) m1 = Ok tt m2) /\
    dispatches_to 0 log = [Call 0] /\
    ctxStep timerCallback (mkWorld m2 c)
    = Ok tt (mkWorld m2 (mkContext (1 * Second) true (Some DeadlineExceeded) None)).
Proof.
  destruct (deadline_context_expires 0 (1 * Second) (1 * Second) epochClock eq_refl
              registry_ok_epochClock)
    as (c & m1 & Hnew & _ & Hnow1 & Hpending & Hlater);
    [reflexivity|vm_compute; discriminate|vm_compute; discriminate|].
  destruct (Hlater m1 Hpending) as (m2 & log & Hrun & _ & Hcall & Hstep & _);
    [rewrite Hnow1; vm_compute; discriminate|].
  exists c, m1, m2, log. auto.
Defined.

Lemma cancelled_context_never_expires_witness :
  exists (c : mockContext) (m1 m2 m3 : mockClock) (log : list dispatch),
    newMockContext 0 None (1 * Second) epochClock = Ok (c, cancelCanceled) m1 /\
    ctxStep (callCancelFunc cancelCanceled) (mkWorld m1 c)
    = Ok tt (mkWorld m2 (mkContext (1 * Second) true (Some Canceled) None)) /\
    (forall fuel, (ticks_left (5 * Second)%Z m2 < fuel)%nat ->
                  AdvanceTo fuel (5 * Second) m2 = Ok tt m3) /\
    dispatches_to 0 log = [].
Proof.
  destruct (cancelled_context_never_expires 0 (1 * Second) (5 * Second) epochClock eq_refl
              registry_ok_epochClock)
    as (c & m1 & m2 & m3 & log & Hnew & Hstep & Hrun & _ & Hnone);
    [reflexivity|vm_compute; discriminate|vm_compute; discriminate|].
  exists c, m1, m2, m3, log. auto.
Defined.
